(** * produce_lock_info: ingestion, consolidation and ranking of mutex data

    A shallow embedding of [produce_lock_info.c] and the properties of its
    parser ([read_data], [lookup_data]), its consolidation pass
    ([organize_data]), its ranking and rendering pass ([dump_data]), its
    option loop ([main], [usage]) and the scan of [execute_command] for the
    process to interrupt.

    Conventions of the embedding.
    - A C [long] is a [Z] kept in the signed 64-bit range by [wrap64]; an
      [int] is kept in range by [wrap32].
    - A C string is a [string]; a pointer into it returned by [strchr] and
      friends is an offset ([nat]), [NULL] is [None].
    - The arrays [lock_data] and [cons_data] are lists; the element counts
      [number_lock_entries] and [number_cons_entries] are kept next to them
      where the code lets the two diverge.
    - The fixed-size character arrays ([buffer], [func_called], [stack_in])
      are strings without a bound: writes past their end are not modelled.
      What is stated of whole runs is for inputs that stay within the arrays;
      a size of input that does is given with the properties of the reader.
    - [buffer] starts out empty in [read_data], where C leaves it as the
      memory was.
    - A division that traps (a zero divisor, [LONG_MIN / -1]) is [None]. *)

From Stdlib Require Import ZArith List String Ascii Bool Lia Sorted Permutation.
From Stdlib Require Import DecimalString OrderedTypeEx.
Import ListNotations.

Local Open Scope Z_scope.

(** ** Machine integers *)

Definition wrap64 (z : Z) : Z := (z + 2 ^ 63) mod 2 ^ 64 - 2 ^ 63.
Definition wrap32 (z : Z) : Z := (z + 2 ^ 31) mod 2 ^ 32 - 2 ^ 31.

Definition LONG_MAX : Z := 2 ^ 63 - 1.
Definition LONG_MIN : Z := - 2 ^ 63.

Definition add64 (a b : Z) : Z := wrap64 (a + b).
Definition mul64 (a b : Z) : Z := wrap64 (a * b).

(** [a / b] on [long]: truncation toward zero.  A zero divisor traps, and
    so does the one quotient that does not fit, [LONG_MIN / -1]. *)
Definition div64 (a b : Z) : option Z :=
  if b =? 0 then None
  else if (a =? LONG_MIN) && (b =? -1) then None
  else Some (wrap64 (Z.quot a b)).

(** [size_t] conversion of an [int] (used by the row limit comparison). *)
Definition to_size_t (z : Z) : Z := z mod 2 ^ 64.

Definition EXIT_SUCCESS : Z := 0.
Definition EXIT_FAILURE : Z := 1.

(** ** The C string library *)

Local Open Scope string_scope.

Definition nl : ascii := ascii_of_nat 10.
Definition NUL : ascii := ascii_of_nat 0.

(** First character of a C string; the terminator when it is empty. *)
Definition first_char (s : string) : ascii :=
  match s with
  | EmptyString => NUL
  | String c _ => c
  end.

(** [strchr s c]: offset of the first [c] in [s]. *)
Fixpoint strchr (s : string) (c : ascii) : option nat :=
  match s with
  | EmptyString => None
  | String a s' =>
      if Ascii.eqb a c then Some O
      else match strchr s' c with
           | Some i => Some (S i)
           | None => None
           end
  end.

(** [strrchr s c]: offset of the last [c] in [s]. *)
Fixpoint strrchr (s : string) (c : ascii) : option nat :=
  match s with
  | EmptyString => None
  | String a s' =>
      match strrchr s' c with
      | Some i => Some (S i)
      | None => if Ascii.eqb a c then Some O else None
      end
  end.

(** The first [n] characters of [s], and what follows them. *)
Fixpoint take (n : nat) (s : string) : string :=
  match n, s with
  | O, _ => EmptyString
  | _, EmptyString => EmptyString
  | S n', String a s' => String a (take n' s')
  end.

Fixpoint drop (n : nat) (s : string) : string :=
  match n, s with
  | O, _ => s
  | _, EmptyString => EmptyString
  | S n', String _ s' => drop n' s'
  end.

Fixpoint is_prefix (p s : string) : bool :=
  match p, s with
  | EmptyString, _ => true
  | String a p', String b s' => Ascii.eqb a b && is_prefix p' s'
  | String _ _, EmptyString => false
  end.

(** [strstr s needle != NULL]. *)
Fixpoint strstr (s needle : string) : bool :=
  is_prefix needle s
  || match s with
     | EmptyString => false
     | String _ s' => strstr s' needle
     end.

(** [strcmp]: only the sign of the result is used by the program. *)
Definition strcmp (s1 s2 : string) : Z :=
  match String.compare s1 s2 with
  | Lt => -1
  | Eq => 0
  | Gt => 1
  end%Z.

Definition isspace (c : ascii) : bool :=
  let n := nat_of_ascii c in
  ((n =? 32) || ((9 <=? n) && (n <=? 13)))%nat.

Definition isdigit (c : ascii) : bool :=
  let n := nat_of_ascii c in
  ((48 <=? n) && (n <=? 57))%nat.

Fixpoint skip_space (s : string) : string :=
  match s with
  | String c s' => if isspace c then skip_space s' else s
  | EmptyString => s
  end.

(** Value of the leading decimal digits of [s], on top of [acc]. *)
Fixpoint digits (acc : Z) (s : string) : Z :=
  match s with
  | String c s' =>
      if isdigit c
      then digits (10 * acc + Z.of_nat (nat_of_ascii c - 48)) s'
      else acc
  | EmptyString => acc
  end.

Definition clamp (lo hi z : Z) : Z := Z.max lo (Z.min hi z).

(** [strtoll s NULL 10]: white space, an optional sign, decimal digits;
    zero when there is no digit; saturating at the ends of the range. *)
Definition strtoll (s : string) : Z :=
  let s := skip_space s in
  match s with
  | String "-" s' => clamp LONG_MIN LONG_MAX (- digits 0 s')
  | String "+" s' => clamp LONG_MIN LONG_MAX (digits 0 s')
  | _ => clamp LONG_MIN LONG_MAX (digits 0 s)
  end.

Definition atoll (s : string) : Z := strtoll s.
Definition atoi (s : string) : Z := wrap32 (strtoll s).

(** ** Results of code that can leave the program *)

Inductive result (A : Type) : Type :=
| Done (a : A)                        (* normal completion *)
| Exited (status : Z) (diag : string) (* [diag] on stderr, then [exit(status)] *)
| Fault                               (* dereference of a null pointer *)
| OutOfFuel.                          (* iteration bound of the model used up *)

Arguments Done {A} a.
Arguments Exited {A} status diag.
Arguments Fault {A}.
Arguments OutOfFuel {A}.

Definition bind {A B : Type} (r : result A) (k : A -> result B) : result B :=
  match r with
  | Done a => k a
  | Exited st d => Exited st d
  | Fault => Fault
  | OutOfFuel => OutOfFuel
  end.

Notation "x <- c ;; k" := (bind c (fun x => k))
  (at level 61, c at next level, right associativity).

(** ** The data model *)

Definition ACQ_DATA_HOLD_AVG : nat := 0.
Definition ACQ_DATA_HOLD_MAX : nat := 1.
Definition ACQ_DATA_HOLD_COUNT : nat := 2.
Definition ACQ_DATA_TOTAL_TIME : nat := 3.
Definition HD_DATA_HOLD_AVG : nat := 4.
Definition HD_DATA_HOLD_MAX : nat := 5.
Definition HD_DATA_HOLD_COUNT : nat := 6.
Definition HD_DATA_TOTAL_TIME : nat := 7.

Definition HOLDS : Z := 0.
Definition HOLDS_MAX : Z := 1.
Definition HOLDS_AVG : Z := 2.
Definition ACQS : Z := 3.
Definition ACQS_MAX : Z := 4.
Definition ACQS_AVG : Z := 5.
Definition ACQS_SPENT : Z := 6.

(** [struct lock_info]; [data] is [long data[8]]. *)
Record lock_info : Type := mk_lock_info {
  stack : string;
  called_from : string;
  data : list Z
}.

(** Replace element [i] of an array; nothing happens past its end. *)
Fixpoint upd {A : Type} (i : nat) (v : A) (l : list A) : list A :=
  match l, i with
  | [], _ => []
  | _ :: t, O => v :: t
  | h :: t, S j => h :: upd j v t
  end.

(** [li->data[i]] and [li->data[i] = v]. *)
Definition dget (li : lock_info) (i : nat) : Z := nth i (data li) 0%Z.
Definition dset (li : lock_info) (i : nat) (v : Z) : lock_info :=
  mk_lock_info (stack li) (called_from li) (upd i v (data li)).

(** [bzero(p, sizeof (struct lock_info))]; null strings read as empty. *)
Definition zero_info : lock_info := mk_lock_info "" "" (repeat 0%Z 8).

(** ** Comparison routines for [qsort] and [bsearch] *)

Local Open Scope Z_scope.
Local Open Scope list_scope.

Definition locate_caller (caller : string) (li : lock_info) : Z :=
  strcmp caller (called_from li).

Definition locate_stack (stk : string) (li : lock_info) : Z :=
  strcmp stk (stack li).

Definition sort_func (l1 l2 : lock_info) : Z :=
  strcmp (called_from l1) (called_from l2).

Definition sort_stack (l1 l2 : lock_info) : Z :=
  strcmp (stack l1) (stack l2).

(** The eight numeric comparison routines share one body and differ in the
    field they read: larger values sort first. *)
Definition sort_desc (field : nat) (l1 l2 : lock_info) : Z :=
  if dget l1 field <? dget l2 field then 1
  else if dget l2 field <? dget l1 field then -1
  else 0.

Inductive comparator : Type :=
| sort_aq_spin
| sort_aq_average
| sort_aq_count
| sort_aq_max
| sort_hold_avg
| sort_hold_count
| sort_hold_max
| sort_hold_total.

(** The field each comparison routine reads. *)
Definition comparator_field (c : comparator) : nat :=
  match c with
  | sort_aq_spin => ACQ_DATA_TOTAL_TIME
  | sort_aq_average => ACQ_DATA_HOLD_AVG
  | sort_aq_count => ACQ_DATA_HOLD_COUNT
  | sort_aq_max => ACQ_DATA_HOLD_MAX
  | sort_hold_avg => HD_DATA_HOLD_AVG
  | sort_hold_count => HD_DATA_HOLD_COUNT
  | sort_hold_max => HD_DATA_HOLD_MAX
  | sort_hold_total => HD_DATA_TOTAL_TIME
  end.

Definition run_comparator (c : comparator) : lock_info -> lock_info -> Z :=
  sort_desc (comparator_field c).

(** ** [qsort] and [bsearch] *)

(** [qsort] is modelled by a stable insertion sort.  The C library leaves
    the relative order of elements that compare equal open; the statements
    below that depend on it are given for each order. *)
Fixpoint qsort_insert {A : Type} (compar : A -> A -> Z) (x : A) (l : list A)
  : list A :=
  match l with
  | [] => [x]
  | y :: l' => if compar x y <=? 0 then x :: l else y :: qsort_insert compar x l'
  end.

Definition qsort {A : Type} (compar : A -> A -> Z) (base : list A) : list A :=
  fold_right (qsort_insert compar) [] base.

(** [bsearch]: binary search of [key] among the first [nmemb] elements of
    [base]; the offset of a matching element, or [None]. *)
Fixpoint bsearch_range {K A : Type} (compar : K -> A -> Z) (key : K)
  (base : list A) (fuel l u : nat) : option nat :=
  match fuel with
  | O => None
  | S fuel' =>
      if (l <? u)%nat then
        let idx := ((l + u) / 2)%nat in
        match nth_error base idx with
        | None => None
        | Some p =>
            let comparison := compar key p in
            if comparison <? 0 then bsearch_range compar key base fuel' l idx
            else if 0 <? comparison
                 then bsearch_range compar key base fuel' (S idx) u
                 else Some idx
        end
      else None
  end.

Definition bsearch {K A : Type} (compar : K -> A -> Z) (key : K)
  (base : list A) (nmemb : nat) : option nat :=
  bsearch_range compar key base (S nmemb) 0 nmemb.

(** [realloc(base, n * sizeof ( *base))]: the first [n] elements are kept,
    new ones are cleared by the caller before they are read. *)
Definition realloc (base : list lock_info) (n : nat) : list lock_info :=
  firstn n base ++ repeat zero_info (n - List.length base).

(** ** Consolidation: [organize_data] *)

(** The global pair [cons_data], [number_cons_entries]. *)
Record cons_store : Type := mk_cons_store {
  cons_data : list lock_info;
  number_cons_entries : nat
}.

(** The entries the rest of the program sees. *)
Definition cons_entries (cs : cons_store) : list lock_info :=
  firstn (number_cons_entries cs) (cons_data cs).

(** "Now add things up": the body of the loop after the entry is located. *)
Definition add_things_up (entry_add wptr : lock_info) : option lock_info :=
  (* Adjust average *)
  let new_average :=
    add64 (mul64 (dget entry_add ACQ_DATA_HOLD_AVG) (dget entry_add ACQ_DATA_HOLD_COUNT))
          (mul64 (dget wptr ACQ_DATA_HOLD_AVG) (dget wptr ACQ_DATA_HOLD_COUNT)) in
  let entry_add :=
    dset entry_add ACQ_DATA_HOLD_COUNT
      (add64 (dget entry_add ACQ_DATA_HOLD_COUNT) (dget wptr ACQ_DATA_HOLD_COUNT)) in
  match
    (if dget entry_add ACQ_DATA_HOLD_COUNT =? 0 then Some entry_add
     else option_map (dset entry_add ACQ_DATA_HOLD_AVG)
            (div64 new_average (dget entry_add ACQ_DATA_HOLD_COUNT)))
  with
  | None => None
  | Some entry_add =>
      let new_average :=
        add64 (mul64 (dget entry_add HD_DATA_HOLD_AVG) (dget entry_add HD_DATA_HOLD_COUNT))
              (mul64 (dget wptr HD_DATA_HOLD_AVG) (dget wptr HD_DATA_HOLD_COUNT)) in
      let entry_add :=
        dset entry_add HD_DATA_HOLD_COUNT
          (add64 (dget entry_add HD_DATA_HOLD_COUNT) (dget wptr HD_DATA_HOLD_COUNT)) in
      match
        (if dget entry_add HD_DATA_HOLD_COUNT =? 0 then Some entry_add
         else option_map (dset entry_add HD_DATA_HOLD_AVG)
                (div64 new_average (dget entry_add HD_DATA_HOLD_COUNT)))
      with
      | None => None
      | Some entry_add =>
          (* Now adjust the max hold if need be *)
          let entry_add :=
            if dget entry_add ACQ_DATA_HOLD_MAX <? dget wptr ACQ_DATA_HOLD_MAX
            then dset entry_add ACQ_DATA_HOLD_MAX (dget wptr ACQ_DATA_HOLD_MAX)
            else entry_add in
          let entry_add :=
            if dget entry_add HD_DATA_HOLD_MAX <? dget wptr HD_DATA_HOLD_MAX
            then dset entry_add HD_DATA_HOLD_MAX (dget wptr HD_DATA_HOLD_MAX)
            else entry_add in
          Some entry_add
      end
  end.

(** One iteration of the [for] loop of [organize_data]: [count] is the loop
    index and [wptr] is [&lock_data[count]].  [None] is a division trap. *)
Definition organize_body (count : nat) (wptr : lock_info) (cs : cons_store)
  : option cons_store :=
  let '(cs, entry_add, add_entry) :=
    if (count =? 0)%nat then
      (* First entry: a one-element array; the count is left as it is *)
      (mk_cons_store [zero_info] (number_cons_entries cs), O, true)
    else
      (* Look up entry *)
      match bsearch locate_caller (called_from wptr)
              (cons_data cs) (number_cons_entries cs) with
      | Some i => (cs, i, false)
      | None =>
          (* New entry *)
          let n := S (number_cons_entries cs) in
          (mk_cons_store (realloc (cons_data cs) n) n, (n - 1)%nat, true)
      end in
  let arr :=
    if add_entry
    then upd entry_add
           (mk_lock_info (stack zero_info) (called_from wptr) (data zero_info))
           (cons_data cs)
    else cons_data cs in
  match add_things_up (nth entry_add arr zero_info) wptr with
  | None => None
  | Some e => Some (mk_cons_store (upd entry_add e arr) (number_cons_entries cs))
  end.

(** The loop itself, over the already sorted [lock_data]. *)
Fixpoint organize_loop (count : nat) (entries : list lock_info) (cs : cons_store)
  : option cons_store :=
  match entries with
  | [] => Some cs
  | wptr :: rest =>
      match organize_body count wptr cs with
      | None => None
      | Some cs' => organize_loop (S count) rest cs'
      end
  end.

(** [organize_data]: [lock_data] is sorted on [called_from], then folded into
    [cons_data], which starts out unallocated with a count of zero. *)
Definition organize_data (lock_data : list lock_info) : option cons_store :=
  organize_loop 0 (qsort sort_func lock_data) (mk_cons_store [] 0).

(** ** Ranking and rendering: [dump_data] *)

(** The [switch] on [sort_option]. *)
Definition dump_select (sort_option : Z) : comparator :=
  match sort_option with
  | 0 => sort_hold_count
  | 1 => sort_hold_max
  | 2 => sort_hold_avg
  | 3 => sort_hold_total
  | 4 => sort_aq_count
  | 5 => sort_aq_max
  | 6 => sort_aq_average
  | _ => sort_aq_spin   (* case 7 and default *)
  end.

(** The first loop of [dump_data]: the two total-time fields. *)
Definition set_totals (e : lock_info) : lock_info :=
  let e :=
    dset e ACQ_DATA_TOTAL_TIME
      (mul64 (dget e ACQ_DATA_HOLD_AVG) (dget e ACQ_DATA_HOLD_COUNT)) in
  dset e HD_DATA_TOTAL_TIME
    (mul64 (dget e HD_DATA_HOLD_AVG) (dget e HD_DATA_HOLD_COUNT)).

(** Right-justification in a field of [width] characters ([%48s], [%15ld]). *)
Definition pad_left (width : nat) (s : string) : string :=
  (String.concat "" (repeat " " (width - String.length s)) ++ s)%string.

Definition string_of_long (z : Z) : string :=
  NilZero.string_of_int (Z.to_int z).

Definition line_end : string := String nl "".

(** The header line and the line of one entry. *)
Definition header_line : string :=
  (pad_left 48 "caller" ++ pad_left 15 "# holds" ++ pad_left 15 "Hold Max (ns)"
   ++ pad_left 15 "Hold Avg (ns)" ++ pad_left 15 "# ACQs"
   ++ pad_left 15 "ACQs Max (ns)" ++ pad_left 15 "ACQs Avg (ns)" ++ line_end)%string.

Definition entry_line (name : string) (e : lock_info) : string :=
  (pad_left 48 name
   ++ pad_left 15 (string_of_long (dget e HD_DATA_HOLD_COUNT))
   ++ pad_left 15 (string_of_long (dget e HD_DATA_HOLD_MAX))
   ++ pad_left 15 (string_of_long (dget e HD_DATA_HOLD_AVG))
   ++ pad_left 15 (string_of_long (dget e ACQ_DATA_HOLD_COUNT))
   ++ pad_left 15 (string_of_long (dget e ACQ_DATA_HOLD_MAX))
   ++ pad_left 15 (string_of_long (dget e ACQ_DATA_HOLD_AVG)) ++ line_end)%string.

(** [called_from] cut at its first [':'] (done in place by the code). *)
Definition first_frame (cf : string) : string :=
  match strchr cf ":" with
  | Some i => take i cf
  | None => cf
  end.

(** The name the caller filter compares: leading white space skipped, cut
    at the first space. *)
Definition filter_name (name : string) : string :=
  let ptr1 := skip_space name in
  match strchr ptr1 " " with
  | Some i => take i ptr1
  | None => ptr1
  end.

(** [caller != NULL] and the [strcmp] differs: the entry is skipped. *)
Definition caller_skips (caller : option string) (e : lock_info) : bool :=
  match caller with
  | None => false
  | Some c => negb (strcmp (filter_name (first_frame (called_from e))) c =? 0)
  end.

(** The inner [while] loop: the frames after the first one, one per line.
    When text is left with no [':'] in it, the code goes on from a null
    pointer. *)
Fixpoint more_frames (fuel : nat) (ptr : string) : result (list string) :=
  match fuel with
  | O => OutOfFuel
  | S fuel' =>
      match ptr with
      | EmptyString => Done []
      | _ =>
          match strchr ptr ":" with
          | Some i =>
              lines <- more_frames fuel' (drop (S i) ptr) ;;
              Done ((pad_left 48 (take i ptr) ++ line_end)%string :: lines)
          | None => Fault
          end
      end
  end.

(** What the second loop prints for one entry that is not skipped. *)
Definition entry_lines (e : lock_info) : result (list string) :=
  lines <- match strchr (called_from e) ":" with
           | Some i =>
               let ptr := drop (S i) (called_from e) in
               more_frames (S (String.length ptr)) ptr
           | None => Done []
           end ;;
  Done (entry_line (first_frame (called_from e)) e :: lines).

(** The second loop of [dump_data], over the entries below the row limit.
    Its test of [called_from] against [NULL] always passes: every entry below
    the count has been given its key. *)
Fixpoint dump_loop (caller : option string) (entries : list lock_info)
  : result (list string) :=
  match entries with
  | [] => Done []
  | e :: rest =>
      if caller_skips caller e then dump_loop caller rest
      else
        lines <- entry_lines e ;;
        more <- dump_loop caller rest ;;
        Done (lines ++ more)
  end.

(** The row limit: [numb_to_show] is an [int] compared with a [size_t]. *)
Definition row_limit (numb_to_show : Z) (number_cons_entries : nat) : nat :=
  if to_size_t numb_to_show <? Z.of_nat number_cons_entries
  then Z.to_nat (to_size_t numb_to_show)
  else number_cons_entries.

(** The entries in the order [dump_data] ranks them. *)
Definition ranked (sort_option : Z) (cs : cons_store) : list lock_info :=
  qsort (run_comparator (dump_select sort_option))
        (map set_totals (cons_entries cs)).

(** [dump_data]: the lines written to the output stream. *)
Definition dump_data (caller : option string) (sort_option numb_to_show : Z)
  (cs : cons_store) : result (list string) :=
  let entries := ranked sort_option cs in
  let number_cons_entries := row_limit numb_to_show (number_cons_entries cs) in
  lines <- dump_loop caller (firstn number_cons_entries entries) ;;
  Done (header_line :: lines).

(** ** The parser: [remove_new_line], [read_data], [lookup_data] *)

(** The text of a buffer as a C string: what precedes the first NUL. *)
Definition c_str (s : string) : string :=
  match strchr s NUL with
  | Some i => take i s
  | None => s
  end.

(** One line of at most [n] characters off the front of a stream. *)
Fixpoint read_line (n : nat) (s : string) : string * string :=
  match n, s with
  | O, _ => (EmptyString, s)
  | _, EmptyString => (EmptyString, EmptyString)
  | S n', String c s' =>
      if Ascii.eqb c nl then (String c EmptyString, s')
      else let (line, rest) := read_line n' s' in (String c line, rest)
  end.

(** [fgets(buffer, size, fd)]: the new buffer and the rest of the stream.
    At end of file the buffer is left as it was. *)
Definition fgets (buffer : string) (size : nat) (fd : string) : string * string :=
  match fd with
  | EmptyString => (buffer, fd)
  | _ => let (line, rest) := read_line (size - 1) fd in (c_str line, rest)
  end.

Definition malformed (buffer : string) : string :=
  ("malformed line: " ++ buffer ++ line_end)%string.

(** [remove_new_line]: the buffer with its newline turned into a space, or
    the exit with the diagnostic. *)
Definition remove_new_line (buffer : string) : result string :=
  match strchr buffer nl with
  | Some i => Done (take i buffer ++ " ")%string
  | None => Exited EXIT_FAILURE (malformed buffer)
  end.

(** [ptr = strrchr(buffer, ' '); ptr[0] = ':'; ptr[1] = '\0';] *)
Definition colon_at_last_space (buffer : string) : result string :=
  match strrchr buffer " " with
  | Some i => Done (take i buffer ++ ":")%string
  | None => Fault
  end.

(** The local variables of [read_data] that live across iterations, and
    the stream. *)
Record rd_state : Type := mk_rd_state {
  fd : string;
  buffer : string;
  func_called : string;
  stack_in : string;
  depth : Z;
  have_function : bool
}.

(** How one iteration of the [for (;;)] loop ends when the program is not
    left. *)
Inductive step : Type :=
| Break (st : rd_state)                 (* end of the section *)
| Continue (st : rd_state)
| Record_entry (st : rd_state) (value : Z).
    (* the stack is complete: "Add the entry", then [continue] *)

Definition set_buffer (st : rd_state) (b : string) : rd_state :=
  mk_rd_state (fd st) b (func_called st) (stack_in st) (depth st)
    (have_function st).

(** One iteration of the loop of [read_data], up to the point where the
    entry is added. *)
Definition read_data_body (sdepth : Z) (st : rd_state) : result step :=
  let (b, f) := fgets (buffer st) 1024 (fd st) in
  let st := mk_rd_state f b (func_called st) (stack_in st) (depth st)
              (have_function st) in
  (* Keep reading until end of section is hit *)
  if Ascii.eqb (first_char (buffer st)) "=" then Done (Break st)
  (* Check to make sure it is not an empty piece of data *)
  else if strstr (buffer st) "[]" then Done (Continue st)
  (* Start of a new function stack? *)
  else if Ascii.eqb (first_char (buffer st)) "@" then
    Done (Continue (mk_rd_state (fd st) (buffer st) (func_called st)
                      (stack_in st) (depth st) false))
  else
    b <- remove_new_line (buffer st) ;;
    let st := set_buffer st b in
    if negb (have_function st) then
      let stack_in0 := buffer st in
      (* Line we have now, is mutex_lock *)
      let (b, f) := fgets (buffer st) 1024 (fd st) in
      let st := mk_rd_state f b (func_called st) stack_in0 (depth st) true in
      b <- remove_new_line (buffer st) ;;
      b <- colon_at_last_space b ;;
      Done (Continue (mk_rd_state (fd st) b b (stack_in st ++ b)%string 1
                        (have_function st)))
    else if Ascii.eqb (first_char (buffer st)) "]" then
      (* End of the stack, record the entry as well as the count of times. *)
      let st := mk_rd_state (fd st) (buffer st) (func_called st) (stack_in st)
                  0 (have_function st) in
      match strchr (buffer st) ":" with
      | Some i => Done (Record_entry st (atoll (drop (S i) (buffer st))))
      | None => Exited EXIT_FAILURE (malformed (buffer st))
      end
    else
      (* All we need to do is add the function to the stack. *)
      let st := mk_rd_state (fd st) (buffer st) (func_called st)
                  (stack_in st ++ buffer st)%string (depth st)
                  (have_function st) in
      if depth st <? sdepth then
        b <- colon_at_last_space (buffer st) ;;
        Done (Continue (mk_rd_state (fd st) b (func_called st ++ b)%string
                          (stack_in st) (depth st + 1) (have_function st)))
      else Done (Continue st).

(** "Add the entry": look the stack up in [lock_data]; append and sort when
    it is new, add [value] to the field of the section when it is there. *)
Definition add_entry (stack_in func_called : string) (index : nat) (value : Z)
  (lock_data : list lock_info) : list lock_info :=
  let fresh := dset (mk_lock_info stack_in func_called (data zero_info)) index value in
  if (List.length lock_data =? 0)%nat then qsort sort_stack [fresh]
  else
    (* We may have the stack already, go look for it. *)
    match bsearch locate_stack stack_in lock_data (List.length lock_data) with
    | None => qsort sort_stack (lock_data ++ [fresh])
    | Some i =>
        (* Update the value. *)
        let data_ptr := nth i lock_data zero_info in
        upd i (dset data_ptr index (add64 (dget data_ptr index) value)) lock_data
    end.

Section Reader.

(** The loop is written over any store and any way to add an entry to it,
    so that the same loop can also list the stacks it meets. *)
Context {Store : Type}.
Variable record : string -> string -> nat -> Z -> Store -> Store.

Fixpoint read_data_loop (fuel : nat) (index : nat) (sdepth : Z)
  (st : rd_state) (store : Store) : result (rd_state * Store) :=
  match fuel with
  | O => OutOfFuel
  | S fuel' =>
      s <- read_data_body sdepth st ;;
      match s with
      | Break st' => Done (st', store)
      | Continue st' => read_data_loop fuel' index sdepth st' store
      | Record_entry st' value =>
          read_data_loop fuel' index sdepth st'
            (record (stack_in st') (func_called st') index value store)
      end
  end.

(** [read_data(fd, index, sdepth)] on the stream [file]: the stream after
    the section and the store.  The automatic arrays start out empty here.  In
    C they are not initialised, and the result of [fgets] is not looked at:
    when a section meets the end of the file before it has read a line, the
    program tests what the memory held, which this definition does not give.
    The statements on [read_data_body] and [read_data_loop] are for any
    state. *)
Definition read_data (fuel : nat) (file : string) (index : nat) (sdepth : Z)
  (store : Store) : result (string * Store) :=
  r <- read_data_loop fuel index sdepth
         (mk_rd_state file "" "" "" 0 false) store ;;
  Done (fd (fst r), snd r).

(** Two header lines are read and dropped. *)
Definition skip_headers (file : string) : string :=
  snd (fgets "" 1024 (snd (fgets "" 1024 file))).

(** [lookup_data] on the opened data file. *)
Definition lookup (fuel : nat) (file : string) (sdepth : Z) (store : Store)
  : result Store :=
  (* First we have aq data, skip the headers *)
  let file := skip_headers file in
  r <- read_data fuel (skip_headers file) ACQ_DATA_HOLD_AVG sdepth store ;;
  r <- read_data fuel (skip_headers (fst r)) ACQ_DATA_HOLD_MAX sdepth (snd r) ;;
  r <- read_data fuel (skip_headers (fst r)) ACQ_DATA_HOLD_COUNT sdepth (snd r) ;;
  r <- read_data fuel (skip_headers (fst r)) HD_DATA_HOLD_AVG sdepth (snd r) ;;
  r <- read_data fuel (skip_headers (fst r)) HD_DATA_HOLD_MAX sdepth (snd r) ;;
  r <- read_data fuel (skip_headers (fst r)) HD_DATA_HOLD_COUNT sdepth (snd r) ;;
  Done (snd r).

End Reader.

(** [lookup_data]: the program's store is the array [lock_data], empty at
    the start. *)
Definition lookup_data (fuel : nat) (file : string) (sdepth : Z)
  : result (list lock_info) :=
  lookup add_entry fuel file sdepth [].

(** The stacks completed while reading, in the order they are met: the same
    loop, with a store that only lists them. *)
Definition note_stack (stack_in func_called : string) (index : nat) (value : Z)
  (seen : list string) : list string :=
  seen ++ [stack_in].

Definition stacks_read (fuel : nat) (file : string) (sdepth : Z)
  : result (list string) :=
  lookup note_stack fuel file sdepth [].

(** ** [main]: the options and the pipeline *)

(** The variables of [main] that the options set. *)
Record options : Type := mk_options {
  stack_depth : Z;
  caller : option string;
  sort_on : Z;
  number_to_show : Z
}.

(** Their initial values. *)
Definition initial_options : options :=
  mk_options 1 None ACQS_SPENT 999999.

Definition invalid_sort_option : string :=
  ("Invalid sort option, defaulting to option 6" ++ line_end)%string.

(** The lines [usage] writes to stderr before it leaves with
    [EXIT_SUCCESS]. *)
Definition usage_lines (execname : string) : list string :=
  [ ("usage " ++ execname ++ ":")%string;
    "	-C <func name> Just those stacks that the lock was called from this function";
    "	-c <command> command to execute, if null, will reduce the data designated by -f";
    "	-f <file name> name of data file to read from";
    "	-h: help message";
    "	-i <secs>: pull lock information every x seconds";
    "	-n <#>: Number of locks to show.";
    "	-o <file name>: output file";
    "	-s <value> depth of stack to show";
    "	-S <sort on>: recognized values";
    "		0: # holds";
    "		1: Hold Max";
    "		2: Hold Avg";
    "		3: Hold total";
    "		4: # ACQs";
    "		5: # ACQs Max";
    "		6: # ACQs average";
    "		7: # ACQs total time (AVG * count), default" ]%string.

Definition usage {A : Type} (execname : string) : result A :=
  Exited EXIT_SUCCESS
    (String.concat "" (map (fun l => (l ++ line_end)%string) (usage_lines execname))).

Definition interval_not_supported : string :=
  ("Currently interval is not supported, hangs" ++ line_end)%string.

(** One round of the option loop: the letter [getopt] returned and
    [optarg].  The new values of the variables the report depends on and what
    the program writes to stderr, or the exit through [usage].  What [getopt]
    itself writes to stderr, for an option it does not know or an argument
    that is missing, is not part of that text.  The data file, the command
    and the output file ([-f], [-c], [-o]) are outside the model. *)
Definition handle_option (execname : string) (value : ascii) (optarg : string)
  (o : options) : result (options * string) :=
  if Ascii.eqb value "C" then
    Done (mk_options (stack_depth o) (Some optarg) (sort_on o) (number_to_show o), "")
  else if Ascii.eqb value "c" then Done (o, "")
  else if Ascii.eqb value "f" then Done (o, "")
  else if Ascii.eqb value "i" then Done (o, interval_not_supported)
  else if Ascii.eqb value "n" then
    Done (mk_options (stack_depth o) (caller o) (sort_on o) (atoi optarg), "")
  else if Ascii.eqb value "o" then Done (o, "")
  else if Ascii.eqb value "S" then
    let sort_on := atoi optarg in
    if ACQS_SPENT <? sort_on
    then Done (mk_options (stack_depth o) (caller o) ACQS_SPENT (number_to_show o),
               invalid_sort_option)
    else Done (mk_options (stack_depth o) (caller o) sort_on (number_to_show o), "")
  else if Ascii.eqb value "s" then
    Done (mk_options (atoi optarg) (caller o) (sort_on o) (number_to_show o), "")
  else usage execname.   (* 'h' and default *)

(** The option loop, over what [getopt] returns round after round; [err] is
    what stderr holds so far. *)
Fixpoint handle_options (execname : string) (args : list (ascii * string))
  (o : options) (err : string) : result (options * string) :=
  match args with
  | [] => Done (o, err)
  | (value, optarg) :: rest =>
      match handle_option execname value optarg o with
      | Done (o1, e1) => handle_options execname rest o1 (err ++ e1)
      | Exited status diag => Exited status (err ++ diag)
      | Fault => Fault
      | OutOfFuel => OutOfFuel
      end
  end.

(** How a run ended, the report lines written, and the text on stderr. *)
Inductive ending : Type :=
| Returned (status : Z)
| Trapped
| Unfinished.

Record outcome : Type := mk_outcome {
  how : ending;
  report : list string;
  diagnostics : string
}.

(** [main] for a run that reduces an existing data file: the name of the
    program, the options given, and the content of the file.  The report is
    written by [dump_data] only, after [lookup_data] and [organize_data] have
    returned. *)
Definition main (fuel : nat) (execname : string) (args : list (ascii * string))
  (file : string) : outcome :=
  match handle_options execname args initial_options "" with
  | Exited status diag => mk_outcome (Returned status) [] diag
  | Fault => mk_outcome Trapped [] ""
  | OutOfFuel => mk_outcome Unfinished [] ""
  | Done (o, err) =>
      match lookup_data fuel file (stack_depth o) with
      | Exited status diag => mk_outcome (Returned status) [] (err ++ diag)
      | Fault => mk_outcome Trapped [] err
      | OutOfFuel => mk_outcome Unfinished [] err
      | Done lock_data =>
          (* Everything read in, now organize it *)
          match organize_data lock_data with
          | None => mk_outcome Trapped [] err
          | Some cs =>
              (* Dump the data out. *)
              match dump_data (caller o) (sort_on o) (number_to_show o) cs with
              | Done lines => mk_outcome (Returned 0) lines err
              | Exited status diag =>
                  mk_outcome (Returned status) [] (err ++ diag)
              | Fault => mk_outcome Trapped [] err
              | OutOfFuel => mk_outcome Unfinished [] err
              end
          end
      end
  end.

(** ** Views of the code used in the statements *)

(** One family of the fold step: the count is added, and the average is
    replaced only under the guard. *)
Definition merge_average (avg_field count_field : nat) (e wptr : lock_info)
  : option lock_info :=
  let new_average :=
    add64 (mul64 (dget e avg_field) (dget e count_field))
          (mul64 (dget wptr avg_field) (dget wptr count_field)) in
  let e := dset e count_field (add64 (dget e count_field) (dget wptr count_field)) in
  if dget e count_field =? 0 then Some e
  else option_map (dset e avg_field) (div64 new_average (dget e count_field)).

(** One maximum of the fold step. *)
Definition raise_max (max_field : nat) (e wptr : lock_info) : lock_info :=
  if dget e max_field <? dget wptr max_field
  then dset e max_field (dget wptr max_field)
  else e.


(** The entry a new key starts from: cleared, with the key of the stack. *)
Definition new_entry (wptr : lock_info) : lock_info :=
  mk_lock_info (stack zero_info) (called_from wptr) (data zero_info).


(** The entries the caller filter lets through. *)
Definition keeps (caller : option string) (e : lock_info) : bool :=
  negb (caller_skips caller e).

(** A key as the parser builds it: every frame is closed by [':']. *)
Fixpoint ends_with_colon (s : string) : bool :=
  match s with
  | EmptyString => true
  | String c EmptyString => Ascii.eqb c ":"
  | String _ s' => ends_with_colon s'
  end.

(** ** Example data *)

(** The name the examples run the program under. *)
Definition prog : string := "produce_lock_info".

(** A file from its lines. *)
Definition text (lines : list string) : string :=
  String.concat "" (map (fun l => (l ++ line_end)%string) lines).

(** Two stacks that reach the lock from [foo+10]. *)
Definition stack_A : lock_info :=
  mk_lock_info "mutex_lock+1 foo+10:a+2 " "foo+10:" [100; 0; 10; 0; 0; 0; 0; 0].
Definition stack_B : lock_info :=
  mk_lock_info "mutex_lock+1 foo+10:b+2 " "foo+10:" [300; 0; 30; 0; 0; 0; 0; 0].

(** A stack that reaches it from [bar+4]. *)
Definition stack_C : lock_info :=
  mk_lock_info "mutex_lock+1 bar+4:c+2 " "bar+4:" [50; 0; 2; 0; 0; 0; 0; 0].

(** ** Invariants of the stack store *)

(** The order [bsearch] relies on: non-decreasing on the key [kf]. *)
Definition sorted_on (kf : lock_info -> string) (l : list lock_info) : Prop :=
  StronglySorted (fun a b => strcmp (kf a) (kf b) <= 0) l.

(** [lock_data] while the file is read: sorted on [stack], one entry per
    stack, eight data fields each. *)
Definition store_inv (lock_data : list lock_info) : Prop :=
  sorted_on stack lock_data /\ NoDup (map stack lock_data).

Definition data_ok (lock_data : list lock_info) : Prop :=
  Forall (fun r => List.length (data r) = 8%nat) lock_data.

(** The entry of a stack, and the content of one of its fields (zero when
    the stack has no entry). *)
Definition find_stack (stk : string) (lock_data : list lock_info)
  : option lock_info :=
  find (fun r => String.eqb (stack r) stk) lock_data.

Definition metric (lock_data : list lock_info) (stk : string) (index : nat) : Z :=
  match find_stack stk lock_data with
  | Some r => dget r index
  | None => 0
  end.

(** The entry [add_entry] appends for a stack that is new. *)
Definition fresh_entry (stack_in func_called : string) (index : nat) (value : Z)
  : lock_info :=
  dset (mk_lock_info stack_in func_called (data zero_info)) index value.

(** Two runs of the reader end the same way, with related values. *)
Definition result_rel {A B : Type} (R : A -> B -> Prop)
  (r1 : result A) (r2 : result B) : Prop :=
  match r1, r2 with
  | Done a, Done b => R a b
  | Exited s1 d1, Exited s2 d2 => s1 = s2 /\ d1 = d2
  | Fault, Fault => True
  | OutOfFuel, OutOfFuel => True
  | _, _ => False
  end.

(** A line that is neither the end of the section, nor an empty entry, nor
    the start of a stack: the loop of [read_data] treats it as data. *)
Definition is_data_line (b : string) : bool :=
  negb (Ascii.eqb (first_char b) "=")
  && negb (strstr b "[]")
  && negb (Ascii.eqb (first_char b) "@").

(** A text [atoll] finds no number in: after white space and an optional
    sign there is no digit. *)
Definition no_number (s : string) : bool :=
  match skip_space s with
  | String "-" s' => negb (isdigit (first_char s'))
  | String "+" s' => negb (isdigit (first_char s'))
  | s' => negb (isdigit (first_char s'))
  end.

(** A consolidated store with two callers; [zoo+10] has the larger average
    acquisition time, [foo+10] the larger total. *)
Definition two_callers : cons_store :=
  mk_cons_store
    [ mk_lock_info "" "    foo+10:" [250; 3000; 40; 0; 0; 0; 0; 0];
      mk_lock_info "" "    zoo+10:" [7000; 7000; 1; 0; 0; 0; 0; 0] ]
    2.

(** The lines of one entry of a section: the map name, the frames, and the
    value after ["]: "]. *)
Definition entry_text (name : string) (frames : list string) (value : string)
  : list string :=
  (("@" ++ name ++ "[")%string :: map (fun f => ("    " ++ f)%string) frames)
  ++ [("]: " ++ value)%string].

(** A section: its title, the rule under it, its entries, and the rule that
    ends it (the first header line of what follows). *)
Definition section_text (title : string) (entries : list (list string))
  : list string :=
  [title; "===="] ++ List.concat entries ++ ["===="].

(** A data file with four stacks and three callers.  [aaa+1] sorts first;
    [foo+10] has two stacks (10 acquisitions of average 100, 30 of average
    300); [zoo+10] has one acquisition of 7000. *)
Definition sample_file : string :=
  text (["Attaching 5 probes..."; "===="]
        ++ section_text "mutex aq _averages"
             [ entry_text "aq_report_avg" ["mutex_lock+1"; "aaa+1"; "x+2"] "5";
               entry_text "aq_report_avg" ["mutex_lock+1"; "foo+10"; "a+2"] "100";
               entry_text "aq_report_avg" ["mutex_lock+1"; "foo+10"; "b+2"] "300";
               entry_text "aq_report_avg" ["mutex_lock+1"; "zoo+10"; "b+2"] "7000" ]
        ++ section_text "mutex aq max"
             [ entry_text "aq_report_max" ["mutex_lock+1"; "foo+10"; "a+2"] "1000";
               entry_text "aq_report_max" ["mutex_lock+1"; "foo+10"; "b+2"] "3000";
               entry_text "aq_report_max" ["mutex_lock+1"; "zoo+10"; "b+2"] "7000" ]
        ++ section_text "mutex aq count"
             [ entry_text "aq_report_count" ["mutex_lock+1"; "aaa+1"; "x+2"] "1";
               entry_text "aq_report_count" ["mutex_lock+1"; "foo+10"; "a+2"] "10";
               entry_text "aq_report_count" ["mutex_lock+1"; "foo+10"; "b+2"] "30";
               entry_text "aq_report_count" ["mutex_lock+1"; "zoo+10"; "b+2"] "1" ]
        ++ section_text "mutex hold avg" []
        ++ section_text "mutex hold max" []
        ++ section_text "mutex hold count" []
        ++ ["END OF DATA"]).

(** The same file with a single stack, entered twice in the count section
    and with a value that is not a number in the maximum section. *)
Definition repeated_file : string :=
  text (["Attaching 5 probes..."; "===="]
        ++ section_text "mutex aq _averages" []
        ++ section_text "mutex aq max"
             [ entry_text "aq_report_max" ["mutex_lock+1"; "foo+10"; "a+2"] "abc" ]
        ++ section_text "mutex aq count"
             [ entry_text "aq_report_count" ["mutex_lock+1"; "foo+10"; "a+2"] "10";
               entry_text "aq_report_count" ["mutex_lock+1"; "foo+10"; "a+2"] "30" ]
        ++ section_text "mutex hold avg" []
        ++ section_text "mutex hold max" []
        ++ section_text "mutex hold count" []
        ++ ["END OF DATA"]).

(** A file that stops in the middle of a stack, without a newline. *)
Definition truncated_file : string :=
  (text (["Attaching 5 probes..."; "===="]
         ++ ["mutex aq _averages"; "===="]
         ++ ["@aq_report_avg["; "    mutex_lock+1"])
   ++ "    foo+10")%string.

(** A file whose terminator line has no [':']. *)
Definition no_colon_file : string :=
  text (["Attaching 5 probes..."; "===="]
        ++ ["mutex aq _averages"; "===="]
        ++ ["@aq_report_avg["; "    mutex_lock+1"; "    foo+10"; "] 100"; "===="]).

(** The two entries of [two_callers] and of the report on [sample_file],
    with their totals. *)
Definition foo_ranked : lock_info :=
  mk_lock_info "" "    foo+10:" [250; 3000; 40; 10000; 0; 0; 0; 0].
Definition zoo_ranked : lock_info :=
  mk_lock_info "" "    zoo+10:" [7000; 7000; 1; 7000; 0; 0; 0; 0].

(** What [lookup_data] makes of [sample_file]. *)
Definition sample_store : list lock_info :=
  [ mk_lock_info "    mutex_lock+1     aaa+1:    x+2 " "    aaa+1:"
      [5; 0; 1; 0; 0; 0; 0; 0];
    mk_lock_info "    mutex_lock+1     foo+10:    a+2 " "    foo+10:"
      [100; 1000; 10; 0; 0; 0; 0; 0];
    mk_lock_info "    mutex_lock+1     foo+10:    b+2 " "    foo+10:"
      [300; 3000; 30; 0; 0; 0; 0; 0];
    mk_lock_info "    mutex_lock+1     zoo+10:    b+2 " "    zoo+10:"
      [7000; 7000; 1; 0; 0; 0; 0; 0] ].

(** A data file with the two stacks of [foo+10] and nothing else. *)
Definition two_stack_file : string :=
  text (["Attaching 5 probes..."; "===="]
        ++ section_text "mutex aq _averages"
             [ entry_text "aq_report_avg" ["mutex_lock+1"; "foo+10"; "a+2"] "100";
               entry_text "aq_report_avg" ["mutex_lock+1"; "foo+10"; "b+2"] "300" ]
        ++ section_text "mutex aq max" []
        ++ section_text "mutex aq count"
             [ entry_text "aq_report_count" ["mutex_lock+1"; "foo+10"; "a+2"] "10";
               entry_text "aq_report_count" ["mutex_lock+1"; "foo+10"; "b+2"] "30" ]
        ++ section_text "mutex hold avg" []
        ++ section_text "mutex hold max" []
        ++ section_text "mutex hold count" []
        ++ ["END OF DATA"]).

(** Entries added one after the other for the section [index]: the stack,
    the key and the value of each. *)
Definition add_entries (index : nat) (entries : list (string * string * Z))
  (lock_data : list lock_info) : list lock_info :=
  fold_left (fun ld e => add_entry (fst (fst e)) (snd (fst e)) index (snd e) ld)
            entries lock_data.

(** A file that stops on the line that starts a stack, without a newline. *)
Definition start_line_file : string :=
  (text ["Attaching 5 probes..."; "===="; "mutex aq _averages"; "===="]
   ++ "@aq_report_avg[")%string.

(** While a stack is open, the key built so far is closed by [':']. *)
Definition key_inv (st : rd_state) : Prop :=
  have_function st = true -> ends_with_colon (func_called st) = true.

Definition keys_ok (l : list lock_info) : Prop :=
  Forall (fun e => ends_with_colon (called_from e) = true) l.

(** A data file with one stack. *)
Definition one_stack_file : string :=
  text (["Attaching 5 probes..."; "===="]
        ++ section_text "mutex aq _averages"
             [ entry_text "aq_report_avg" ["mutex_lock+1"; "foo+10"; "a+2"] "100" ]
        ++ section_text "mutex aq max" []
        ++ section_text "mutex aq count"
             [ entry_text "aq_report_count" ["mutex_lock+1"; "foo+10"; "a+2"] "10" ]
        ++ section_text "mutex hold avg" []
        ++ section_text "mutex hold max" []
        ++ section_text "mutex hold count" []
        ++ ["END OF DATA"]).

(** ** Consolidation as the design describes it

    These definitions follow the description of the consolidation (for each
    stack, resolve or create the entry of its key, then fold its figures in),
    with the fold step of the code; they are what [organize_data] is
    compared with. *)

(** Offset of the first element that satisfies [f]. *)
Fixpoint find_index {A : Type} (f : A -> bool) (l : list A) : option nat :=
  match l with
  | [] => None
  | x :: l' => if f x then Some O else option_map S (find_index f l')
  end.

(** One stack is folded into the entry of its key; the entry is created,
    cleared, at the end of the store when the key is new. *)
Definition spec_fold_into (acc : list lock_info) (w : lock_info)
  : option (list lock_info) :=
  match find_index (fun e => String.eqb (called_from e) (called_from w)) acc with
  | Some i =>
      option_map (fun e => upd i e acc) (add_things_up (nth i acc zero_info) w)
  | None =>
      option_map (fun e => acc ++ [e]) (add_things_up (new_entry w) w)
  end.

Fixpoint spec_consolidate_from (acc : list lock_info) (stacks : list lock_info)
  : option (list lock_info) :=
  match stacks with
  | [] => Some acc
  | w :: rest =>
      match spec_fold_into acc w with
      | None => None
      | Some acc' => spec_consolidate_from acc' rest
      end
  end.

(** Every stack of the list folded into a store that starts out empty. *)
Definition spec_consolidate (stacks : list lock_info) : option (list lock_info) :=
  spec_consolidate_from [] stacks.

(** A store as the loop keeps it from its second iteration on. *)
Definition full_store (acc : list lock_info) : cons_store :=
  mk_cons_store acc (List.length acc).

(** ** What the reader hands to the store *)

(** A value in the range of [long]. *)
Definition in_long (z : Z) : Prop := LONG_MIN <= z <= LONG_MAX.

(** The six fields the sections of the file fill, in the order
    [lookup_data] reads them. *)
Definition section_indices : list nat :=
  [ACQ_DATA_HOLD_AVG; ACQ_DATA_HOLD_MAX; ACQ_DATA_HOLD_COUNT;
   HD_DATA_HOLD_AVG; HD_DATA_HOLD_MAX; HD_DATA_HOLD_COUNT].

(** The entries completed while reading, in the order they are met: the
    stack, the section and the value of each (the loop of [read_data] with a
    store that only lists them). *)
Definition note_entry (stack_in func_called : string) (index : nat) (value : Z)
  (seen : list (string * nat * Z)) : list (string * nat * Z) :=
  seen ++ [(stack_in, index, value)].

Definition entries_read (fuel : nat) (file : string) (sdepth : Z)
  : result (list (string * nat * Z)) :=
  lookup note_entry fuel file sdepth [].

(** The sum of the values listed for a stack in a section. *)
Fixpoint section_sum (stk : string) (index : nat)
  (entries : list (string * nat * Z)) : Z :=
  match entries with
  | [] => 0
  | (s, i, v) :: rest =>
      (if String.eqb s stk && Nat.eqb i index then v else 0)
      + section_sum stk index rest
  end.

(** How the key of a stack sits in its signature: the signature is a first
    line closed by a space, then the function line closed by [':'], then the
    other lines; the key starts with that function line and is closed by
    [':']. *)
Definition key_shape (stk cf : string) : Prop :=
  exists top func rest more,
    stk = ((top ++ " ") ++ (func ++ ":") ++ rest)%string /\
    cf = ((func ++ ":") ++ more)%string /\
    ends_with_colon cf = true.

Definition shape_inv (st : rd_state) : Prop :=
  have_function st = true -> key_shape (stack_in st) (func_called st).

(** What ties the store to the list of the entries read so far. *)
Definition sums_rel (lock_data : list lock_info)
  (entries : list (string * nat * Z)) : Prop :=
  store_inv lock_data /\ data_ok lock_data /\
  (forall k, In k (map stack lock_data)
             <-> In k (map (fun e => fst (fst e)) entries)) /\
  Forall (fun e => In (snd (fst e)) section_indices) entries /\
  forall k idx, (idx < 8)%nat ->
    metric lock_data k idx = wrap64 (section_sum k idx entries).

(** The state a step of the loop goes on with. *)
Definition step_state (s : step) : rd_state :=
  match s with
  | Break st => st
  | Continue st => st
  | Record_entry st _ => st
  end.

(** At the end of the file, the line in the buffer is one the loop takes for
    an empty entry or for the start of a stack. *)
Definition rereads (st : rd_state) : Prop :=
  fd st = EmptyString /\
  Ascii.eqb (first_char (buffer st)) "=" = false /\
  (strstr (buffer st) "[]" = true \/
   Ascii.eqb (first_char (buffer st)) "@" = true).

(** The loop of [read_data] from [st] never ends, or ends within [m]
    iterations, whatever the store. *)
Definition settles {Store : Type}
  (record : string -> string -> nat -> Z -> Store -> Store)
  (index : nat) (sdepth : Z) (m : nat) (st : rd_state) : Prop :=
  (forall fuel store,
      read_data_loop record fuel index sdepth st store = OutOfFuel) \/
  (forall store,
      read_data_loop record m index sdepth st store <> OutOfFuel).

(** ** What the consolidation adds up *)

(** Over the stacks of a key: the sum of a field, and the largest value of a
    field that is above zero. *)
Definition key_total (field : nat) (k : string) (stacks : list lock_info) : Z :=
  fold_right
    (fun w acc => if String.eqb (called_from w) k then dget w field + acc else acc)
    0 stacks.

Definition key_max (field : nat) (k : string) (stacks : list lock_info) : Z :=
  fold_right
    (fun w acc =>
       if String.eqb (called_from w) k then Z.max (dget w field) acc else acc)
    0 stacks.

(** An entry of [cons_data] holds the counts and the maxima of the stacks
    [folded] that have its key. *)
Definition folded_ok (folded : list lock_info) (e : lock_info) : Prop :=
  List.length (data e) = 8%nat /\
  dget e ACQ_DATA_HOLD_COUNT
  = wrap64 (key_total ACQ_DATA_HOLD_COUNT (called_from e) folded) /\
  dget e HD_DATA_HOLD_COUNT
  = wrap64 (key_total HD_DATA_HOLD_COUNT (called_from e) folded) /\
  dget e ACQ_DATA_HOLD_MAX = key_max ACQ_DATA_HOLD_MAX (called_from e) folded /\
  dget e HD_DATA_HOLD_MAX = key_max HD_DATA_HOLD_MAX (called_from e) folded.

Definition fold_inv (folded acc : list lock_info) : Prop :=
  NoDup (map called_from acc) /\
  (forall k, In k (map called_from acc) <-> In k (map called_from folded)) /\
  Forall (folded_ok folded) acc.

(** ** Keys, frames and white space *)

(** A key made of frames, each closed by [':'], as [read_data] appends
    them to [func_called]. *)
Definition join_frames (frames : list string) : string :=
  fold_right (fun f acc => (f ++ ":" ++ acc)%string) ""%string frames.

(** A string of white space only, and one with no white space in it. *)
Fixpoint all_space (s : string) : bool :=
  match s with
  | EmptyString => true
  | String c s' => isspace c && all_space s'
  end.

Fixpoint no_space (s : string) : bool :=
  match s with
  | EmptyString => true
  | String c s' => negb (isspace c) && no_space s'
  end.

(** The letters the [switch] of [main] has a case of its own for. *)
Definition handled_letters : list ascii :=
  ["C"; "c"; "f"; "i"; "n"; "o"; "S"; "s"]%char.

(** What [usage] writes to stderr. *)
Definition usage_text (execname : string) : string :=
  String.concat "" (map (fun l => (l ++ line_end)%string) (usage_lines execname)).

(** ** A well-formed entry of the file *)








(** ** [execute_command]: the process the interrupt is sent to *)

(** [while (!isspace(ptr[0])) ptr++;]: the loop stops on white space only;
    when none is left in the string it goes past the terminator ([None]). *)
Fixpoint skip_word (ptr : string) : option string :=
  match ptr with
  | EmptyString => None
  | String c ptr' => if isspace c then Some ptr else skip_word ptr'
  end.

(** "Skip the fields, as there may be multiple spaces": the loop
    [while (field != 3)], [n] rounds of it. *)
Fixpoint skip_fields (n : nat) (ptr : string) : option string :=
  match n with
  | O => Some ptr
  | S n' =>
      match skip_word (skip_space ptr) with
      | Some ptr' => skip_fields n' ptr'
      | None => None
      end
  end.

(** The first argument of [kill]: [atoi(ptr)] after three fields of the
    line of [ps] in the buffer. *)
Definition bpftrace_pid (buffer : string) : option Z :=
  option_map atoi (skip_fields 3 buffer).

(** A field of a line with the white space that ends it. *)
Definition field_ok (fs : string * string) : bool :=
  no_space (fst fs) && negb (String.eqb (fst fs) "")
  && all_space (snd fs) && negb (String.eqb (snd fs) "").

(** The two totals of an entry are the products of its averages and
    counts, reduced to the range of [long]. *)
Definition totals_set (e : lock_info) : Prop :=
  dget e ACQ_DATA_TOTAL_TIME
  = mul64 (dget e ACQ_DATA_HOLD_AVG) (dget e ACQ_DATA_HOLD_COUNT) /\
  dget e HD_DATA_TOTAL_TIME
  = mul64 (dget e HD_DATA_HOLD_AVG) (dget e HD_DATA_HOLD_COUNT).

(** ** The block of lines of an entry *)

(** The frames of a key, each taken up to its [':']. *)
Fixpoint key_frames (fuel : nat) (s : string) : list string :=
  match fuel with
  | O => []
  | S fuel' =>
      match strchr s ":" with
      | Some i => take i s :: key_frames fuel' (drop (S i) s)
      | None => []
      end
  end.

Definition frames_of (cf : string) : list string :=
  key_frames (String.length cf) cf.

(** What the report holds for an entry: its line, and a line for each frame
    of its key after the first. *)
Definition entry_block (e : lock_info) : list string :=
  entry_line (first_frame (called_from e)) e
  :: map (fun f => (pad_left 48 f ++ line_end)%string)
         (tl (frames_of (called_from e))).

(** ** Lines the reader does not take for what they are *)

(** A file whose second stack has, where the line of the calling function is
    expected, a line that starts with [']'] and has no [':']. *)
Definition swallowed_file : string :=
  text (["Attaching 5 probes..."; "===="]
        ++ section_text "mutex aq _averages"
             [ entry_text "aq_report_avg" ["mutex_lock+1"; "foo+10"] "5";
               ["@aq_report_avg["; "    mutex_lock+1"; "] 100"; "]: 7"]%string ]
        ++ section_text "mutex aq max" []
        ++ section_text "mutex aq count" []
        ++ section_text "mutex hold avg" []
        ++ section_text "mutex hold max" []
        ++ section_text "mutex hold count" []
        ++ ["END OF DATA"]).

(** Over the strings [read_data] appends to: how long the string can still
    get, with what is left of the file and with the line in the buffer when
    that line still has its newline. *)
Definition newline_weight (b : string) : nat :=
  match strchr b nl with
  | Some _ => String.length b
  | None => O
  end.

Definition room (x : rd_state -> string) (st : rd_state) : nat :=
  String.length (x st) + String.length (fd st) + newline_weight (buffer st).

(** The states the loop of [read_data] goes through from a state. *)
Inductive passes (sdepth : Z) : rd_state -> rd_state -> Prop :=
| passes_here (st : rd_state) : passes sdepth st st
| passes_on (st : rd_state) (s : step) (st' : rd_state) :
    read_data_body sdepth st = Done s ->
    passes sdepth (step_state s) st' ->
    passes sdepth st st'.

(** * Properties *)

(** ** Machine integers and the data array *)

Lemma nth_upd_same {A : Type} (i : nat) (v d : A) (l : list A) :
  (i < List.length l)%nat -> nth i (upd i v l) d = v.
Proof.
  revert i. induction l as [|h t IH]; intros [|i] H; simpl in *; try lia; auto.
  apply IH. lia.
Qed.

Lemma nth_upd_other {A : Type} (i j : nat) (v d : A) (l : list A) :
  i <> j -> nth j (upd i v l) d = nth j l d.
Proof.
  revert i j. induction l as [|h t IH]; intros [|i] [|j] H; simpl; auto;
    try contradiction.
Qed.

Lemma length_upd {A : Type} (i : nat) (v : A) (l : list A) :
  List.length (upd i v l) = List.length l.
Proof.
  revert i. induction l as [|h t IH]; intros [|i]; simpl; auto.
Qed.

Lemma dget_dset_same (e : lock_info) (i : nat) (v : Z) :
  (i < List.length (data e))%nat -> dget (dset e i v) i = v.
Proof. intros H. unfold dget, dset. simpl. now apply nth_upd_same. Qed.

Lemma dget_dset_other (e : lock_info) (i j : nat) (v : Z) :
  i <> j -> dget (dset e i v) j = dget e j.
Proof. intros H. unfold dget, dset. simpl. now apply nth_upd_other. Qed.

(** Reading back a field that was just written: the value written, or the
    old content when the array is too short for the write to land. *)
Lemma dget_dset_cases (e : lock_info) (i : nat) (v : Z) :
  dget (dset e i v) i = v \/ dget (dset e i v) i = dget e i /\ dget e i = 0.
Proof.
  destruct (Nat.lt_ge_cases i (List.length (data e))) as [H|H].
  - left. now apply dget_dset_same.
  - right. unfold dget, dset. simpl.
    rewrite !nth_overflow; try rewrite length_upd; auto.
Qed.

(** Two field indices of the data array differ. *)
Ltac field_neq :=
  unfold ACQ_DATA_HOLD_AVG, ACQ_DATA_HOLD_MAX, ACQ_DATA_HOLD_COUNT,
    ACQ_DATA_TOTAL_TIME, HD_DATA_HOLD_AVG, HD_DATA_HOLD_MAX, HD_DATA_HOLD_COUNT,
    HD_DATA_TOTAL_TIME;
  discriminate.

(** ** The fold step of the consolidation *)

Lemma div64_some (a b x : Z) : div64 a b = Some x -> x = wrap64 (Z.quot a b).
Proof.
  unfold div64. destruct (b =? 0); [discriminate|].
  destruct ((a =? LONG_MIN) && (b =? -1)); [discriminate|]. congruence.
Qed.

(** The division traps on a zero divisor and on [LONG_MIN / -1] only. *)
Lemma div64_none (a b : Z) :
  div64 a b = None <-> b = 0 \/ (a = LONG_MIN /\ b = -1).
Proof.
  unfold div64. destruct (Z.eqb_spec b 0) as [Hb|Hb]; [tauto|].
  destruct (Z.eqb_spec a LONG_MIN) as [Ha|Ha];
    destruct (Z.eqb_spec b (-1)) as [Hm|Hm]; simpl; split;
    try discriminate; try tauto; intros [H|[H1 H2]]; congruence.
Qed.

(** A family of the fold step traps only on a quotient that does not fit:
    the divisor is then the merged count, and it is -1. *)
Lemma merge_average_none (a c : nat) (e w : lock_info) :
  merge_average a c e w = None ->
  add64 (dget e c) (dget w c) = -1 /\
  add64 (mul64 (dget e a) (dget e c)) (mul64 (dget w a) (dget w c)) = LONG_MIN.
Proof.
  unfold merge_average.
  destruct (Z.eqb_spec (dget (dset e c (add64 (dget e c) (dget w c))) c) 0) as [H|H];
    [discriminate|].
  destruct (div64 _ _) eqn:D; [discriminate|]. intros _.
  apply div64_none in D. destruct D as [D|[D1 D2]]; [contradiction|].
  split; [|exact D1].
  destruct (dget_dset_cases e c (add64 (dget e c) (dget w c))) as [E | [E1 E2]];
    congruence.
Qed.

(** With a merged count of zero the family completes without a division. *)
Lemma merge_average_zero (a c : nat) (e w : lock_info) :
  add64 (dget e c) (dget w c) = 0 ->
  merge_average a c e w = Some (dset e c (add64 (dget e c) (dget w c))).
Proof.
  intros Hz. unfold merge_average.
  destruct (Z.eqb_spec (dget (dset e c (add64 (dget e c) (dget w c))) c) 0) as [H|H];
    [reflexivity|].
  exfalso. apply H.
  destruct (dget_dset_cases e c (add64 (dget e c) (dget w c))) as [E | [E1 E2]];
    congruence.
Qed.

Lemma merge_average_guard (a c : nat) (e w e' : lock_info) :
  a <> c ->
  merge_average a c e w = Some e' ->
  add64 (dget e c) (dget w c) = 0 ->
  dget e' a = dget e a.
Proof.
  unfold merge_average. intros Hac Hm Hz.
  destruct (Z.eqb_spec (dget (dset e c (add64 (dget e c) (dget w c))) c) 0) as [H|H].
  - inversion Hm; subst. apply dget_dset_other. congruence.
  - exfalso. apply H.
    destruct (dget_dset_cases e c (add64 (dget e c) (dget w c))) as [E | [E1 E2]];
      congruence.
Qed.

Lemma merge_average_other (a c j : nat) (e w e' : lock_info) :
  merge_average a c e w = Some e' -> j <> a -> j <> c -> dget e' j = dget e j.
Proof.
  unfold merge_average. intros Hm Ha Hc.
  destruct (dget (dset e c (add64 (dget e c) (dget w c))) c =? 0).
  - inversion Hm; subst. apply dget_dset_other. congruence.
  - destruct (div64 _ _); simpl in Hm; inversion Hm; subst.
    rewrite !dget_dset_other; congruence.
Qed.

Lemma raise_max_other (m j : nat) (e w : lock_info) :
  j <> m -> dget (raise_max m e w) j = dget e j.
Proof.
  intros H. unfold raise_max. destruct (_ <? _); auto.
  apply dget_dset_other. congruence.
Qed.

(** [add_things_up] is the two averages, then the two maxima. *)
Lemma add_things_up_eq (entry_add wptr : lock_info) :
  add_things_up entry_add wptr =
  match merge_average ACQ_DATA_HOLD_AVG ACQ_DATA_HOLD_COUNT entry_add wptr with
  | None => None
  | Some e1 =>
      match merge_average HD_DATA_HOLD_AVG HD_DATA_HOLD_COUNT e1 wptr with
      | None => None
      | Some e2 =>
          Some (raise_max HD_DATA_HOLD_MAX (raise_max ACQ_DATA_HOLD_MAX e2 wptr) wptr)
      end
  end.
Proof. reflexivity. Qed.

Lemma merge_average_called_from (a c : nat) (e w e' : lock_info) :
  merge_average a c e w = Some e' -> called_from e' = called_from e.
Proof.
  unfold merge_average.
  destruct (_ =? 0); [|destruct (div64 _ _)]; simpl; intros H; inversion H;
    reflexivity.
Qed.

Lemma raise_max_called_from (m : nat) (e w : lock_info) :
  called_from (raise_max m e w) = called_from e.
Proof. unfold raise_max. destruct (_ <? _); reflexivity. Qed.

Lemma add_things_up_called_from (entry_add wptr e : lock_info) :
  add_things_up entry_add wptr = Some e -> called_from e = called_from entry_add.
Proof.
  rewrite add_things_up_eq.
  destruct (merge_average ACQ_DATA_HOLD_AVG _ entry_add wptr) as [e1|] eqn:H1;
    [|discriminate].
  destruct (merge_average HD_DATA_HOLD_AVG _ e1 wptr) as [e2|] eqn:H2;
    [|discriminate].
  intros H; inversion H; subst.
  rewrite !raise_max_called_from.
  apply merge_average_called_from in H1, H2. congruence.
Qed.

(** ** The consolidation loop *)

Lemma organize_body_first (wptr : lock_info) (cs : cons_store) :
  organize_body 0 wptr cs =
  option_map (fun e => mk_cons_store [e] (number_cons_entries cs))
             (add_things_up (new_entry wptr) wptr).
Proof.
  unfold organize_body. simpl.
  destruct (add_things_up _ wptr); reflexivity.
Qed.

Lemma organize_body_second (count : nat) (wptr e0 : lock_info) :
  count <> O ->
  organize_body count wptr (mk_cons_store [e0] 0) =
  option_map (fun e => mk_cons_store [e] 1)
             (add_things_up (new_entry wptr) wptr).
Proof.
  intros Hc. unfold organize_body.
  destruct (Nat.eqb_spec count 0) as [E|_]; [contradiction|].
  simpl. destruct (add_things_up _ wptr); reflexivity.
Qed.

(** A single stack leaves no entry: the count is still zero when the loop
    ends. *)
Lemma organize_single (w0 : lock_info) (cs : cons_store) :
  organize_loop 0 [w0] (mk_cons_store [] 0) = Some cs -> cons_entries cs = [].
Proof.
  simpl. rewrite organize_body_first.
  destruct (add_things_up (new_entry w0) w0) as [e0|]; [|discriminate].
  simpl. intros H. inversion H. reflexivity.
Qed.

(** C8. In the fold step of the consolidation the division is guarded: in
    each family (acquisition, hold), when the merged count is zero the
    average of the entry is the one it had; with both merged counts zero the
    step completes, without a division; and the only division that stops the
    step is the one whose quotient does not fit, of [LONG_MIN] by a merged
    count of -1: never a division by zero. *)
Theorem zero_count_guard (entry_add wptr : lock_info) :
  let merged c := add64 (dget entry_add c) (dget wptr c) in
  (forall e,
     add_things_up entry_add wptr = Some e ->
     (merged ACQ_DATA_HOLD_COUNT = 0 ->
      dget e ACQ_DATA_HOLD_AVG = dget entry_add ACQ_DATA_HOLD_AVG) /\
     (merged HD_DATA_HOLD_COUNT = 0 ->
      dget e HD_DATA_HOLD_AVG = dget entry_add HD_DATA_HOLD_AVG)) /\
  (merged ACQ_DATA_HOLD_COUNT = 0 -> merged HD_DATA_HOLD_COUNT = 0 ->
   exists e, add_things_up entry_add wptr = Some e) /\
  (add_things_up entry_add wptr = None ->
   merged ACQ_DATA_HOLD_COUNT = -1 \/ merged HD_DATA_HOLD_COUNT = -1).
Proof.
  intros merged. unfold merged. rewrite add_things_up_eq.
  split; [|split].
  - intros e He.
    destruct (merge_average ACQ_DATA_HOLD_AVG ACQ_DATA_HOLD_COUNT entry_add wptr)
      as [e1|] eqn:H1; [|discriminate].
    destruct (merge_average HD_DATA_HOLD_AVG HD_DATA_HOLD_COUNT e1 wptr)
      as [e2|] eqn:H2; [|discriminate].
    inversion He; subst e; clear He.
    split; intros Hz.
    + rewrite !raise_max_other by field_neq.
      rewrite (merge_average_other _ _ ACQ_DATA_HOLD_AVG _ _ _ H2) by field_neq.
      apply (merge_average_guard ACQ_DATA_HOLD_AVG ACQ_DATA_HOLD_COUNT
               entry_add wptr e1); [field_neq | exact H1 | exact Hz].
    + rewrite !raise_max_other by field_neq.
      assert (Hc : dget e1 HD_DATA_HOLD_COUNT = dget entry_add HD_DATA_HOLD_COUNT)
        by (apply (merge_average_other _ _ HD_DATA_HOLD_COUNT _ _ _ H1); field_neq).
      assert (Ha : dget e1 HD_DATA_HOLD_AVG = dget entry_add HD_DATA_HOLD_AVG)
        by (apply (merge_average_other _ _ HD_DATA_HOLD_AVG _ _ _ H1); field_neq).
      rewrite <- Ha.
      apply (merge_average_guard HD_DATA_HOLD_AVG HD_DATA_HOLD_COUNT e1 wptr e2);
        [field_neq | exact H2 | rewrite Hc; exact Hz].
  - intros Ha Hh.
    pose proof (merge_average_zero ACQ_DATA_HOLD_AVG ACQ_DATA_HOLD_COUNT
                  entry_add wptr Ha) as H1.
    rewrite H1.
    assert (Hc : dget (dset entry_add ACQ_DATA_HOLD_COUNT
                         (add64 (dget entry_add ACQ_DATA_HOLD_COUNT)
                                (dget wptr ACQ_DATA_HOLD_COUNT)))
                      HD_DATA_HOLD_COUNT
                 = dget entry_add HD_DATA_HOLD_COUNT)
      by (apply dget_dset_other; field_neq).
    rewrite (merge_average_zero HD_DATA_HOLD_AVG HD_DATA_HOLD_COUNT _ wptr)
      by (rewrite Hc; exact Hh).
    eauto.
  - destruct (merge_average ACQ_DATA_HOLD_AVG ACQ_DATA_HOLD_COUNT entry_add wptr)
      as [e1|] eqn:H1.
    + destruct (merge_average HD_DATA_HOLD_AVG HD_DATA_HOLD_COUNT e1 wptr)
        as [e2|] eqn:H2; [discriminate|].
      intros _. right.
      apply merge_average_none in H2. destruct H2 as [H2 _].
      rewrite (merge_average_other _ _ HD_DATA_HOLD_COUNT _ _ _ H1) in H2
        by field_neq.
      exact H2.
    + intros _. left. apply merge_average_none in H1. tauto.
Qed.

(** A fold step with both merged counts zero: an entry with averages 7 and 9
    and no counts, and a stack with no counts. *)
Lemma zero_count_guard_witness :
  exists e,
    add_things_up (mk_lock_info "" "f:" [7; 0; 0; 0; 9; 0; 0; 0])
                  (mk_lock_info "s" "f:" [5; 1; 0; 0; 6; 2; 0; 0]) = Some e /\
    dget e ACQ_DATA_HOLD_AVG = 7 /\ dget e HD_DATA_HOLD_AVG = 9.
Proof.
  destruct (zero_count_guard (mk_lock_info "" "f:" [7; 0; 0; 0; 9; 0; 0; 0])
              (mk_lock_info "s" "f:" [5; 1; 0; 0; 6; 2; 0; 0]))
    as [Hkeep [Hdone _]].
  destruct (Hdone eq_refl eq_refl) as [e He].
  destruct (Hkeep e He) as [Ha Hh].
  exists e. split; [exact He|]. split.
  - rewrite (Ha eq_refl); reflexivity.
  - rewrite (Hh eq_refl); reflexivity.
Defined.

(** ** [strcmp] is a total order on strings *)

Lemma strcmp_eq (a b : string) : strcmp a b = 0 <-> a = b.
Proof.
  unfold strcmp. split.
  - destruct (String.compare a b) eqn:E; try discriminate.
    intros _. now apply String_as_OT.cmp_eq.
  - intros ->. replace (String.compare b b) with Eq; [reflexivity|].
    symmetry. now apply String_as_OT.cmp_eq.
Qed.

Lemma strcmp_refl (a : string) : strcmp a a = 0.
Proof. now apply strcmp_eq. Qed.

Lemma strcmp_antisym (a b : string) : strcmp a b = - strcmp b a.
Proof.
  unfold strcmp. pose proof (String_as_OT.cmp_antisym a b) as H.
  unfold String_as_OT.cmp in H. rewrite H.
  destruct (String.compare b a); reflexivity.
Qed.

Lemma strcmp_lt (a b : string) : strcmp a b < 0 <-> String_as_OT.lt a b.
Proof.
  rewrite <- String_as_OT.cmp_lt. unfold strcmp, String_as_OT.cmp.
  destruct (String.compare a b); split; intros H; try discriminate; try lia; auto.
Qed.

Lemma strcmp_lt_trans (a b c : string) :
  strcmp a b < 0 -> strcmp b c < 0 -> strcmp a c < 0.
Proof.
  rewrite !strcmp_lt. apply String_as_OT.lt_trans.
Qed.

Lemma strcmp_le_cases (a b : string) : strcmp a b <= 0 -> strcmp a b < 0 \/ a = b.
Proof.
  intros H. destruct (Z.eq_dec (strcmp a b) 0) as [E|E].
  - right. now apply strcmp_eq.
  - left. lia.
Qed.

Lemma strcmp_lt_le_trans (a b c : string) :
  strcmp a b < 0 -> strcmp b c <= 0 -> strcmp a c < 0.
Proof.
  intros H1 H2. destruct (strcmp_le_cases _ _ H2) as [H | ->]; auto.
  eapply strcmp_lt_trans; eauto.
Qed.

Lemma strcmp_le_trans (a b c : string) :
  strcmp a b <= 0 -> strcmp b c <= 0 -> strcmp a c <= 0.
Proof.
  intros H1 H2. destruct (strcmp_le_cases _ _ H1) as [H | ->]; auto.
  pose proof (strcmp_lt_le_trans _ _ _ H H2). lia.
Qed.

Lemma strcmp_total (a b : string) : 0 < strcmp a b -> strcmp b a <= 0.
Proof. rewrite (strcmp_antisym b a). lia. Qed.

(** ** [qsort] returns a sorted permutation *)

Section Qsort.

Context {A : Type}.
Variable compar : A -> A -> Z.

Lemma qsort_insert_perm (x : A) (l : list A) :
  Permutation (x :: l) (qsort_insert compar x l).
Proof.
  induction l as [|y l IH]; simpl.
  - apply Permutation_refl.
  - destruct (compar x y <=? 0).
    + apply Permutation_refl.
    + eapply perm_trans; [apply perm_swap|]. now apply perm_skip.
Qed.

Lemma qsort_perm (l : list A) : Permutation l (qsort compar l).
Proof.
  induction l as [|x l IH]; simpl.
  - apply perm_nil.
  - eapply perm_trans; [apply perm_skip, IH|]. apply qsort_insert_perm.
Qed.

Lemma qsort_length (l : list A) : List.length (qsort compar l) = List.length l.
Proof. symmetry. apply Permutation_length, qsort_perm. Qed.

Hypothesis compar_total : forall a b, 0 < compar a b -> compar b a <= 0.
Hypothesis compar_trans :
  forall a b c, compar a b <= 0 -> compar b c <= 0 -> compar a c <= 0.

Let le (a b : A) : Prop := compar a b <= 0.

Lemma qsort_insert_sorted (x : A) (l : list A) :
  StronglySorted le l -> StronglySorted le (qsort_insert compar x l).
Proof.
  induction 1 as [|y l Hs IH Hall]; simpl.
  - constructor; constructor.
  - destruct (Z.leb_spec (compar x y) 0) as [Hxy|Hxy].
    + constructor; [now constructor|].
      constructor; [exact Hxy|].
      eapply Forall_impl; [|exact Hall].
      intros b Hb. unfold le in *. eapply compar_trans; eauto.
    + constructor; [exact IH|].
      eapply Permutation_Forall; [apply qsort_insert_perm|].
      constructor; [|exact Hall].
      apply compar_total. lia.
Qed.

Lemma qsort_sorted (l : list A) : StronglySorted le (qsort compar l).
Proof.
  induction l as [|x l IH]; simpl.
  - constructor.
  - now apply qsort_insert_sorted.
Qed.

End Qsort.

(** ** [bsearch] on a sorted array *)

Lemma sorted_on_nth (kf : lock_info -> string) (l : list lock_info) :
  sorted_on kf l ->
  forall i j a b, (i <= j)%nat ->
    nth_error l i = Some a -> nth_error l j = Some b ->
    strcmp (kf a) (kf b) <= 0.
Proof.
  induction 1 as [|x l Hs IH Hall]; intros i j a b Hij Ha Hb.
  - destruct i; discriminate.
  - destruct i as [|i], j as [|j]; simpl in *; try lia.
    + inversion Ha; inversion Hb; subst. rewrite strcmp_refl. lia.
    + inversion Ha; subst. apply nth_error_In in Hb.
      rewrite Forall_forall in Hall. now apply Hall.
    + apply (IH i j a b); [lia | exact Ha | exact Hb].
Qed.

Lemma midpoint_bounds (l u : nat) :
  (l < u)%nat -> (l <= (l + u) / 2 < u)%nat.
Proof.
  intros H. split.
  - apply Nat.div_le_lower_bound; lia.
  - apply Nat.Div0.div_lt_upper_bound; lia.
Qed.

Section Bsearch.

Variable kf : lock_info -> string.
Variable key : string.
Variable base : list lock_info.

Let compar (k : string) (p : lock_info) : Z := strcmp k (kf p).

Lemma bsearch_range_step (fuel l u : nat) :
  bsearch_range compar key base (S fuel) l u =
  if (l <? u)%nat then
    match nth_error base ((l + u) / 2) with
    | None => None
    | Some p =>
        if compar key p <? 0
        then bsearch_range compar key base fuel l ((l + u) / 2)
        else if 0 <? compar key p
             then bsearch_range compar key base fuel (S ((l + u) / 2)) u
             else Some ((l + u) / 2)%nat
    end
  else None.
Proof. reflexivity. Qed.

(** What is found matches the key. *)
Lemma bsearch_range_sound (fuel l u i : nat) :
  bsearch_range compar key base fuel l u = Some i ->
  (l <= i < u)%nat /\ exists p, nth_error base i = Some p /\ kf p = key.
Proof.
  revert l u. induction fuel as [|fuel IH]; intros l u.
  { intros H. discriminate H. }
  rewrite bsearch_range_step.
  destruct (Nat.ltb_spec l u) as [Hlu|Hlu]; [|intros H; discriminate H].
  pose proof (midpoint_bounds l u Hlu) as Hm.
  destruct (nth_error base ((l + u) / 2)) as [p|] eqn:Hp;
    [|intros H; discriminate H].
  destruct (Z.ltb_spec (compar key p) 0) as [H1|H1].
  - intros H. apply IH in H. destruct H as [Hr Hx]. split; [lia|exact Hx].
  - destruct (Z.ltb_spec 0 (compar key p)) as [H2|H2].
    + intros H. apply IH in H. destruct H as [Hr Hx]. split; [lia|exact Hx].
    + intros H. assert (E : i = ((l + u) / 2)%nat) by congruence.
      subst i. split; [lia|].
      exists p. split; [exact Hp|].
      symmetry. apply strcmp_eq. unfold compar in *. lia.
Qed.

Hypothesis base_sorted : sorted_on kf base.

(** On a sorted array, a key that is not found is not there. *)
Lemma bsearch_range_complete (fuel l u : nat) :
  (u <= List.length base)%nat -> (u - l < fuel)%nat ->
  bsearch_range compar key base fuel l u = None ->
  forall j p, (l <= j < u)%nat -> nth_error base j = Some p -> kf p <> key.
Proof.
  revert l u. induction fuel as [|fuel IH]; intros l u Hu Hf; [lia|].
  rewrite bsearch_range_step.
  destruct (Nat.ltb_spec l u) as [Hlu|Hlu]; [|intros _ j p Hj; lia].
  pose proof (midpoint_bounds l u Hlu) as Hm.
  destruct (nth_error base ((l + u) / 2)) as [q|] eqn:Hq.
  2:{ apply nth_error_None in Hq. lia. }
  destruct (Z.ltb_spec (compar key q) 0) as [H1|H1].
  - intros H j p Hj Hp.
    destruct (Nat.lt_ge_cases j ((l + u) / 2)) as [Hlt|Hge].
    + apply (IH l ((l + u) / 2)%nat ltac:(lia) ltac:(lia) H j p); [lia|exact Hp].
    + intros E. subst key.
      pose proof (sorted_on_nth kf base base_sorted _ _ _ _ Hge Hq Hp) as Hle.
      unfold compar in H1. rewrite (strcmp_antisym (kf p) (kf q)) in H1. lia.
  - destruct (Z.ltb_spec 0 (compar key q)) as [H2|H2];
      [|intros H; discriminate H].
    intros H j p Hj Hp.
    destruct (Nat.lt_ge_cases ((l + u) / 2) j) as [Hlt|Hge].
    + apply (IH (S ((l + u) / 2)) u ltac:(lia) ltac:(lia) H j p); [lia|exact Hp].
    + intros E. subst key.
      pose proof (sorted_on_nth kf base base_sorted _ _ _ _ Hge Hp Hq) as Hle.
      unfold compar in H2. lia.
Qed.

Lemma bsearch_sound (i : nat) :
  bsearch compar key base (List.length base) = Some i ->
  exists p, nth_error base i = Some p /\ kf p = key.
Proof.
  intros H. apply bsearch_range_sound in H. tauto.
Qed.

Lemma bsearch_complete :
  bsearch compar key base (List.length base) = None ->
  ~ In key (map kf base).
Proof.
  intros H Hin. apply in_map_iff in Hin. destruct Hin as [p [Hk Hp]].
  apply In_nth_error in Hp. destruct Hp as [j Hj].
  assert (j < List.length base)%nat by (apply nth_error_Some; congruence).
  apply (bsearch_range_complete (S (List.length base)) 0 (List.length base)
           ltac:(lia) ltac:(lia) H j p ltac:(lia) Hj Hk).
Qed.

End Bsearch.

(** ** Adding an entry to the stack store *)

Lemma sort_stack_total (a b : lock_info) : 0 < sort_stack a b -> sort_stack b a <= 0.
Proof. apply strcmp_total. Qed.

Lemma sort_stack_trans (a b c : lock_info) :
  sort_stack a b <= 0 -> sort_stack b c <= 0 -> sort_stack a c <= 0.
Proof. apply strcmp_le_trans. Qed.

Lemma find_stack_In (l : list lock_info) (r : lock_info) :
  NoDup (map stack l) -> In r l -> find_stack (stack r) l = Some r.
Proof.
  unfold find_stack. induction l as [|x l IH]; simpl; intros Hnd Hin; [contradiction|].
  inversion Hnd as [|? ? Hx Hnd']; subst.
  destruct Hin as [-> | Hin].
  - now rewrite String.eqb_refl.
  - destruct (String.eqb_spec (stack x) (stack r)) as [E|E].
    + exfalso. apply Hx. rewrite E. now apply in_map.
    + now apply IH.
Qed.

Lemma find_stack_none (l : list lock_info) (k : string) :
  ~ In k (map stack l) -> find_stack k l = None.
Proof.
  unfold find_stack. induction l as [|x l IH]; simpl; intros H; [reflexivity|].
  destruct (String.eqb_spec (stack x) k) as [E|E].
  - exfalso. apply H. now left.
  - apply IH. intros Hin. apply H. now right.
Qed.

Lemma map_stack_upd (l : list lock_info) (i : nat) (r r' : lock_info) :
  nth_error l i = Some r -> stack r' = stack r ->
  map stack (upd i r' l) = map stack l.
Proof.
  revert i. induction l as [|x l IH]; intros [|i] Hn Hs; simpl in *; try discriminate.
  - inversion Hn; subst. now rewrite Hs.
  - f_equal. now apply IH.
Qed.

Lemma In_upd (l : list lock_info) (i : nat) (r r' : lock_info) :
  nth_error l i = Some r -> In r' (upd i r' l).
Proof.
  revert i. induction l as [|x l IH]; intros [|i] Hn; simpl in *; try discriminate.
  - now left.
  - right. now apply IH.
Qed.

Lemma Forall_upd {P : lock_info -> Prop} (l : list lock_info) (i : nat) (r' : lock_info) :
  Forall P l -> P r' -> Forall P (upd i r' l).
Proof.
  intros H. revert i. induction H as [|x l Hx Hl IH]; intros [|i] Hr; simpl;
    constructor; auto.
Qed.

(** Sortedness only looks at the keys. *)
Lemma sorted_on_keys (kf : lock_info -> string) (l l' : list lock_info) :
  map kf l = map kf l' -> sorted_on kf l -> sorted_on kf l'.
Proof.
  unfold sorted_on. intros E H. revert l' E.
  induction H as [|x l Hs IH Hall]; intros [|y l'] E; simpl in E; try discriminate.
  - constructor.
  - inversion E as [[E1 E2]]. constructor; [now apply IH|].
    rewrite Forall_forall in *. intros b Hb.
    assert (Hk : In (kf b) (map kf l)) by (rewrite E2; now apply in_map).
    apply in_map_iff in Hk. destruct Hk as [b0 [Hb0 Hin0]].
    rewrite <- E1, <- Hb0. now apply Hall.
Qed.

Section AddEntry.

Variables (stack_in func_called : string) (index : nat) (value : Z).
Variable lock_data : list lock_info.
Hypothesis inv : store_inv lock_data.

(** The stack has an entry: its field is added to, in place. *)
Lemma add_entry_present :
  In stack_in (map stack lock_data) ->
  exists i r,
    nth_error lock_data i = Some r /\ stack r = stack_in /\
    add_entry stack_in func_called index value lock_data
    = upd i (dset r index (add64 (dget r index) value)) lock_data.
Proof.
  intros Hin. unfold add_entry.
  destruct lock_data as [|x l] eqn:El; [contradiction|].
  rewrite <- El in *. clear El x l.
  destruct (Nat.eqb_spec (List.length lock_data) 0) as [E0|_].
  { destruct lock_data; [contradiction | discriminate]. }
  destruct (bsearch locate_stack stack_in lock_data (List.length lock_data))
    as [i|] eqn:Hb.
  - destruct (bsearch_sound stack stack_in lock_data i Hb) as [p [Hp Hk]].
    exists i, p. split; [exact Hp|]. split; [exact Hk|].
    now rewrite (nth_error_nth _ _ zero_info Hp).
  - exfalso. revert Hin.
    apply (bsearch_complete stack stack_in lock_data (proj1 inv) Hb).
Qed.

(** The stack has none: one is appended and the array is sorted again. *)
Lemma add_entry_absent :
  ~ In stack_in (map stack lock_data) ->
  add_entry stack_in func_called index value lock_data
  = qsort sort_stack (lock_data ++ [fresh_entry stack_in func_called index value]).
Proof.
  intros Hnin. unfold add_entry.
  destruct (Nat.eqb_spec (List.length lock_data) 0) as [E0|_].
  { destruct lock_data; [reflexivity | discriminate]. }
  destruct (bsearch locate_stack stack_in lock_data (List.length lock_data))
    as [i|] eqn:Hb; [|reflexivity].
  exfalso. destruct (bsearch_sound stack stack_in lock_data i Hb) as [p [Hp Hk]].
  apply Hnin. rewrite <- Hk. apply in_map. eapply nth_error_In; eauto.
Qed.

Lemma add_entry_perm_stacks :
  Permutation (map stack (add_entry stack_in func_called index value lock_data))
    (if in_dec string_dec stack_in (map stack lock_data)
     then map stack lock_data
     else stack_in :: map stack lock_data).
Proof.
  destruct (in_dec string_dec stack_in (map stack lock_data)) as [Hin|Hnin].
  - destruct (add_entry_present Hin) as [i [r [Hn [Hs ->]]]].
    erewrite map_stack_upd; eauto.
  - rewrite (add_entry_absent Hnin).
    eapply perm_trans.
    + apply Permutation_map, Permutation_sym, qsort_perm.
    + rewrite map_app. simpl.
      eapply perm_trans; [apply Permutation_app_comm|]. simpl.
      apply Permutation_refl.
Qed.

Lemma add_entry_inv :
  store_inv (add_entry stack_in func_called index value lock_data).
Proof.
  destruct (in_dec string_dec stack_in (map stack lock_data)) as [Hin|Hnin].
  - destruct (add_entry_present Hin) as [i [r [Hn [Hs E]]]].
    assert (Hm : map stack (add_entry stack_in func_called index value lock_data)
                 = map stack lock_data).
    { rewrite E. eapply map_stack_upd; eauto. }
    split.
    + eapply sorted_on_keys; [symmetry; exact Hm | exact (proj1 inv)].
    + rewrite Hm. exact (proj2 inv).
  - split.
    + rewrite (add_entry_absent Hnin).
      apply (qsort_sorted sort_stack sort_stack_total sort_stack_trans).
    + pose proof add_entry_perm_stacks as Hp.
      destruct (in_dec string_dec stack_in (map stack lock_data));
        [contradiction|].
      eapply Permutation_NoDup; [apply Permutation_sym, Hp|].
      constructor; [exact Hnin | exact (proj2 inv)].
Qed.

Lemma add_entry_stacks (s : string) :
  In s (map stack (add_entry stack_in func_called index value lock_data))
  <-> s = stack_in \/ In s (map stack lock_data).
Proof.
  pose proof add_entry_perm_stacks as Hp.
  destruct (in_dec string_dec stack_in (map stack lock_data)) as [Hin|Hnin].
  - split.
    + intros H. right. eapply Permutation_in; eauto.
    + intros [-> | H]; eapply Permutation_in;
        try (apply Permutation_sym; exact Hp); auto.
  - split.
    + intros H. eapply Permutation_in in H; [|exact Hp].
      destruct H as [<- | H]; auto.
    + intros H. eapply Permutation_in; [apply Permutation_sym; exact Hp|].
      destruct H as [-> | H]; [now left | now right].
Qed.

Lemma add_entry_data_ok :
  data_ok lock_data ->
  data_ok (add_entry stack_in func_called index value lock_data).
Proof.
  unfold data_ok. intros Hd.
  destruct (in_dec string_dec stack_in (map stack lock_data)) as [Hin|Hnin].
  - destruct (add_entry_present Hin) as [i [r [Hn [Hs ->]]]].
    apply Forall_upd; [exact Hd|].
    unfold dset. simpl. rewrite length_upd.
    rewrite Forall_forall in Hd. apply Hd. eapply nth_error_In; eauto.
  - rewrite (add_entry_absent Hnin).
    eapply Permutation_Forall; [apply qsort_perm|].
    apply Forall_app. split; [exact Hd|].
    constructor; [|constructor].
    unfold fresh_entry, dset. simpl. now rewrite length_upd.
Qed.

(** The field of the section after the entry is added: the value read on
    top of what the field held, or the value alone for a new stack. *)
Lemma add_entry_metric :
  data_ok lock_data -> (index < 8)%nat ->
  metric (add_entry stack_in func_called index value lock_data) stack_in index
  = if in_dec string_dec stack_in (map stack lock_data)
    then add64 (metric lock_data stack_in index) value
    else value.
Proof.
  intros Hd Hi. pose proof add_entry_inv as [_ Hnd]. unfold metric.
  destruct (in_dec string_dec stack_in (map stack lock_data)) as [Hin|Hnin].
  - destruct (add_entry_present Hin) as [i [r [Hn [Hs E]]]].
    rewrite E in *.
    set (r' := dset r index (add64 (dget r index) value)) in *.
    assert (F1 : find_stack stack_in (upd i r' lock_data) = Some r').
    { rewrite <- Hs. change (stack r) with (stack r').
      apply find_stack_In; [exact Hnd|]. eapply In_upd; eauto. }
    assert (F2 : find_stack stack_in lock_data = Some r).
    { rewrite <- Hs. apply find_stack_In; [exact (proj2 inv)|].
      eapply nth_error_In; eauto. }
    rewrite F1, F2. unfold r'. apply dget_dset_same.
    unfold data_ok in Hd. rewrite Forall_forall in Hd.
    rewrite (Hd r) by (eapply nth_error_In; eauto). exact Hi.
  - rewrite (add_entry_absent Hnin) in *.
    set (f := fresh_entry stack_in func_called index value) in *.
    assert (F1 : find_stack stack_in (qsort sort_stack (lock_data ++ [f])) = Some f).
    { change stack_in with (stack f) at 1.
      apply find_stack_In; [exact Hnd|].
      eapply Permutation_in; [apply qsort_perm|].
      apply in_or_app. right. now left. }
    rewrite F1. unfold f, fresh_entry. apply dget_dset_same. simpl. exact Hi.
Qed.

End AddEntry.

Lemma wrap64_add_l (a b : Z) : wrap64 (wrap64 a + b) = wrap64 (a + b).
Proof.
  unfold wrap64. f_equal.
  replace ((a + 2 ^ 63) mod 2 ^ 64 - 2 ^ 63 + b + 2 ^ 63)
    with ((a + 2 ^ 63) mod 2 ^ 64 + b) by lia.
  rewrite Zplus_mod_idemp_l. f_equal. lia.
Qed.

Lemma store_inv_nil : store_inv [].
Proof. split; constructor. Qed.

Lemma data_ok_nil : data_ok [].
Proof. constructor. Qed.

(** ** Entries of other stacks in between *)

Lemma find_stack_perm (k : string) (l l' : list lock_info) :
  Permutation l l' -> NoDup (map stack l) ->
  find_stack k l' = find_stack k l.
Proof.
  intros Hp Hnd.
  assert (Hnd' : NoDup (map stack l')).
  { eapply Permutation_NoDup; [apply Permutation_map; exact Hp | exact Hnd]. }
  destruct (in_dec string_dec k (map stack l)) as [Hin|Hnin].
  - apply in_map_iff in Hin. destruct Hin as [r [Hk Hr]]. subst k.
    rewrite (find_stack_In l r Hnd Hr).
    apply find_stack_In; [exact Hnd'|]. eapply Permutation_in; eauto.
  - rewrite (find_stack_none l k Hnin). apply find_stack_none.
    intros Hin. apply Hnin.
    eapply Permutation_in; [apply Permutation_map, Permutation_sym; exact Hp|].
    exact Hin.
Qed.

Lemma find_stack_app (k : string) (l l' : list lock_info) :
  find_stack k (l ++ l')
  = match find_stack k l with
    | Some r => Some r
    | None => find_stack k l'
    end.
Proof.
  unfold find_stack. induction l as [|x l IH]; simpl; [reflexivity|].
  destruct (String.eqb (stack x) k); [reflexivity | exact IH].
Qed.

Lemma find_stack_upd_other (k : string) (l : list lock_info) (i : nat)
  (r r' : lock_info) :
  nth_error l i = Some r -> stack r' = stack r -> stack r <> k ->
  find_stack k (upd i r' l) = find_stack k l.
Proof.
  unfold find_stack. revert i.
  induction l as [|x l IH]; intros [|i] Hn Hs Hk; simpl in *; try discriminate.
  - inversion Hn; subst x. rewrite Hs.
    destruct (String.eqb_spec (stack r) k); [contradiction | reflexivity].
  - destruct (String.eqb (stack x) k); [reflexivity|]. eapply IH; eauto.
Qed.

(** An entry for another stack leaves the fields of this one alone. *)
Lemma add_entry_metric_other (stack_in func_called : string) (index : nat)
  (value : Z) (lock_data : list lock_info) (k : string) (j : nat) :
  store_inv lock_data -> stack_in <> k ->
  metric (add_entry stack_in func_called index value lock_data) k j
  = metric lock_data k j.
Proof.
  intros Hinv Hk. unfold metric.
  destruct (in_dec string_dec stack_in (map stack lock_data)) as [Hin|Hnin].
  - destruct (add_entry_present stack_in func_called index value lock_data Hinv Hin)
      as [i [r [Hn [Hs ->]]]].
    rewrite (find_stack_upd_other k lock_data i r _ Hn); [reflexivity | reflexivity |].
    congruence.
  - rewrite (add_entry_absent stack_in func_called index value lock_data Hinv Hnin).
    rewrite (find_stack_perm k
               (lock_data ++ [fresh_entry stack_in func_called index value])).
    + rewrite find_stack_app.
      destruct (find_stack k lock_data); [reflexivity|].
      unfold find_stack. simpl.
      destruct (String.eqb_spec stack_in k); [contradiction | reflexivity].
    + apply qsort_perm.
    + rewrite map_app. simpl.
      eapply Permutation_NoDup; [apply Permutation_app_comm|]. simpl.
      constructor; [exact Hnin | exact (proj2 Hinv)].
Qed.

Lemma add_entry_metric_field_other (stack_in func_called : string) (index : nat)
  (value : Z) (lock_data : list lock_info) (j : nat) :
  store_inv lock_data -> j <> index ->
  metric (add_entry stack_in func_called index value lock_data) stack_in j
  = metric lock_data stack_in j.
Proof.
  intros Hinv Hj.
  pose proof (add_entry_inv stack_in func_called index value lock_data Hinv)
    as [_ Hnd].
  unfold metric.
  destruct (in_dec string_dec stack_in (map stack lock_data)) as [Hin|Hnin].
  - destruct (add_entry_present stack_in func_called index value lock_data Hinv Hin)
      as [i [r [Hn [Hs E]]]].
    rewrite E in *.
    set (r' := dset r index (add64 (dget r index) value)) in *.
    assert (F1 : find_stack stack_in (upd i r' lock_data) = Some r').
    { rewrite <- Hs. change (stack r) with (stack r').
      apply find_stack_In; [exact Hnd|]. eapply In_upd; eauto. }
    assert (F2 : find_stack stack_in lock_data = Some r).
    { rewrite <- Hs. apply find_stack_In; [exact (proj2 Hinv)|].
      eapply nth_error_In; eauto. }
    rewrite F1, F2. unfold r'. apply dget_dset_other. congruence.
  - rewrite (add_entry_absent stack_in func_called index value lock_data Hinv Hnin)
      in *.
    set (f := fresh_entry stack_in func_called index value) in *.
    assert (F1 : find_stack stack_in (qsort sort_stack (lock_data ++ [f])) = Some f).
    { change stack_in with (stack f) at 1.
      apply find_stack_In; [exact Hnd|].
      eapply Permutation_in; [apply qsort_perm|].
      apply in_or_app. right. now left. }
    rewrite F1. rewrite (find_stack_none _ _ Hnin).
    unfold f, fresh_entry. rewrite dget_dset_other by congruence.
    unfold dget. simpl. destruct j as [|[|[|[|[|[|[|[|[|j]]]]]]]]]; reflexivity.
Qed.

Lemma add_entries_inv (index : nat) (entries : list (string * string * Z)) :
  forall lock_data,
    store_inv lock_data -> data_ok lock_data ->
    store_inv (add_entries index entries lock_data)
    /\ data_ok (add_entries index entries lock_data).
Proof.
  induction entries as [|[[s c] v] entries IH]; intros ld Hinv Hd; simpl.
  - split; assumption.
  - apply IH; [now apply add_entry_inv | now apply add_entry_data_ok].
Qed.

(** Stacks stay in the store. *)
Lemma add_entries_keep (index : nat) (entries : list (string * string * Z))
  (k : string) :
  forall lock_data,
    store_inv lock_data -> In k (map stack lock_data) ->
    In k (map stack (add_entries index entries lock_data)).
Proof.
  induction entries as [|[[s c] v] entries IH]; intros ld Hinv Hin; simpl.
  - exact Hin.
  - apply IH; [now apply add_entry_inv|]. apply add_entry_stacks; auto.
Qed.

Lemma add_entries_metric_other (index : nat) (entries : list (string * string * Z))
  (k : string) (j : nat) :
  Forall (fun e => fst (fst e) <> k) entries ->
  forall lock_data,
    store_inv lock_data ->
    metric (add_entries index entries lock_data) k j = metric lock_data k j.
Proof.
  induction 1 as [|[[s c] v] entries He Hall IH]; intros ld Hinv; simpl.
  - reflexivity.
  - rewrite IH by now apply add_entry_inv.
    now apply add_entry_metric_other.
Qed.

(** C7. When the same stack is entered twice for the same section, with
    entries of other stacks in between or not, the field of the section holds
    what it held before plus both values (in 64-bit arithmetic); the second
    value does not replace the first. *)
Theorem additive_within_section
  (stack_in func_called1 func_called2 : string) (index : nat) (v1 v2 : Z)
  (between : list (string * string * Z)) (lock_data : list lock_info) :
  store_inv lock_data -> data_ok lock_data -> (index < 8)%nat ->
  Forall (fun e => fst (fst e) <> stack_in) between ->
  metric (add_entry stack_in func_called2 index v2
            (add_entries index between
               (add_entry stack_in func_called1 index v1 lock_data)))
         stack_in index
  = wrap64 (metric lock_data stack_in index + v1 + v2).
Proof.
  intros Hinv Hd Hi Hb.
  pose proof (add_entry_inv stack_in func_called1 index v1 lock_data Hinv) as Hinv1.
  pose proof (add_entry_data_ok stack_in func_called1 index v1 lock_data Hinv Hd)
    as Hd1.
  destruct (add_entries_inv index between _ Hinv1 Hd1) as [Hinv2 Hd2].
  rewrite (add_entry_metric _ _ _ _ _ Hinv2 Hd2 Hi).
  rewrite (add_entries_metric_other index between stack_in index Hb _ Hinv1).
  destruct (in_dec string_dec stack_in (map stack _)) as [Hin2|Hn].
  2:{ exfalso. apply Hn. apply add_entries_keep; [exact Hinv1|].
      apply add_entry_stacks; auto. }
  rewrite (add_entry_metric _ _ _ _ _ Hinv Hd Hi).
  destruct (in_dec string_dec stack_in (map stack lock_data)) as [Hin|Hnin].
  - unfold add64. now rewrite wrap64_add_l.
  - unfold metric. rewrite (find_stack_none _ _ Hnin). unfold add64. reflexivity.
Qed.

(** A new stack entered with 10 and then, after an entry of another stack,
    with 30 in the count section: 40. *)
Lemma additive_within_section_witness :
  metric (add_entry "s" "f:" ACQ_DATA_HOLD_COUNT 30
            (add_entries ACQ_DATA_HOLD_COUNT [("t", "g:", 7)]%string
               (add_entry "s" "f:" ACQ_DATA_HOLD_COUNT 10 [])))
         "s" ACQ_DATA_HOLD_COUNT
  = wrap64 (metric [] "s" ACQ_DATA_HOLD_COUNT + 10 + 30)
  /\ wrap64 (metric [] "s" ACQ_DATA_HOLD_COUNT + 10 + 30) = 40.
Proof.
  split.
  - apply (additive_within_section "s" "f:" "f:" ACQ_DATA_HOLD_COUNT 10 30
             [("t", "g:", 7)]%string []).
    + exact store_inv_nil.
    + exact data_ok_nil.
    + unfold ACQ_DATA_HOLD_COUNT. lia.
    + repeat constructor. discriminate.
  - reflexivity.
Defined.

(** ** The reader does not depend on the store *)

Lemma result_rel_bind {A B A' B' : Type} (R : A -> B -> Prop) (R' : A' -> B' -> Prop)
  (r1 : result A) (r2 : result B) (k1 : A -> result A') (k2 : B -> result B') :
  result_rel R r1 r2 ->
  (forall a b, R a b -> result_rel R' (k1 a) (k2 b)) ->
  result_rel R' (bind r1 k1) (bind r2 k2).
Proof.
  destruct r1, r2; simpl; intros H Hk; try contradiction; auto.
Qed.

Section ReaderRel.

Context {S1 S2 : Type}.
Variable record1 : string -> string -> nat -> Z -> S1 -> S1.
Variable record2 : string -> string -> nat -> Z -> S2 -> S2.
Variable R : S1 -> S2 -> Prop.
Hypothesis record_rel :
  forall stk cf i v s1 s2, R s1 s2 -> R (record1 stk cf i v s1) (record2 stk cf i v s2).

Lemma read_data_loop_rel (fuel index : nat) (sdepth : Z) :
  forall st s1 s2, R s1 s2 ->
    result_rel (fun p q => fst p = fst q /\ R (snd p) (snd q))
      (read_data_loop record1 fuel index sdepth st s1)
      (read_data_loop record2 fuel index sdepth st s2).
Proof.
  induction fuel as [|fuel IH]; intros st s1 s2 HR; simpl; [exact I|].
  destruct (read_data_body sdepth st) as [[st'|st'|st' v]|status diag| |];
    simpl; auto.
Qed.

Lemma read_data_rel (fuel : nat) (file : string) (index : nat) (sdepth : Z)
  (s1 : S1) (s2 : S2) :
  R s1 s2 ->
  result_rel (fun p q => fst p = fst q /\ R (snd p) (snd q))
    (read_data record1 fuel file index sdepth s1)
    (read_data record2 fuel file index sdepth s2).
Proof.
  intros HR. unfold read_data.
  eapply result_rel_bind; [apply read_data_loop_rel, HR|].
  intros [st1 a] [st2 b] [E Hab]; simpl in *. subst. auto.
Qed.

Lemma lookup_rel (fuel : nat) (file : string) (sdepth : Z) (s1 : S1) (s2 : S2) :
  R s1 s2 ->
  result_rel R (lookup record1 fuel file sdepth s1)
               (lookup record2 fuel file sdepth s2).
Proof.
  intros HR. unfold lookup.
  eapply result_rel_bind; [apply read_data_rel, HR|].
  intros [f1 a1] [f1' b1] [E1 H1]; simpl in *; subst.
  eapply result_rel_bind; [apply read_data_rel, H1|].
  intros [f2 a2] [f2' b2] [E2 H2]; simpl in *; subst.
  eapply result_rel_bind; [apply read_data_rel, H2|].
  intros [f3 a3] [f3' b3] [E3 H3]; simpl in *; subst.
  eapply result_rel_bind; [apply read_data_rel, H3|].
  intros [f4 a4] [f4' b4] [E4 H4]; simpl in *; subst.
  eapply result_rel_bind; [apply read_data_rel, H4|].
  intros [f5 a5] [f5' b5] [E5 H5]; simpl in *; subst.
  eapply result_rel_bind; [apply read_data_rel, H5|].
  intros [f6 a6] [f6' b6] [E6 H6]; simpl in *; subst.
  exact H6.
Qed.

End ReaderRel.

(** What [lookup_data] returns is sorted on the stack, has one entry per
    stack, and eight fields per entry. *)
Lemma lookup_data_inv (fuel : nat) (file : string) (sdepth : Z)
  (lock_data : list lock_info) :
  lookup_data fuel file sdepth = Done lock_data ->
  store_inv lock_data /\ data_ok lock_data.
Proof.
  intros H.
  pose proof (lookup_rel add_entry add_entry
                (fun a _ => store_inv a /\ data_ok a)) as L.
  specialize (L ltac:(intros stk cf i v s1 s2 [H1 H2]; split;
                        [now apply add_entry_inv | now apply add_entry_data_ok])
                fuel file sdepth [] [] (conj store_inv_nil data_ok_nil)).
  unfold lookup_data in H. rewrite H in L. exact L.
Qed.



(** ** One iteration of the reader *)

Lemma is_data_line_true (b : string) :
  is_data_line b = true ->
  Ascii.eqb (first_char b) "=" = false /\ strstr b "[]" = false /\
  Ascii.eqb (first_char b) "@" = false.
Proof.
  unfold is_data_line. intros H.
  apply andb_prop in H. destruct H as [H H3].
  apply andb_prop in H. destruct H as [H1 H2].
  rewrite negb_true_iff in *. auto.
Qed.

Lemma first_char_take (b : string) (i : nat) (c : ascii) :
  strchr b nl = Some i -> first_char b = c -> c <> nl ->
  first_char (take i b ++ " ") = c.
Proof.
  destruct b as [|a b]; simpl; [discriminate|].
  destruct (Ascii.eqb_spec a nl) as [E|E].
  - intros _ <- H. contradiction.
  - destruct (strchr b nl); [|discriminate].
    intros H; inversion H; subst. simpl. auto.
Qed.

(** Every way [read_data_body] leaves the program is the failure exit with
    the diagnostic on a line. *)
Lemma read_data_body_exit (sdepth : Z) (st : rd_state) (status : Z) (diag : string) :
  read_data_body sdepth st = Exited status diag ->
  status = EXIT_FAILURE /\ exists line, diag = malformed line.
Proof.
  unfold read_data_body, remove_new_line, colon_at_last_space.
  destruct (fgets (buffer st) 1024 (fd st)) as [b f]. simpl.
  repeat match goal with
         | |- context [if ?c then _ else _] => destruct c; simpl
         | |- context [match strchr ?s ?c with _ => _ end] =>
             destruct (strchr s c); simpl
         | |- context [match strrchr ?s ?c with _ => _ end] =>
             destruct (strrchr s c); simpl
         | |- context [let (_, _) := fgets ?a ?n ?s in _] =>
             destruct (fgets a n s); simpl
         end;
    intros H; inversion H; subst; eauto.
Qed.

Section ReaderExit.

Context {Store : Type}.
Variable record : string -> string -> nat -> Z -> Store -> Store.

Lemma read_data_loop_exit (fuel index : nat) (sdepth : Z) (status : Z)
  (diag : string) :
  forall st store,
    read_data_loop record fuel index sdepth st store = Exited status diag ->
    exists st', read_data_body sdepth st' = Exited status diag.
Proof.
  induction fuel as [|fuel IH]; intros st store; simpl; [discriminate|].
  destruct (read_data_body sdepth st) as [[st'|st'|st' v]|s d| |] eqn:E;
    simpl; try discriminate.
  - apply IH.
  - apply IH.
  - intros H. inversion H; subst. eauto.
Qed.

Lemma read_data_exit (fuel : nat) (file : string) (index : nat) (sdepth : Z)
  (store : Store) (status : Z) (diag : string) :
  read_data record fuel file index sdepth store = Exited status diag ->
  exists st', read_data_body sdepth st' = Exited status diag.
Proof.
  unfold read_data.
  destruct (read_data_loop record fuel index sdepth _ store) eqn:E; simpl;
    try discriminate.
  intros H. inversion H; subst. eapply read_data_loop_exit; eauto.
Qed.

Lemma lookup_exit (fuel : nat) (file : string) (sdepth : Z) (store : Store)
  (status : Z) (diag : string) :
  lookup record fuel file sdepth store = Exited status diag ->
  exists st', read_data_body sdepth st' = Exited status diag.
Proof.
  unfold lookup.
  repeat match goal with
         | |- context [bind (read_data record fuel ?f ?i sdepth ?s) _] =>
             let E := fresh "E" in
             destruct (read_data record fuel f i sdepth s) as [[? ?]| ? ?| |] eqn:E;
             simpl;
             [ | intros H; inversion H; subst;
                 eapply read_data_exit; eauto
               | discriminate | discriminate ]
         end.
  discriminate.
Qed.

(** The loop stops at the iteration that leaves the program. *)
Lemma read_data_loop_stops (fuel index : nat) (sdepth : Z) (st : rd_state)
  (store : Store) (status : Z) (diag : string) :
  read_data_body sdepth st = Exited status diag ->
  read_data_loop record (S fuel) index sdepth st store = Exited status diag.
Proof. intros H. simpl. now rewrite H. Qed.

(** The loop goes on with the entry added. *)
Lemma read_data_loop_records (fuel index : nat) (sdepth : Z) (st st' : rd_state)
  (store : Store) (value : Z) :
  read_data_body sdepth st = Done (Record_entry st' value) ->
  read_data_loop record (S fuel) index sdepth st store
  = read_data_loop record fuel index sdepth st'
      (record (stack_in st') (func_called st') index value store).
Proof. intros H. simpl. now rewrite H. Qed.

End ReaderExit.

Lemma body_no_newline (sdepth : Z) (st : rd_state) (b f : string) :
  fgets (buffer st) 1024 (fd st) = (b, f) ->
  is_data_line b = true -> strchr b nl = None ->
  read_data_body sdepth st = Exited EXIT_FAILURE (malformed b).
Proof.
  intros Hf Hd Hn. apply is_data_line_true in Hd. destruct Hd as [H1 [H2 H3]].
  unfold read_data_body. rewrite Hf. simpl. rewrite H1, H2, H3.
  unfold remove_new_line. rewrite Hn. reflexivity.
Qed.

Lemma body_function_line_no_newline (sdepth : Z) (st : rd_state)
  (b f b2 f2 : string) (i : nat) :
  fgets (buffer st) 1024 (fd st) = (b, f) ->
  is_data_line b = true -> strchr b nl = Some i ->
  have_function st = false ->
  fgets (take i b ++ " ") 1024 f = (b2, f2) -> strchr b2 nl = None ->
  read_data_body sdepth st = Exited EXIT_FAILURE (malformed b2).
Proof.
  intros Hf Hd Hn Hh Hf2 Hn2. apply is_data_line_true in Hd.
  destruct Hd as [H1 [H2 H3]].
  unfold read_data_body. rewrite Hf. simpl. rewrite H1, H2, H3.
  unfold remove_new_line. rewrite Hn. simpl. rewrite Hh. simpl.
  rewrite Hf2. simpl. rewrite Hn2. reflexivity.
Qed.

Lemma body_terminator (sdepth : Z) (st : rd_state) (b f : string) (i : nat) :
  fgets (buffer st) 1024 (fd st) = (b, f) ->
  is_data_line b = true -> strchr b nl = Some i ->
  have_function st = true -> first_char b = "]"%char ->
  read_data_body sdepth st =
  match strchr (take i b ++ " ") ":" with
  | Some j =>
      Done (Record_entry
              (mk_rd_state f (take i b ++ " ") (func_called st) (stack_in st) 0 true)
              (atoll (drop (S j) (take i b ++ " "))))
  | None => Exited EXIT_FAILURE (malformed (take i b ++ " "))
  end.
Proof.
  intros Hf Hd Hn Hh Hc. apply is_data_line_true in Hd.
  destruct Hd as [H1 [H2 H3]].
  unfold read_data_body. rewrite Hf. simpl. rewrite H1, H2, H3.
  unfold remove_new_line. rewrite Hn. simpl. rewrite Hh. simpl.
  rewrite (first_char_take b i "]" Hn Hc) by discriminate. simpl.
  destruct (strchr (take i b ++ " ") ":"); reflexivity.
Qed.

Lemma main_exit (fuel : nat) (execname : string) (args : list (ascii * string))
  (file : string) (o : options) (err : string) (status : Z) (diag : string) :
  handle_options execname args initial_options "" = Done (o, err) ->
  lookup_data fuel file (stack_depth o) = Exited status diag ->
  main fuel execname args file = mk_outcome (Returned status) [] (err ++ diag).
Proof.
  unfold main. intros -> ->. reflexivity.
Qed.

Lemma lookup_data_exit (fuel : nat) (file : string) (sdepth : Z) (status : Z)
  (diag : string) :
  lookup_data fuel file sdepth = Exited status diag ->
  status = EXIT_FAILURE /\ exists line, diag = malformed line.
Proof.
  intros H. apply lookup_exit in H. destruct H as [st' H].
  now apply read_data_body_exit in H.
Qed.

(** C9. A line that the loop hands to [remove_new_line] and that has no
    newline (a line read at the start of an iteration that is neither the
    rule, nor an empty entry, nor the start of a stack; or the line read for
    the calling function) and a line starting with [']'] that is read at the
    start of an iteration while a stack is open and that has no [':'] make
    that iteration leave the program with status 1 and
    ["malformed line: "], the line and a newline on stderr; the loop stops at
    that iteration; [lookup_data] leaves the program in no other way; and a
    run that is left there has written no report line. *)
Theorem malformed_line_is_fatal :
  (forall sdepth st b f,
     fgets (buffer st) 1024 (fd st) = (b, f) ->
     is_data_line b = true -> strchr b nl = None ->
     read_data_body sdepth st
     = Exited 1 ("malformed line: " ++ b ++ String "010" "")) /\
  (forall sdepth st b f b2 f2 i,
     fgets (buffer st) 1024 (fd st) = (b, f) ->
     is_data_line b = true -> strchr b nl = Some i ->
     have_function st = false ->
     fgets (take i b ++ " ") 1024 f = (b2, f2) -> strchr b2 nl = None ->
     read_data_body sdepth st
     = Exited 1 ("malformed line: " ++ b2 ++ String "010" "")) /\
  (forall sdepth st b f i,
     fgets (buffer st) 1024 (fd st) = (b, f) ->
     is_data_line b = true -> strchr b nl = Some i ->
     have_function st = true -> first_char b = "]"%char ->
     strchr (take i b ++ " ") ":" = None ->
     read_data_body sdepth st
     = Exited 1 ("malformed line: " ++ (take i b ++ " ") ++ String "010" "")) /\
  (forall fuel index sdepth st lock_data status diag,
     read_data_body sdepth st = Exited status diag ->
     read_data_loop add_entry (S fuel) index sdepth st lock_data
     = Exited status diag) /\
  (forall fuel file sdepth status diag,
     lookup_data fuel file sdepth = Exited status diag ->
     status = 1 /\
     exists line, diag = ("malformed line: " ++ line ++ String "010" "")%string) /\
  (forall fuel execname args file o err status diag,
     handle_options execname args initial_options "" = Done (o, err) ->
     lookup_data fuel file (stack_depth o) = Exited status diag ->
     main fuel execname args file
     = mk_outcome (Returned status) [] (err ++ diag)).
Proof.
  repeat split.
  - apply body_no_newline.
  - apply body_function_line_no_newline.
  - intros sdepth st b f i Hf Hd Hn Hh Hc Hs.
    rewrite (body_terminator sdepth st b f i Hf Hd Hn Hh Hc). now rewrite Hs.
  - intros. now apply read_data_loop_stops.
  - now apply lookup_data_exit in H.
  - now apply lookup_data_exit in H.
  - apply main_exit.
Qed.

Lemma digits_no_digit (acc : Z) (s : string) :
  isdigit (first_char s) = false -> digits acc s = acc.
Proof.
  destruct s as [|c s]; simpl; [reflexivity|]. now intros ->.
Qed.

Lemma atoll_no_number (s : string) : no_number s = true -> atoll s = 0.
Proof.
  unfold no_number, atoll, strtoll.
  destruct (skip_space s) as [|c s'] eqn:E; [reflexivity|].
  assert (Hc : forall t, isdigit (first_char t) = false ->
                         clamp LONG_MIN LONG_MAX (digits 0 t) = 0
                         /\ clamp LONG_MIN LONG_MAX (- digits 0 t) = 0).
  { intros t Ht. rewrite (digits_no_digit 0 t Ht). split; reflexivity. }
  destruct c as [[] [] [] [] [] [] [] []]; intros H;
    apply negb_true_iff in H; apply Hc in H; destruct H; assumption.
Qed.

(** C10. A line starting with [']'] that is read at the start of an
    iteration while a stack is open, that is not taken for an empty entry and
    that has a [':'] is accepted whatever follows the [':']: the iteration
    completes the stack with the value [atoll] gives for the text after the
    first [':'], and the loop goes on with that value stored: it is the field
    of the section in a new entry when the stack has none, it is added to
    that field when the stack has one, and nothing else in the store changes.
    [atoll] gives zero for a text with no number in it. *)
Theorem terminator_value_is_atoll :
  (forall sdepth st b f i j,
     fgets (buffer st) 1024 (fd st) = (b, f) ->
     is_data_line b = true -> strchr b nl = Some i ->
     have_function st = true -> first_char b = "]"%char ->
     strchr (take i b ++ " ") ":" = Some j ->
     read_data_body sdepth st
     = Done (Record_entry
               (mk_rd_state f (take i b ++ " ") (func_called st) (stack_in st) 0 true)
               (atoll (drop (S j) (take i b ++ " "))))) /\
  (forall fuel index sdepth st b f i j lock_data,
     fgets (buffer st) 1024 (fd st) = (b, f) ->
     is_data_line b = true -> strchr b nl = Some i ->
     have_function st = true -> first_char b = "]"%char ->
     strchr (take i b ++ " ") ":" = Some j ->
     store_inv lock_data -> data_ok lock_data -> (index < 8)%nat ->
     let value := atoll (drop (S j) (take i b ++ " ")) in
     exists lock_data',
       read_data_loop add_entry (S fuel) index sdepth st lock_data
       = read_data_loop add_entry fuel index sdepth
           (mk_rd_state f (take i b ++ " ") (func_called st) (stack_in st) 0 true)
           lock_data' /\
       metric lock_data' (stack_in st) index
       = (if in_dec string_dec (stack_in st) (map stack lock_data)
          then add64 (metric lock_data (stack_in st) index) value
          else value) /\
       (forall k n, k <> stack_in st \/ n <> index ->
                    metric lock_data' k n = metric lock_data k n)) /\
  (forall s, no_number s = true -> atoll s = 0).
Proof.
  split; [|split].
  - intros sdepth st b f i j Hf Hd Hn Hh Hc Hs.
    rewrite (body_terminator sdepth st b f i Hf Hd Hn Hh Hc). now rewrite Hs.
  - intros fuel index sdepth st b f i j lock_data Hf Hd Hn Hh Hc Hs Hinv Hok Hi
      value.
    exists (add_entry (stack_in st) (func_called st) index value lock_data).
    split; [|split].
    + cbn [read_data_loop].
      rewrite (body_terminator sdepth st b f i Hf Hd Hn Hh Hc), Hs. reflexivity.
    + apply add_entry_metric; assumption.
    + intros k n [Hk|Hn'].
      * apply add_entry_metric_other; [assumption | congruence].
      * destruct (string_dec (stack_in st) k) as [E|E].
        -- subst k. apply add_entry_metric_field_other; assumption.
        -- apply add_entry_metric_other; assumption.
  - apply atoll_no_number.
Qed.

(** ** The rows of the report *)

Lemma ends_with_colon_strchr (s : string) :
  s <> EmptyString -> ends_with_colon s = true ->
  exists i, strchr s ":" = Some i /\
            ends_with_colon (drop (S i) s) = true /\
            (String.length (drop (S i) s) < String.length s)%nat.
Proof.
  induction s as [|c s IH]; intros Hne He; [contradiction|].
  simpl strchr. destruct (Ascii.eqb_spec c ":") as [E|E].
  - exists O. split; [reflexivity|]. simpl. split; [|lia].
    destruct s; [reflexivity | exact He].
  - destruct s as [|c' s'].
    + simpl in He. apply Ascii.eqb_eq in He. contradiction.
    + destruct IH as [i [Hi [Hd Hl]]]; [discriminate | exact He |].
      exists (S i). rewrite Hi. split; [reflexivity|].
      split; [exact Hd|]. simpl in *. lia.
Qed.

Lemma more_frames_total (fuel : nat) :
  forall ptr, (String.length ptr < fuel)%nat -> ends_with_colon ptr = true ->
              exists lines, more_frames fuel ptr = Done lines.
Proof.
  induction fuel as [|fuel IH]; intros ptr Hl He; [lia|].
  destruct ptr as [|c p]; [simpl; eauto|].
  destruct (ends_with_colon_strchr (String c p) ltac:(discriminate) He)
    as [i [Hi [Hd Hlen]]].
  cbn [more_frames]. rewrite Hi.
  destruct (IH (drop (S i) (String c p)) ltac:(lia) Hd) as [lines ->].
  simpl. eauto.
Qed.

Lemma entry_lines_total (e : lock_info) :
  ends_with_colon (called_from e) = true ->
  exists more,
    entry_lines e = Done (entry_line (first_frame (called_from e)) e :: more).
Proof.
  intros He. unfold entry_lines.
  destruct (strchr (called_from e) ":") as [i|] eqn:Hi; [|simpl; eauto].
  assert (Hne : called_from e <> EmptyString).
  { intros E. rewrite E in Hi. discriminate. }
  destruct (ends_with_colon_strchr _ Hne He) as [i' [Hi' [Hd Hl]]].
  assert (i' = i) by congruence. subst i'.
  destruct (more_frames_total (S (String.length (drop (S i) (called_from e))))
              (drop (S i) (called_from e)) ltac:(lia) Hd) as [lines ->].
  simpl. eauto.
Qed.

(** The second loop prints one block of lines per entry the filter keeps,
    each starting with the line of the entry. *)
Lemma dump_loop_blocks (caller : option string) (entries : list lock_info) :
  keys_ok entries ->
  exists blocks,
    dump_loop caller entries = Done (List.concat blocks) /\
    Forall2 (fun e b => exists more,
                 b = entry_line (first_frame (called_from e)) e :: more)
            (filter (keeps caller) entries) blocks.
Proof.
  induction 1 as [|e entries He Hall IH]; simpl.
  - exists []. split; [reflexivity | constructor].
  - destruct IH as [blocks [Hd Hb]]. unfold keeps at 1.
    destruct (caller_skips caller e); simpl.
    + exists blocks. split; assumption.
    + destruct (entry_lines_total e He) as [more Hm].
      rewrite Hm, Hd. simpl.
      exists ((entry_line (first_frame (called_from e)) e :: more) :: blocks).
      split; [reflexivity|]. constructor; eauto.
Qed.

Lemma filter_perm {A : Type} (f : A -> bool) (l l' : list A) :
  Permutation l l' -> Permutation (filter f l) (filter f l').
Proof.
  induction 1 as [|x l l' H IH|x y l|l l' l'' H1 IH1 H2 IH2]; simpl.
  - constructor.
  - destruct (f x); [now constructor | exact IH].
  - destruct (f x), (f y); try apply Permutation_refl. apply perm_swap.
  - eapply perm_trans; eauto.
Qed.

Lemma filter_firstn_length {A : Type} (f : A -> bool) (n : nat) (l : list A) :
  (List.length (filter f (firstn n l)) <= List.length (filter f l))%nat.
Proof.
  rewrite <- (firstn_skipn n l) at 2. rewrite filter_app, length_app. lia.
Qed.

Lemma filter_length_le {A : Type} (f : A -> bool) (l : list A) :
  (List.length (filter f l) <= List.length l)%nat.
Proof.
  induction l as [|x l IH]; simpl; [lia|]. destruct (f x); simpl; lia.
Qed.

Lemma Forall_firstn_keeps {A : Type} (P : A -> Prop) (n : nat) (l : list A) :
  Forall P l -> Forall P (firstn n l).
Proof.
  intros H. revert n. induction H as [|x l Hx Hl IH]; intros [|n]; simpl;
    constructor; auto.
Qed.

Lemma keeps_set_totals (caller : option string) (e : lock_info) :
  keeps caller (set_totals e) = keeps caller e.
Proof. reflexivity. Qed.

Lemma filter_keeps_set_totals (caller : option string) (l : list lock_info) :
  filter (keeps caller) (map set_totals l) = map set_totals (filter (keeps caller) l).
Proof.
  induction l as [|e l IH]; [reflexivity|].
  cbn [map filter]. rewrite keeps_set_totals.
  destruct (keeps caller e); cbn [map]; now rewrite IH.
Qed.

Lemma ranked_perm (sort_option : Z) (cs : cons_store) :
  Permutation (map set_totals (cons_entries cs)) (ranked sort_option cs).
Proof. apply qsort_perm. Qed.

Lemma sort_desc_le (field : nat) (a b : lock_info) :
  sort_desc field a b <= 0 <-> dget b field <= dget a field.
Proof.
  unfold sort_desc.
  destruct (Z.ltb_spec (dget a field) (dget b field));
    destruct (Z.ltb_spec (dget b field) (dget a field)); lia.
Qed.

(** The ranking is non-increasing on the field of the selected routine. *)
Lemma ranked_sorted (sort_option : Z) (cs : cons_store) :
  StronglySorted
    (fun a b => dget b (comparator_field (dump_select sort_option))
                <= dget a (comparator_field (dump_select sort_option)))
    (ranked sort_option cs).
Proof.
  unfold ranked, run_comparator.
  set (f := comparator_field (dump_select sort_option)).
  assert (H : StronglySorted (fun a b => sort_desc f a b <= 0)
                (qsort (sort_desc f) (map set_totals (cons_entries cs)))).
  { apply qsort_sorted.
    - intros a b Hab. apply sort_desc_le.
      destruct (Z.le_gt_cases (sort_desc f a b) 0) as [Hle|Hgt]; [lia|].
      assert (Hn : ~ dget b f <= dget a f) by (rewrite <- sort_desc_le; lia).
      lia.
    - intros a b c. rewrite !sort_desc_le. lia. }
  induction H as [|x l Hs IH Hall]; constructor; [exact IH|].
  eapply Forall_impl; [|exact Hall]. intros b. apply sort_desc_le.
Qed.

Lemma ranked_length (sort_option : Z) (cs : cons_store) :
  (List.length (ranked sort_option cs) <= number_cons_entries cs)%nat.
Proof.
  unfold ranked. rewrite qsort_length, length_map. unfold cons_entries.
  apply firstn_le_length.
Qed.

Lemma to_size_t_small (z : Z) : 0 <= z < 2 ^ 31 -> to_size_t z = z.
Proof. intros H. unfold to_size_t. apply Z.mod_small. lia. Qed.

(** Under the limit, the first [row_limit] ranked entries are the first
    [max_rows] ones. *)
Lemma firstn_row_limit (sort_option max_rows : Z) (cs : cons_store) :
  0 <= max_rows < 2 ^ 31 ->
  firstn (row_limit max_rows (number_cons_entries cs)) (ranked sort_option cs)
  = firstn (Z.to_nat max_rows) (ranked sort_option cs).
Proof.
  intros Hm. unfold row_limit. rewrite (to_size_t_small _ Hm).
  destruct (Z.ltb_spec max_rows (Z.of_nat (number_cons_entries cs))) as [H|H];
    [reflexivity|].
  pose proof (ranked_length sort_option cs).
  rewrite !firstn_all2; auto; lia.
Qed.

Lemma strchr_take_first (b : string) (c : ascii) (i : nat) :
  strchr b c = Some i -> strchr (take i b) c = None.
Proof.
  revert i. induction b as [|a b IH]; intros i; simpl; [discriminate|].
  destruct (Ascii.eqb a c) eqn:E.
  - intros H. inversion H. reflexivity.
  - destruct (strchr b c) as [j|]; [|discriminate].
    intros H. inversion H. simpl. rewrite E. now rewrite (IH j).
Qed.

Lemma strchr_app_found (f rest : string) (c : ascii) :
  strchr f c = None -> strchr (f ++ String c rest) c = Some (String.length f).
Proof.
  induction f as [|a f IH]; simpl.
  - intros _. now rewrite Ascii.eqb_refl.
  - destruct (Ascii.eqb a c); [discriminate|].
    destruct (strchr f c) eqn:E; [discriminate|]. intros _. now rewrite IH.
Qed.

Lemma take_app_length (f x : string) : take (String.length f) (f ++ x) = f.
Proof.
  induction f as [|a f IH]; simpl; [destruct x; reflexivity | now rewrite IH].
Qed.

Lemma drop_app_length (f rest : string) (c : ascii) :
  drop (S (String.length f)) (f ++ String c rest) = rest.
Proof. induction f as [|a f IH]; simpl; [reflexivity | exact IH]. Qed.

Lemma more_frames_join (frames : list string) :
  forall fuel,
    (List.length frames < fuel)%nat ->
    Forall (fun f => strchr f ":" = None) frames ->
    more_frames fuel (join_frames frames)
    = Done (map (fun f => (pad_left 48 f ++ line_end)%string) frames).
Proof.
  induction frames as [|f frames IH]; intros fuel Hl Hall;
    (destruct fuel as [|fuel]; [simpl in Hl; lia|]); [reflexivity|].
  inversion Hall as [|? ? Hf Hall']; subst.
  cbn [join_frames fold_right map]. fold (join_frames frames).
  cbn [more_frames].
  destruct (f ++ ":" ++ join_frames frames)%string as [|a s] eqn:E.
  { destruct f; discriminate E. }
  rewrite <- E. change (":" ++ join_frames frames)%string
    with (String ":" (join_frames frames)).
  rewrite (strchr_app_found f (join_frames frames) ":" Hf).
  rewrite drop_app_length, take_app_length.
  rewrite IH; [reflexivity | simpl in Hl; lia | exact Hall'].
Qed.

Lemma string_length_app (a b : string) :
  String.length (a ++ b) = (String.length a + String.length b)%nat.
Proof. induction a as [|x a IH]; simpl; [reflexivity | now rewrite IH]. Qed.

Lemma join_frames_length (frames : list string) :
  (List.length frames <= String.length (join_frames frames))%nat.
Proof.
  induction frames as [|f frames IH]; simpl; [lia|].
  fold (join_frames frames). rewrite string_length_app. simpl. lia.
Qed.

(** ** The block of lines of an entry *)

Lemma strchr_lt (s : string) (c : ascii) (i : nat) :
  strchr s c = Some i -> (i < String.length s)%nat.
Proof.
  revert i. induction s as [|a s IH]; intros i; simpl; [discriminate|].
  destruct (Ascii.eqb a c).
  - intros H. inversion H. lia.
  - destruct (strchr s c) as [j|]; [|discriminate].
    intros H. inversion H. specialize (IH j eq_refl). lia.
Qed.

Lemma strchr_split (s : string) (c : ascii) (i : nat) :
  strchr s c = Some i -> s = (take i s ++ String c (drop (S i) s))%string.
Proof.
  revert i. induction s as [|a s IH]; intros i; simpl; [discriminate|].
  destruct (Ascii.eqb_spec a c) as [E|E].
  - intros H. inversion H. subst. reflexivity.
  - destruct (strchr s c) as [j|]; [|discriminate].
    intros H. inversion H. simpl. f_equal. now apply IH.
Qed.

Lemma key_frames_join (fuel : nat) :
  forall s,
    ends_with_colon s = true -> (String.length s <= fuel)%nat ->
    join_frames (key_frames fuel s) = s /\
    Forall (fun f => strchr f ":" = None) (key_frames fuel s).
Proof.
  induction fuel as [|fuel IH]; intros s He Hl.
  - destruct s; [split; [reflexivity | constructor] | simpl in Hl; lia].
  - destruct s as [|a s'] eqn:Es; [split; [reflexivity | constructor]|].
    rewrite <- Es in *.
    destruct (ends_with_colon_strchr s ltac:(rewrite Es; discriminate) He)
      as [i [Hi [Hd Hlen]]].
    cbn [key_frames]. rewrite Hi.
    destruct (IH (drop (S i) s) Hd ltac:(lia)) as [Hj Hf].
    split.
    + cbn [join_frames fold_right]. fold (join_frames (key_frames fuel (drop (S i) s))).
      rewrite Hj. symmetry. apply (strchr_split s ":" i Hi).
    + constructor; [now apply strchr_take_first | exact Hf].
Qed.

Lemma entry_lines_join (e : lock_info) (f1 : string) (frames : list string) :
  Forall (fun f => strchr f ":" = None) (f1 :: frames) ->
  called_from e = join_frames (f1 :: frames) ->
  entry_lines e
  = Done (entry_line f1 e
          :: map (fun f => (pad_left 48 f ++ line_end)%string) frames)
  /\ first_frame (called_from e) = f1.
Proof.
  intros Hall Hk. inversion Hall as [|? ? Hf Hall']; subst.
  unfold entry_lines, first_frame. rewrite Hk.
  cbn [join_frames fold_right]. fold (join_frames frames).
  change (":" ++ join_frames frames)%string with (String ":" (join_frames frames)).
  rewrite (strchr_app_found f1 (join_frames frames) ":" Hf).
  rewrite drop_app_length, take_app_length.
  rewrite more_frames_join; [split; reflexivity | | exact Hall'].
  pose proof (join_frames_length frames). lia.
Qed.

(** For a key as the parser builds it, the loop prints the block of the
    entry. *)
Lemma entry_lines_block (e : lock_info) :
  ends_with_colon (called_from e) = true -> entry_lines e = Done (entry_block e).
Proof.
  intros He. unfold entry_block, frames_of.
  destruct (key_frames_join (String.length (called_from e)) (called_from e) He
              (Nat.le_refl _)) as [Hj Hf].
  destruct (key_frames (String.length (called_from e)) (called_from e))
    as [|f1 frames] eqn:Ek.
  - simpl in Hj. unfold entry_lines, first_frame. rewrite <- Hj. reflexivity.
  - destruct (entry_lines_join e f1 frames Hf (eq_sym Hj)) as [-> ->].
    reflexivity.
Qed.

Lemma dump_loop_rows (caller : option string) (entries : list lock_info) :
  keys_ok entries ->
  dump_loop caller entries
  = Done (List.concat (map entry_block (filter (keeps caller) entries))).
Proof.
  induction 1 as [|e entries He Hall IH]; simpl; [reflexivity|].
  unfold keeps at 1. destruct (caller_skips caller e); simpl; [exact IH|].
  rewrite (entry_lines_block e He), IH. reflexivity.
Qed.

Lemma concat_single {A B : Type} (f : A -> list B) (g : A -> B) (l : list A) :
  Forall (fun x => f x = [g x]) l -> List.concat (map f l) = map g l.
Proof.
  induction 1 as [|x l Hx Hl IH]; simpl; [reflexivity|]. now rewrite Hx, IH.
Qed.

(** C5, as the code has it.  For a row limit that is not negative and keys
    as the parser builds them, the report is the header line and then, for
    each row in turn, the block of the row and nothing else: the line of the
    entry and a line for each further frame of its key.  The rows are the
    entries the caller filter keeps among the first [max_rows] entries of the
    ranking (the limit is applied before the filter), where the ranking is
    the entries of the store with their totals, in non-increasing order of
    the selected field; there are at most [max_rows] rows, and at most as
    many as entries that pass the filter.  When the keys of the rows have one
    frame, the report is the header line and one line for each row. *)
Theorem rows_are_filtered_prefix
  (caller : option string) (sort_option max_rows : Z) (cs : cons_store) :
  0 <= max_rows < 2 ^ 31 ->
  keys_ok (cons_entries cs) ->
  let rows :=
    filter (keeps caller) (firstn (Z.to_nat max_rows) (ranked sort_option cs)) in
  dump_data caller sort_option max_rows cs
  = Done (header_line :: List.concat (map entry_block rows)) /\
  Permutation (map set_totals (cons_entries cs)) (ranked sort_option cs) /\
  StronglySorted
    (fun a b => dget b (comparator_field (dump_select sort_option))
                <= dget a (comparator_field (dump_select sort_option)))
    (ranked sort_option cs) /\
  Z.of_nat (List.length rows) <= max_rows /\
  (List.length rows <= List.length (filter (keeps caller) (cons_entries cs)))%nat /\
  (Forall (fun e => tl (frames_of (called_from e)) = []) rows ->
   dump_data caller sort_option max_rows cs
   = Done (header_line
           :: map (fun e => entry_line (first_frame (called_from e)) e) rows)).
Proof.
  intros Hm Hkeys rows.
  assert (Hranked : keys_ok (ranked sort_option cs)).
  { unfold keys_ok in *. eapply Permutation_Forall; [apply ranked_perm|].
    rewrite Forall_map. exact Hkeys. }
  assert (Hd : dump_data caller sort_option max_rows cs
               = Done (header_line :: List.concat (map entry_block rows))).
  { unfold dump_data. rewrite (firstn_row_limit sort_option max_rows cs Hm).
    rewrite dump_loop_rows; [reflexivity|].
    apply Forall_firstn_keeps. exact Hranked. }
  split; [exact Hd|]. split; [|split; [|split; [|split]]].
  - apply ranked_perm.
  - apply ranked_sorted.
  - pose proof (filter_length_le (keeps caller)
                  (firstn (Z.to_nat max_rows) (ranked sort_option cs))).
    pose proof (firstn_le_length (Z.to_nat max_rows) (ranked sort_option cs)).
    unfold rows. lia.
  - unfold rows. eapply Nat.le_trans; [apply filter_firstn_length|].
    rewrite <- (Permutation_length
                  (filter_perm (keeps caller) _ _ (ranked_perm sort_option cs))).
    rewrite filter_keeps_set_totals, length_map. apply Nat.le_refl.
  - intros Hone. rewrite Hd. do 2 f_equal.
    apply concat_single. eapply Forall_impl; [|exact Hone].
    intros e He. unfold entry_block. now rewrite He.
Qed.

(** On [two_callers], with the filter on [foo+10] and a limit of one row. *)
Lemma rows_are_filtered_prefix_witness :
  let rows :=
    filter (keeps (Some "foo+10"%string))
           (firstn (Z.to_nat 1) (ranked 7 two_callers)) in
  dump_data (Some "foo+10"%string) 7 1 two_callers
  = Done (header_line :: List.concat (map entry_block rows)) /\
  Permutation (map set_totals (cons_entries two_callers)) (ranked 7 two_callers) /\
  StronglySorted
    (fun a b => dget b (comparator_field (dump_select 7))
                <= dget a (comparator_field (dump_select 7)))
    (ranked 7 two_callers) /\
  Z.of_nat (List.length rows) <= 1 /\
  (List.length rows
   <= List.length (filter (keeps (Some "foo+10"%string))
                     (cons_entries two_callers)))%nat /\
  (Forall (fun e => tl (frames_of (called_from e)) = []) rows ->
   dump_data (Some "foo+10"%string) 7 1 two_callers
   = Done (header_line
           :: map (fun e => entry_line (first_frame (called_from e)) e) rows)).
Proof.
  apply (rows_are_filtered_prefix (Some "foo+10"%string) 7 1 two_callers).
  - lia.
  - repeat constructor.
Defined.

(** C5, as stated, fails on [two_callers] ranked on the average, with the
    filter on [foo+10] and a limit of one row: one entry passes the filter,
    so the first [min 1 1] of the sorted, filtered entries is the entry of
    [foo+10], but the report has no row: the limit cut the ranking down to
    [zoo+10] before the filter dropped it.  The same run from [sample_file],
    whose consolidated store is [two_callers], prints the header alone. *)
Lemma limit_counts_filtered_rows_counterexample :
  dump_data (Some "foo+10"%string) 6 1 two_callers = Done [header_line] /\
  firstn (Nat.min 1 (List.length (filter (keeps (Some "foo+10"%string))
                                    (ranked 6 two_callers))))
         (filter (keeps (Some "foo+10"%string)) (ranked 6 two_callers))
  = [foo_ranked] /\
  main 100 prog [("C"%char, "foo+10"%string); ("n"%char, "1"%string)] sample_file
  = mk_outcome (Returned 0) [header_line] "".
Proof.
  split; [reflexivity|]. split; [reflexivity|]. vm_compute. reflexivity.
Qed.

(** ** The sort option *)

(** What [-S] does for any argument: never an exit; the code is kept when
    it is at most 6, and replaced by 6 with the diagnostic otherwise. *)
Lemma sort_option_effect (execname optarg : string) (o : options) :
  handle_option execname "S" optarg o
  = if 6 <? atoi optarg
    then Done (mk_options (stack_depth o) (caller o) 6 (number_to_show o),
               invalid_sort_option)
    else Done (mk_options (stack_depth o) (caller o) (atoi optarg)
                 (number_to_show o), ""%string).
Proof. reflexivity. Qed.

(** Outside 0..6, the switch of [dump_data] ranks on the total. *)
Lemma dump_select_default (sort_option : Z) :
  sort_option < 0 \/ 6 < sort_option -> dump_select sort_option = sort_aq_spin.
Proof.
  intros H. destruct sort_option as [|p|p]; [lia | | reflexivity].
  do 4 (try (destruct p as [p|p|]; try reflexivity; try lia)).
Qed.

(** C3. With no sort option given, [sort_on] is 6 and [dump_data] ranks
    with [sort_aq_average]; the text of [usage] names 7, the total, as the
    default.  On [sample_file] the report lists [zoo+10] before [foo+10],
    whose total is the larger one. *)
Theorem default_sort_is_average :
  sort_on initial_options = 6 /\
  dump_select (sort_on initial_options) = sort_aq_average /\
  comparator_field (dump_select (sort_on initial_options)) = ACQ_DATA_HOLD_AVG /\
  In "		7: # ACQs total time (AVG * count), default"%string (usage_lines prog) /\
  main 100 prog [] sample_file
  = mk_outcome (Returned 0)
      [header_line; entry_line "    zoo+10" zoo_ranked;
       entry_line "    foo+10" foo_ranked] "" /\
  dget zoo_ranked ACQ_DATA_TOTAL_TIME < dget foo_ranked ACQ_DATA_TOTAL_TIME.
Proof.
  split; [reflexivity|]. split; [reflexivity|]. split; [reflexivity|].
  split; [simpl; tauto|]. split; [vm_compute; reflexivity | reflexivity].
Qed.

(** C4. The sort code 8 is replaced by 6 with the diagnostic, and the
    report on [sample_file] is ranked on the average; the sort code 7 is
    treated the same way; the sort code -1 is kept, without a diagnostic, and
    ranks on the total. *)
Theorem out_of_range_sort_code :
  handle_option prog "S" "8" initial_options
  = Done (mk_options 1 None 6 999999, invalid_sort_option) /\
  dump_select 6 = sort_aq_average /\
  main 100 prog [("S"%char, "8"%string)] sample_file
  = mk_outcome (Returned 0)
      [header_line; entry_line "    zoo+10" zoo_ranked;
       entry_line "    foo+10" foo_ranked] invalid_sort_option /\
  handle_option prog "S" "7" initial_options
  = Done (mk_options 1 None 6 999999, invalid_sort_option) /\
  handle_option prog "S" "-1" initial_options
  = Done (mk_options 1 None (-1) 999999, ""%string) /\
  dump_select (-1) = sort_aq_spin.
Proof.
  repeat split; vm_compute; reflexivity.
Qed.

(** C1. The scenario of two stacks attributed to the same caller, one
    with 10 acquisitions of average 100 and one with 30 of average 300,
    evaluated on [organize_data]: whichever of the two the sort puts first is
    lost, and the consolidated entry holds the figures of the other one alone
    (30 and 300, or 10 and 100), not 40 and 250, which is what folding both
    stacks gives.  Run from a data file with the two stacks, the report has
    the row of 30 and 300. *)
Theorem two_stacks_one_caller_consolidated :
  spec_consolidate [stack_A; stack_B]
  = Some [mk_lock_info "" "foo+10:" [250; 0; 40; 0; 0; 0; 0; 0]] /\
  option_map cons_entries (organize_data [stack_A; stack_B])
  = Some [mk_lock_info "" "foo+10:" [300; 0; 30; 0; 0; 0; 0; 0]] /\
  option_map cons_entries (organize_data [stack_B; stack_A])
  = Some [mk_lock_info "" "foo+10:" [100; 0; 10; 0; 0; 0; 0; 0]] /\
  main 100 prog [] two_stack_file
  = mk_outcome (Returned 0)
      [header_line;
       entry_line "    foo+10"
         (mk_lock_info "" "    foo+10:" [300; 0; 30; 9000; 0; 0; 0; 0])] "".
Proof.
  split; [reflexivity|]. split; [reflexivity|]. split; [reflexivity|].
  vm_compute. reflexivity.
Qed.

(** C2. A store with a single stack consolidates, when the fold of the
    stack does not trap, to no entry at all, and a store with two stacks of
    different callers to a single entry: the caller that sorts first has
    none.  Run from a data file with one stack, the report has the header and
    no row. *)
Theorem consolidation_misses_first_caller :
  (forall w cs, organize_data [w] = Some cs -> cons_entries cs = []) /\
  option_map (fun cs => map called_from (cons_entries cs))
             (organize_data [stack_A; stack_C])
  = Some ["foo+10:"%string] /\
  main 100 prog [] one_stack_file = mk_outcome (Returned 0) [header_line] "".
Proof.
  split; [|split].
  - intros w cs. apply organize_single.
  - reflexivity.
  - vm_compute. reflexivity.
Qed.

(** ** The statements on the example files *)

(** [sample_file] is read to the end, into [sample_store]. *)
Example lookup_sample_file : lookup_data 100 sample_file 1 = Done sample_store.
Proof. vm_compute. reflexivity. Qed.

(** The stack of [repeated_file] is met three times and has one entry; its
    count is the sum of the two values of the count section, and its maximum
    is the zero [atoll] makes of ["abc"]. *)
Example lookup_repeated_file :
  lookup_data 100 repeated_file 1
  = Done [mk_lock_info "    mutex_lock+1     foo+10:    a+2 " "    foo+10:"
            [0; 0; 40; 0; 0; 0; 0; 0]]
  /\ stacks_read 100 repeated_file 1
     = Done ["    mutex_lock+1     foo+10:    a+2 ";
             "    mutex_lock+1     foo+10:    a+2 ";
             "    mutex_lock+1     foo+10:    a+2 "]%string.
Proof. split; vm_compute; reflexivity. Qed.


Lemma malformed_line_is_fatal_witness :
  read_data_body 1 (mk_rd_state "    foo+10" "" "" "" 0 false)
  = Exited 1 ("malformed line: " ++ "    foo+10" ++ String "010" "") /\
  read_data_body 1
    (mk_rd_state ("] 100" ++ line_end) "" "    foo+10:"
       "    mutex_lock+1     foo+10:" 1 true)
  = Exited 1 ("malformed line: " ++ "] 100 " ++ String "010" "") /\
  main 100 prog [] truncated_file
  = mk_outcome (Returned 1) []
      ("malformed line: " ++ "    foo+10" ++ String "010" "") /\
  main 100 prog [] no_colon_file
  = mk_outcome (Returned 1) [] ("malformed line: " ++ "] 100 " ++ String "010" "").
Proof.
  destruct malformed_line_is_fatal as [H1 [H2 [H3 [H4 [H5 H6]]]]].
  split; [|split; [|split]].
  - apply (H1 1 (mk_rd_state "    foo+10" "" "" "" 0 false) "    foo+10"%string
             ""%string); reflexivity.
  - apply (H3 1 (mk_rd_state ("] 100" ++ line_end) "" "    foo+10:"
                   "    mutex_lock+1     foo+10:" 1 true)
             ("] 100" ++ line_end)%string ""%string 5%nat); reflexivity.
  - apply (H6 100%nat prog [] truncated_file initial_options ""%string
             1 ("malformed line: " ++ "    foo+10" ++ String "010" "")%string).
    + reflexivity.
    + vm_compute. reflexivity.
  - apply (H6 100%nat prog [] no_colon_file initial_options ""%string
             1 ("malformed line: " ++ "] 100 " ++ String "010" "")%string).
    + reflexivity.
    + vm_compute. reflexivity.
Defined.

(** A line that starts a stack is not checked for its newline: at the end
    of the file the loop reads it again and again. *)
Lemma start_line_loops {Store : Type}
  (record : string -> string -> nat -> Z -> Store -> Store)
  (fuel index : nat) (sdepth : Z) :
  forall st store,
    fd st = EmptyString -> buffer st = "@aq_report_avg["%string ->
    read_data_loop record fuel index sdepth st store = OutOfFuel.
Proof.
  induction fuel as [|fuel IH]; intros st store Hf Hb; [reflexivity|].
  cbn [read_data_loop]. unfold read_data_body. rewrite Hf, Hb. simpl.
  apply IH; reflexivity.
Qed.

Example start_line_file_loops (fuel : nat) :
  lookup_data fuel start_line_file 1 = OutOfFuel.
Proof.
  unfold lookup_data, lookup, read_data.
  destruct fuel as [|fuel]; [reflexivity|].
  cbn [read_data_loop].
  replace (read_data_body 1 _)
    with (Done (Continue (mk_rd_state "" "@aq_report_avg[" "" "" 0 false)))
    by (vm_compute; reflexivity).
  cbn [bind]. rewrite start_line_loops by reflexivity. reflexivity.
Qed.

(** C9, as stated, fails on two files.  In [swallowed_file] a line that
    starts with [']'] and has no [':'] comes where the line of the calling
    function is expected: it is taken for that line, the file is read to its
    end, and the run returns 0 with a report whose row is named after it.
    [start_line_file] ends on a line without newline that starts a stack:
    the line is not handed to [remove_new_line], and the run never ends. *)
Lemma malformed_line_read_on_counterexample :
  main 100 prog [] swallowed_file
  = mk_outcome (Returned 0)
      [header_line;
       entry_line "] 100" (mk_lock_info "" "] 100:" [0; 0; 0; 0; 0; 0; 0; 0])] "" /\
  (forall fuel, main fuel prog [] start_line_file = mk_outcome Unfinished [] "").
Proof.
  split; [vm_compute; reflexivity|].
  intros fuel. unfold main. cbn [handle_options initial_options stack_depth].
  now rewrite start_line_file_loops.
Qed.

Lemma terminator_value_is_atoll_witness :
  read_data_body 1
    (mk_rd_state ("]: abc" ++ line_end) "" "    foo+10:"
       "    mutex_lock+1     foo+10:" 1 true)
  = Done (Record_entry
            (mk_rd_state "" "]: abc " "    foo+10:"
               "    mutex_lock+1     foo+10:" 0 true)
            (atoll " abc ")) /\
  (exists lock_data',
     read_data_loop add_entry 1 ACQ_DATA_HOLD_MAX 1
       (mk_rd_state ("]: 12" ++ line_end) "" "    foo+10:"
          "    mutex_lock+1     foo+10:" 1 true)
       [mk_lock_info "    mutex_lock+1     foo+10:" "    foo+10:"
          [0; 30; 0; 0; 0; 0; 0; 0]]
     = read_data_loop add_entry 0 ACQ_DATA_HOLD_MAX 1
         (mk_rd_state "" "]: 12 " "    foo+10:"
            "    mutex_lock+1     foo+10:" 0 true)
         lock_data' /\
     metric lock_data' "    mutex_lock+1     foo+10:" ACQ_DATA_HOLD_MAX = 42) /\
  atoll " abc " = 0.
Proof.
  destruct terminator_value_is_atoll as [H1 [H2 H3]].
  split; [|split].
  - apply (H1 1 (mk_rd_state ("]: abc" ++ line_end) "" "    foo+10:"
                   "    mutex_lock+1     foo+10:" 1 true)
             ("]: abc" ++ line_end)%string ""%string 6%nat 1%nat); reflexivity.
  - destruct (H2 0%nat ACQ_DATA_HOLD_MAX 1
                (mk_rd_state ("]: 12" ++ line_end) "" "    foo+10:"
                   "    mutex_lock+1     foo+10:" 1 true)
                ("]: 12" ++ line_end)%string ""%string 5%nat 1%nat
                [mk_lock_info "    mutex_lock+1     foo+10:" "    foo+10:"
                   [0; 30; 0; 0; 0; 0; 0; 0]]
                eq_refl eq_refl eq_refl eq_refl eq_refl eq_refl)
      as [ld' [Hl [Hm _]]].
    + split; [repeat constructor | repeat constructor; simpl; tauto].
    + repeat constructor.
    + unfold ACQ_DATA_HOLD_MAX. lia.
    + exists ld'. split; [exact Hl|]. cbn [stack_in] in Hm. rewrite Hm.
      reflexivity.
  - apply H3. reflexivity.
Defined.

(** C10, as stated, fails for two lines that start with [']'] and have a
    [':'].  The first also has ["[]"] in it: the loop takes it for an empty
    entry and skips it.  The second comes where the line of the calling
    function is expected: it is taken for that line and becomes the key.
    Neither is converted, and no entry is added. *)
Lemma terminator_not_converted_counterexample :
  read_data_body 1
    (mk_rd_state ("]: 7 []" ++ line_end) "" "    foo+10:"
       "    mutex_lock+1     foo+10:" 1 true)
  = Done (Continue
            (mk_rd_state "" ("]: 7 []" ++ line_end) "    foo+10:"
               "    mutex_lock+1     foo+10:" 1 true)) /\
  read_data_body 1
    (mk_rd_state (text ["    mutex_lock+1"; "]: 7"]) "@aq[" "" "" 0 false)
  = Done (Continue
            (mk_rd_state "" "]: 7:" "]: 7:" "    mutex_lock+1 ]: 7:" 1 true)).
Proof.
  split; reflexivity.
Qed.

(** ** Remarks on the limits of the statements above *)

(** The fields of an entry after a fold step, for an entry with its eight
    fields: counts added, averages weighted by the counts and divided under
    the guard, maxima raised. *)
Lemma merge_average_fields (a c : nat) (e w e' : lock_info) :
  a <> c -> (a < List.length (data e))%nat -> (c < List.length (data e))%nat ->
  merge_average a c e w = Some e' ->
  List.length (data e') = List.length (data e) /\
  dget e' c = add64 (dget e c) (dget w c) /\
  dget e' a =
    (if add64 (dget e c) (dget w c) =? 0 then dget e a
     else wrap64 (Z.quot (add64 (mul64 (dget e a) (dget e c))
                                (mul64 (dget w a) (dget w c)))
                         (add64 (dget e c) (dget w c)))).
Proof.
  intros Hac Ha Hc. unfold merge_average.
  rewrite (dget_dset_same e c _ Hc).
  destruct (Z.eqb_spec (add64 (dget e c) (dget w c)) 0) as [Hz|Hz].
  - intros H. inversion H; subst e'. unfold dset at 1. simpl.
    rewrite length_upd, (dget_dset_same e c _ Hc), Hz.
    rewrite dget_dset_other by congruence. auto.
  - destruct (div64 _ _) as [q|] eqn:D; [|discriminate].
    apply div64_some in D. subst q.
    simpl. intros H. inversion H; subst e'.
    unfold dset at 1 2. simpl. rewrite !length_upd.
    split; [reflexivity|]. split.
    + rewrite dget_dset_other by congruence. now apply dget_dset_same.
    + apply dget_dset_same. unfold dset. simpl. now rewrite length_upd.
Qed.

Lemma raise_max_fields (m : nat) (e w : lock_info) :
  (m < List.length (data e))%nat ->
  List.length (data (raise_max m e w)) = List.length (data e) /\
  dget (raise_max m e w) m = Z.max (dget e m) (dget w m).
Proof.
  intros Hm. unfold raise_max.
  destruct (Z.ltb_spec (dget e m) (dget w m)) as [H|H].
  - unfold dset at 1. simpl. rewrite length_upd, dget_dset_same by exact Hm.
    split; [reflexivity | lia].
  - split; [reflexivity | lia].
Qed.

Lemma add_things_up_fields (entry_add wptr e : lock_info) :
  List.length (data entry_add) = 8%nat ->
  add_things_up entry_add wptr = Some e ->
  let merged c := add64 (dget entry_add c) (dget wptr c) in
  let average a c :=
    if merged c =? 0 then dget entry_add a
    else wrap64 (Z.quot (add64 (mul64 (dget entry_add a) (dget entry_add c))
                               (mul64 (dget wptr a) (dget wptr c)))
                        (merged c)) in
  dget e ACQ_DATA_HOLD_COUNT = merged ACQ_DATA_HOLD_COUNT /\
  dget e ACQ_DATA_HOLD_AVG = average ACQ_DATA_HOLD_AVG ACQ_DATA_HOLD_COUNT /\
  dget e ACQ_DATA_HOLD_MAX
  = Z.max (dget entry_add ACQ_DATA_HOLD_MAX) (dget wptr ACQ_DATA_HOLD_MAX) /\
  dget e HD_DATA_HOLD_COUNT = merged HD_DATA_HOLD_COUNT /\
  dget e HD_DATA_HOLD_AVG = average HD_DATA_HOLD_AVG HD_DATA_HOLD_COUNT /\
  dget e HD_DATA_HOLD_MAX
  = Z.max (dget entry_add HD_DATA_HOLD_MAX) (dget wptr HD_DATA_HOLD_MAX).
Proof.
  intros Hlen He. rewrite add_things_up_eq in He.
  destruct (merge_average ACQ_DATA_HOLD_AVG ACQ_DATA_HOLD_COUNT entry_add wptr)
    as [e1|] eqn:H1; [|discriminate].
  destruct (merge_average HD_DATA_HOLD_AVG HD_DATA_HOLD_COUNT e1 wptr)
    as [e2|] eqn:H2; [|discriminate].
  inversion He; subst e; clear He.
  destruct (merge_average_fields ACQ_DATA_HOLD_AVG ACQ_DATA_HOLD_COUNT
              entry_add wptr e1 ltac:(field_neq)
              ltac:(rewrite Hlen; unfold ACQ_DATA_HOLD_AVG; lia)
              ltac:(rewrite Hlen; unfold ACQ_DATA_HOLD_COUNT; lia) H1)
    as [L1 [C1 A1]].
  destruct (merge_average_fields HD_DATA_HOLD_AVG HD_DATA_HOLD_COUNT
              e1 wptr e2 ltac:(field_neq)
              ltac:(rewrite L1, Hlen; unfold HD_DATA_HOLD_AVG; lia)
              ltac:(rewrite L1, Hlen; unfold HD_DATA_HOLD_COUNT; lia) H2)
    as [L2 [C2 A2]].
  destruct (raise_max_fields ACQ_DATA_HOLD_MAX e2 wptr
              ltac:(rewrite L2, L1, Hlen; unfold ACQ_DATA_HOLD_MAX; lia))
    as [L3 M3].
  destruct (raise_max_fields HD_DATA_HOLD_MAX (raise_max ACQ_DATA_HOLD_MAX e2 wptr)
              wptr ltac:(rewrite L3, L2, L1, Hlen; unfold HD_DATA_HOLD_MAX; lia))
    as [L4 M4].
  assert (O1 : forall j, j <> ACQ_DATA_HOLD_AVG -> j <> ACQ_DATA_HOLD_COUNT ->
                         dget e1 j = dget entry_add j)
    by (intros; eapply merge_average_other; eauto).
  assert (O2 : forall j, j <> HD_DATA_HOLD_AVG -> j <> HD_DATA_HOLD_COUNT ->
                         dget e2 j = dget e1 j)
    by (intros; eapply merge_average_other; eauto).
  cbv zeta. repeat split.
  - rewrite !raise_max_other by field_neq. rewrite O2 by field_neq. exact C1.
  - rewrite !raise_max_other by field_neq. rewrite O2 by field_neq. exact A1.
  - rewrite raise_max_other by field_neq. rewrite M3.
    rewrite O2, O1 by field_neq. reflexivity.
  - rewrite !raise_max_other by field_neq. rewrite C2.
    rewrite O1 by field_neq. reflexivity.
  - rewrite !raise_max_other by field_neq. rewrite A2.
    rewrite !O1 by field_neq. reflexivity.
  - rewrite M4. rewrite raise_max_other by field_neq.
    rewrite O2, O1 by field_neq. reflexivity.
Qed.


(** ** The bound of the model *)

Section ReaderFuel.

Context {Store : Type}.
Variable record : string -> string -> nat -> Z -> Store -> Store.

(** A loop that ends within the bound ends the same way under any larger
    bound. *)
Lemma read_data_loop_more_fuel (fuel : nat) (index : nat) (sdepth : Z) :
  forall fuel' st store,
    (fuel <= fuel')%nat ->
    read_data_loop record fuel index sdepth st store <> OutOfFuel ->
    read_data_loop record fuel' index sdepth st store
    = read_data_loop record fuel index sdepth st store.
Proof.
  induction fuel as [|fuel IH]; intros fuel' st store Hle Hne.
  - exfalso. apply Hne. reflexivity.
  - destruct fuel' as [|fuel']; [lia|]. simpl in *.
    destruct (read_data_body sdepth st) as [[st'|st'|st' v]|s d| |]; simpl in *;
      try reflexivity; apply IH; auto; lia.
Qed.

Lemma read_data_more_fuel (fuel fuel' : nat) (file : string) (index : nat)
  (sdepth : Z) (store : Store) :
  (fuel <= fuel')%nat ->
  read_data record fuel file index sdepth store <> OutOfFuel ->
  read_data record fuel' file index sdepth store
  = read_data record fuel file index sdepth store.
Proof.
  unfold read_data. intros Hle Hne.
  rewrite (read_data_loop_more_fuel fuel index sdepth fuel' _ store Hle);
    [reflexivity|].
  intros E. apply Hne. now rewrite E.
Qed.

Lemma lookup_more_fuel (fuel fuel' : nat) (file : string) (sdepth : Z)
  (store : Store) :
  (fuel <= fuel')%nat ->
  lookup record fuel file sdepth store <> OutOfFuel ->
  lookup record fuel' file sdepth store = lookup record fuel file sdepth store.
Proof.
  unfold lookup. intros Hle.
  repeat match goal with
         | |- bind (read_data record fuel ?f ?i sdepth ?s) _ <> OutOfFuel -> _ =>
             let E := fresh "E" in
             let H := fresh "H" in
             intros H;
             assert (E : read_data record fuel f i sdepth s <> OutOfFuel)
               by (intros E; apply H; rewrite E; reflexivity);
             rewrite (read_data_more_fuel fuel fuel' f i sdepth s Hle E);
             destruct (read_data record fuel f i sdepth s) as [[? ?]| ? ?| |];
             simpl in *; try reflexivity; try (exfalso; apply E; reflexivity);
             revert H
         end.
Qed.

End ReaderFuel.

(** What [lookup_data] returns does not depend on the bound, once the bound
    is large enough for the file to be read. *)
Lemma lookup_data_more_fuel (fuel fuel' : nat) (file : string) (sdepth : Z) :
  (fuel <= fuel')%nat ->
  lookup_data fuel file sdepth <> OutOfFuel ->
  lookup_data fuel' file sdepth = lookup_data fuel file sdepth.
Proof. apply lookup_more_fuel. Qed.

(** ** The keys the parser builds, and runs that do not trap *)

Lemma strrchr_app_space (s : string) :
  exists i, strrchr (s ++ " ") " " = Some i.
Proof.
  induction s as [|c s [i Hi]]; simpl.
  - eauto.
  - rewrite Hi. eauto.
Qed.

Lemma ends_with_colon_app (a b : string) :
  b <> EmptyString -> ends_with_colon b = true -> ends_with_colon (a ++ b) = true.
Proof.
  intros Hne Hb. induction a as [|c a IH]; simpl; [exact Hb|].
  destruct (a ++ b)%string eqn:E; [|exact IH].
  destruct a; simpl in E; [contradiction | discriminate].
Qed.

Lemma colon_at_last_space_ends (b b' : string) :
  colon_at_last_space b = Done b' ->
  b' <> EmptyString /\ ends_with_colon b' = true.
Proof.
  unfold colon_at_last_space. destruct (strrchr b " ") as [i|]; [|discriminate].
  intros H. inversion H; subst b'. split.
  - destruct (take i b); discriminate.
  - apply ends_with_colon_app; [discriminate | reflexivity].
Qed.

Lemma colon_at_last_space_done (s : string) :
  exists b', colon_at_last_space (s ++ " ") = Done b'.
Proof.
  unfold colon_at_last_space. destruct (strrchr_app_space s) as [i ->]. eauto.
Qed.

Lemma remove_new_line_done (b b' : string) :
  remove_new_line b = Done b' -> exists s, b' = (s ++ " ")%string.
Proof.
  unfold remove_new_line. destruct (strchr b nl) as [i|]; [|discriminate].
  intros H. inversion H. eauto.
Qed.

(** One iteration keeps the key closed, completes a stack only with a
    closed key, and does not go through a null pointer. *)
Lemma read_data_body_keys (sdepth : Z) (st : rd_state) :
  key_inv st ->
  match read_data_body sdepth st with
  | Done (Break st') => key_inv st'
  | Done (Continue st') => key_inv st'
  | Done (Record_entry st' _) =>
      key_inv st' /\ ends_with_colon (func_called st') = true
  | Exited _ _ => True
  | Fault => False
  | OutOfFuel => False
  end.
Proof.
  unfold key_inv, read_data_body. intros J.
  destruct (fgets (buffer st) 1024 (fd st)) as [b f]. simpl.
  destruct (Ascii.eqb (first_char b) "="); [exact J|].
  destruct (strstr b "[]"); [exact J|].
  destruct (Ascii.eqb (first_char b) "@"); [simpl; discriminate|].
  destruct (remove_new_line b) as [b1| | |] eqn:R; simpl; try exact I;
    try (unfold remove_new_line in R; destruct (strchr b nl); discriminate).
  destruct (remove_new_line_done _ _ R) as [s1 ->].
  destruct (have_function st) eqn:Hh; simpl.
  - destruct (Ascii.eqb (first_char (s1 ++ " ")) "]").
    + destruct (strchr (s1 ++ " ") ":"); simpl; auto.
    + destruct (depth st <? sdepth); simpl; [|exact J].
      destruct (colon_at_last_space_done s1) as [b2 Hb2]. rewrite Hb2. simpl.
      intros _. destruct (colon_at_last_space_ends _ _ Hb2) as [Hne He].
      apply ends_with_colon_app; assumption.
  - destruct (fgets (s1 ++ " ") 1024 f) as [b2 f2]. simpl.
    destruct (remove_new_line b2) as [b3| | |] eqn:R2; simpl; try exact I;
      try (unfold remove_new_line in R2; destruct (strchr b2 nl); discriminate).
    destruct (remove_new_line_done _ _ R2) as [s3 ->].
    destruct (colon_at_last_space_done s3) as [b4 Hb4]. rewrite Hb4. simpl.
    intros _. now destruct (colon_at_last_space_ends _ _ Hb4).
Qed.

Section ReaderKeys.

Context {Store : Type}.
Variable record : string -> string -> nat -> Z -> Store -> Store.
Variable P : Store -> Prop.
Hypothesis record_keeps :
  forall stk cf i v s, ends_with_colon cf = true -> P s -> P (record stk cf i v s).

Lemma read_data_loop_keys (fuel index : nat) (sdepth : Z) :
  forall st store,
    key_inv st -> P store ->
    match read_data_loop record fuel index sdepth st store with
    | Done r => P (snd r)
    | Fault => False
    | _ => True
    end.
Proof.
  induction fuel as [|fuel IH]; intros st store J Hp; simpl; [exact I|].
  pose proof (read_data_body_keys sdepth st J) as Hb.
  destruct (read_data_body sdepth st) as [[st'|st'|st' v]|s d| |]; simpl.
  - exact Hp.
  - now apply IH.
  - destruct Hb as [J' Hk]. apply IH; auto.
  - exact I.
  - exact Hb.
  - exact I.
Qed.

Lemma read_data_keys (fuel : nat) (file : string) (index : nat) (sdepth : Z)
  (store : Store) :
  P store ->
  match read_data record fuel file index sdepth store with
  | Done r => P (snd r)
  | Fault => False
  | _ => True
  end.
Proof.
  intros Hp. unfold read_data.
  pose proof (read_data_loop_keys fuel index sdepth
                (mk_rd_state file "" "" "" 0 false) store
                ltac:(unfold key_inv; simpl; discriminate) Hp) as H.
  destruct (read_data_loop record fuel index sdepth _ store); simpl; auto.
Qed.

Lemma lookup_keys (fuel : nat) (file : string) (sdepth : Z) (store : Store) :
  P store ->
  match lookup record fuel file sdepth store with
  | Done s => P s
  | Fault => False
  | _ => True
  end.
Proof.
  intros Hp. unfold lookup.
  repeat match goal with
         | Hs : P ?s |- context [bind (read_data record fuel ?f ?i sdepth ?s) _] =>
             let H := fresh "H" in
             pose proof (read_data_keys fuel f i sdepth s Hs) as H;
             destruct (read_data record fuel f i sdepth s) as [[? ?]| ? ?| |];
             simpl in *; auto; clear Hs
         end.
Qed.

End ReaderKeys.

Lemma add_entry_keys (stack_in func_called : string) (index : nat) (value : Z)
  (lock_data : list lock_info) :
  store_inv lock_data -> ends_with_colon func_called = true ->
  keys_ok lock_data ->
  keys_ok (add_entry stack_in func_called index value lock_data).
Proof.
  unfold keys_ok. intros Hinv Hc Hk.
  destruct (in_dec string_dec stack_in (map stack lock_data)) as [Hin|Hnin].
  - destruct (add_entry_present stack_in func_called index value lock_data Hinv Hin)
      as [i [r [Hn [Hs ->]]]].
    apply Forall_upd; [exact Hk|]. simpl.
    rewrite Forall_forall in Hk. apply Hk. eapply nth_error_In; eauto.
  - rewrite (add_entry_absent stack_in func_called index value lock_data Hinv Hnin).
    eapply Permutation_Forall; [apply qsort_perm|].
    apply Forall_app. split; [exact Hk|]. constructor; [exact Hc | constructor].
Qed.

(** [lookup_data] does not go through a null pointer, and the keys of what
    it returns are closed by [':']. *)
Lemma lookup_data_keys (fuel : nat) (file : string) (sdepth : Z) :
  match lookup_data fuel file sdepth with
  | Done lock_data => keys_ok lock_data
  | Fault => False
  | _ => True
  end.
Proof.
  pose proof (lookup_keys add_entry (fun ld => store_inv ld /\ keys_ok ld)) as L.
  specialize (L ltac:(intros stk cf i v s Hc [Hi Hk]; split;
                        [now apply add_entry_inv | now apply add_entry_keys])
                fuel file sdepth [] (conj store_inv_nil (Forall_nil _))).
  unfold lookup_data. destruct (lookup add_entry fuel file sdepth []); auto.
  exact (proj2 L).
Qed.

Lemma keys_ok_nth (l : list lock_info) (i : nat) :
  keys_ok l -> ends_with_colon (called_from (nth i l zero_info)) = true.
Proof.
  unfold keys_ok. intros H. destruct (nth_in_or_default i l zero_info) as [Hin | ->].
  - rewrite Forall_forall in H. now apply H.
  - reflexivity.
Qed.

Lemma organize_body_keys (count : nat) (wptr : lock_info) (cs cs' : cons_store) :
  keys_ok (cons_data cs) -> ends_with_colon (called_from wptr) = true ->
  organize_body count wptr cs = Some cs' ->
  keys_ok (cons_data cs').
Proof.
  intros Hk Hw. unfold organize_body.
  assert (H1 : keys_ok (cons_data (fst (fst
            (if (count =? 0)%nat
             then (mk_cons_store [zero_info] (number_cons_entries cs), O, true)
             else match bsearch locate_caller (called_from wptr)
                          (cons_data cs) (number_cons_entries cs) with
                  | Some i => (cs, i, false)
                  | None =>
                      (mk_cons_store
                         (realloc (cons_data cs) (S (number_cons_entries cs)))
                         (S (number_cons_entries cs)),
                       (S (number_cons_entries cs) - 1)%nat, true)
                  end))))).
  { destruct (count =? 0)%nat; simpl.
    - repeat constructor.
    - destruct (bsearch _ _ _ _); simpl; [exact Hk|].
      unfold realloc, keys_ok. apply Forall_app. split.
      + now apply Forall_firstn_keeps.
      + apply Forall_forall. intros x Hx. apply repeat_spec in Hx. now subst. }
  destruct (if (count =? 0)%nat then _ else _) as [[cs1 i] b]. simpl in H1.
  set (arr := if b then upd i _ (cons_data cs1) else cons_data cs1).
  assert (Harr : keys_ok arr).
  { unfold arr. destruct b; [|exact H1]. apply Forall_upd; [exact H1 | exact Hw]. }
  destruct (add_things_up (nth i arr zero_info) wptr) as [e|] eqn:He;
    [|discriminate].
  intros H. inversion H; subst cs'. simpl.
  apply Forall_upd; [exact Harr|].
  rewrite (add_things_up_called_from _ _ _ He). now apply keys_ok_nth.
Qed.

Lemma organize_loop_keys (entries : list lock_info) :
  keys_ok entries ->
  forall count cs cs',
    keys_ok (cons_data cs) ->
    organize_loop count entries cs = Some cs' ->
    keys_ok (cons_data cs').
Proof.
  induction 1 as [|w entries Hw Hall IH]; intros count cs cs' Hk; simpl.
  - intros H. now inversion H; subst.
  - destruct (organize_body count w cs) as [cs1|] eqn:Hb; [|discriminate].
    apply IH. eapply organize_body_keys; eauto.
Qed.

Lemma organize_data_keys (lock_data : list lock_info) (cs : cons_store) :
  keys_ok lock_data -> organize_data lock_data = Some cs ->
  keys_ok (cons_entries cs).
Proof.
  intros Hk H. unfold cons_entries. apply Forall_firstn_keeps.
  eapply (organize_loop_keys (qsort sort_func lock_data)); eauto.
  - eapply Permutation_Forall; [apply qsort_perm | exact Hk].
  - constructor.
Qed.

(** X18. The report never goes on from a null pointer: on what the
    consolidation leaves of a file that was read to its end, whatever the
    filter, the sort code and the number of rows, [dump_data] writes the
    header line and its rows and returns.  The keys the reader builds all end
    with [':'], the consolidation keeps them, and so the loop over the frames
    of a key always finds the [':'] it looks for. *)
Theorem report_never_faults (fuel : nat) (file : string) (sdepth : Z)
  (lock_data : list lock_info) (cs : cons_store)
  (caller : option string) (sort_option numb_to_show : Z) :
  lookup_data fuel file sdepth = Done lock_data ->
  organize_data lock_data = Some cs ->
  exists lines,
    dump_data caller sort_option numb_to_show cs = Done (header_line :: lines).
Proof.
  intros Hl Hc.
  pose proof (lookup_data_keys fuel file sdepth) as Hk. rewrite Hl in Hk.
  pose proof (organize_data_keys lock_data cs Hk Hc) as Hkc.
  unfold dump_data.
  destruct (dump_loop_blocks caller
              (firstn (row_limit numb_to_show (number_cons_entries cs))
                      (ranked sort_option cs))) as [blocks [Hd _]].
  { apply Forall_firstn_keeps.
    eapply Permutation_Forall; [apply ranked_perm|].
    unfold keys_ok in Hkc. rewrite Forall_map. exact Hkc. }
  rewrite Hd. cbn [bind]. eauto.
Qed.

Lemma report_never_faults_witness :
  exists lines,
    dump_data (Some "foo+10"%string) 3 (-1) two_callers
    = Done (header_line :: lines).
Proof.
  apply (report_never_faults 100 sample_file 1 sample_store two_callers
           (Some "foo+10"%string) 3 (-1)).
  - vm_compute. reflexivity.
  - vm_compute. reflexivity.
Defined.

(** ** What [organize_data] consolidates *)

Lemma find_index_none {A : Type} (f : A -> bool) (l : list A) :
  (forall x, In x l -> f x = false) -> find_index f l = None.
Proof.
  induction l as [|x l IH]; intros H; simpl; [reflexivity|].
  rewrite (H x) by now left. rewrite IH; [reflexivity|].
  intros y Hy. apply H. now right.
Qed.

Lemma find_index_key (k : string) (l : list lock_info) (i : nat) (p : lock_info) :
  NoDup (map called_from l) -> nth_error l i = Some p -> called_from p = k ->
  find_index (fun e => String.eqb (called_from e) k) l = Some i.
Proof.
  revert i. induction l as [|x l IH]; intros [|i] Hnd Hn Hk; simpl in *;
    try discriminate.
  - inversion Hn; subst x. rewrite Hk. now rewrite String.eqb_refl.
  - inversion Hnd as [|? ? Hx Hnd']; subst.
    destruct (String.eqb_spec (called_from x) (called_from p)) as [E|E].
    + exfalso. apply Hx. rewrite E. apply in_map. eapply nth_error_In; eauto.
    + rewrite (IH i Hnd' Hn eq_refl). reflexivity.
Qed.

Lemma sorted_on_app (kf : lock_info -> string) (l : list lock_info) (x : lock_info) :
  sorted_on kf l -> (forall e, In e l -> strcmp (kf e) (kf x) <= 0) ->
  sorted_on kf (l ++ [x]).
Proof.
  unfold sorted_on. induction 1 as [|y l Hs IH Hall]; intros Hle; simpl.
  - constructor; constructor.
  - constructor.
    + apply IH. intros e He. apply Hle. now right.
    + apply Forall_app. split; [exact Hall|].
      constructor; [|constructor]. apply Hle. now left.
Qed.

Lemma realloc_one_more (acc : list lock_info) :
  realloc acc (S (List.length acc)) = acc ++ [zero_info].
Proof.
  unfold realloc. rewrite firstn_all2 by lia.
  replace (S (List.length acc) - List.length acc)%nat with 1%nat by lia.
  reflexivity.
Qed.

Lemma upd_last (acc : list lock_info) (x y : lock_info) :
  upd (List.length acc) y (acc ++ [x]) = acc ++ [y].
Proof. induction acc as [|a acc IH]; simpl; [reflexivity | now rewrite IH]. Qed.

Lemma nth_last (acc : list lock_info) (x : lock_info) :
  nth (List.length acc) (acc ++ [x]) zero_info = x.
Proof. induction acc as [|a acc IH]; simpl; [reflexivity | exact IH]. Qed.

Lemma cons_entries_full (acc : list lock_info) : cons_entries (full_store acc) = acc.
Proof. unfold cons_entries, full_store. simpl. apply firstn_all. Qed.

(** From the second iteration on, with the store sorted on the key and one
    entry per key, an iteration of the loop is the fold of the design. *)
Lemma organize_body_fold (count : nat) (w : lock_info) (acc : list lock_info) :
  count <> O ->
  sorted_on called_from acc -> NoDup (map called_from acc) ->
  organize_body count w (full_store acc)
  = option_map full_store (spec_fold_into acc w).
Proof.
  intros Hc Hs Hnd. unfold organize_body, spec_fold_into, full_store.
  destruct (Nat.eqb_spec count 0) as [E|_]; [contradiction|].
  cbn [cons_data number_cons_entries].
  destruct (bsearch locate_caller (called_from w) acc (List.length acc))
    as [i|] eqn:Hb.
  - destruct (bsearch_sound called_from (called_from w) acc i Hb) as [p [Hp Hk]].
    rewrite (find_index_key (called_from w) acc i p Hnd Hp Hk).
    cbn [cons_data number_cons_entries].
    destruct (add_things_up (nth i acc zero_info) w) as [e|]; cbn [option_map];
      [|reflexivity].
    now rewrite length_upd.
  - pose proof (bsearch_complete called_from (called_from w) acc Hs Hb) as Hnin.
    rewrite find_index_none.
    2:{ intros x Hx. apply String.eqb_neq. intros E. apply Hnin.
        rewrite <- E. now apply in_map. }
    rewrite realloc_one_more. cbn [cons_data number_cons_entries].
    replace (S (List.length acc) - 1)%nat with (List.length acc) by lia.
    change (mk_lock_info (stack zero_info) (called_from w) (data zero_info))
      with (new_entry w).
    rewrite upd_last, nth_last.
    destruct (add_things_up (new_entry w) w) as [e|]; cbn [option_map];
      [|reflexivity].
    rewrite upd_last, length_app, Nat.add_comm. reflexivity.
Qed.

(** The fold keeps the store sorted, with one entry per key, and adds no
    key but the one of the stack. *)
Lemma fold_into_inv (acc acc' : list lock_info) (w : lock_info) :
  sorted_on called_from acc -> NoDup (map called_from acc) ->
  (forall e, In e acc -> strcmp (called_from e) (called_from w) <= 0) ->
  spec_fold_into acc w = Some acc' ->
  sorted_on called_from acc' /\ NoDup (map called_from acc') /\
  (forall k, In k (map called_from acc') ->
             k = called_from w \/ In k (map called_from acc)).
Proof.
  intros Hs Hnd Hle. unfold spec_fold_into.
  destruct (find_index _ acc) as [i|] eqn:Hf.
  - destruct (add_things_up (nth i acc zero_info) w) as [e|] eqn:He;
      [|discriminate].
    simpl. intros H. inversion H; subst acc'. clear H.
    assert (Hm : map called_from (upd i e acc) = map called_from acc).
    { apply add_things_up_called_from in He. clear - He.
      revert i He. induction acc as [|x acc IH]; intros [|i] He; simpl in *;
        try reflexivity.
      - now rewrite He.
      - f_equal. now apply IH. }
    split; [|split].
    + eapply sorted_on_keys; [symmetry; exact Hm | exact Hs].
    + now rewrite Hm.
    + intros k. rewrite Hm. auto.
  - destruct (add_things_up (new_entry w) w) as [e|] eqn:He; [|discriminate].
    simpl. intros H. inversion H; subst acc'. clear H.
    apply add_things_up_called_from in He. simpl in He.
    assert (Hnin : ~ In (called_from w) (map called_from acc)).
    { clear - Hf. induction acc as [|x acc IH]; simpl in *; [tauto|].
      destruct (String.eqb_spec (called_from x) (called_from w)) as [E|E];
        [discriminate|].
      destruct (find_index _ acc); [discriminate|].
      intros [H|H]; [contradiction | now apply IH]. }
    split; [|split].
    + apply sorted_on_app; [exact Hs|]. intros x Hx. rewrite He. now apply Hle.
    + rewrite map_app. simpl. rewrite He.
      eapply Permutation_NoDup; [apply Permutation_app_comm|]. simpl.
      now constructor.
    + intros k. rewrite map_app, in_app_iff. simpl. rewrite He. intuition.
Qed.

Lemma organize_loop_fold (stacks : list lock_info) :
  forall count acc,
    count <> O ->
    sorted_on called_from acc -> NoDup (map called_from acc) ->
    StronglySorted (fun a b => strcmp (called_from a) (called_from b) <= 0) stacks ->
    (forall e w, In e acc -> In w stacks ->
                 strcmp (called_from e) (called_from w) <= 0) ->
    option_map cons_entries (organize_loop count stacks (full_store acc))
    = spec_consolidate_from acc stacks.
Proof.
  induction stacks as [|w stacks IH]; intros count acc Hc Hs Hnd Hst Hle; simpl.
  - now rewrite cons_entries_full.
  - rewrite (organize_body_fold count w acc Hc Hs Hnd).
    destruct (spec_fold_into acc w) as [acc'|] eqn:Hf; simpl; [|reflexivity].
    inversion Hst as [|? ? Hst' Hall]; subst.
    destruct (fold_into_inv acc acc' w Hs Hnd
                ltac:(intros e He; apply Hle; [exact He | now left]) Hf)
      as [Hs' [Hnd' Hk']].
    apply IH; auto.
    intros e w' He Hw'.
    assert (Hin : In (called_from e) (map called_from acc')) by now apply in_map.
    destruct (Hk' _ Hin) as [E|Hold].
    + rewrite E. rewrite Forall_forall in Hall. now apply Hall.
    + apply in_map_iff in Hold. destruct Hold as [e0 [E0 He0]].
      rewrite <- E0. apply Hle; [exact He0 | now right].
Qed.

Lemma sort_func_total (a b : lock_info) : 0 < sort_func a b -> sort_func b a <= 0.
Proof. apply strcmp_total. Qed.

Lemma sort_func_trans (a b c : lock_info) :
  sort_func a b <= 0 -> sort_func b c <= 0 -> sort_func a c <= 0.
Proof. apply strcmp_le_trans. Qed.

(** On a list sorted on the key, the loop folds every stack but the first;
    the first is folded into an entry that is given up, and only a trap of
    that fold is left of it. *)
Lemma organize_sorted_tail (stacks : list lock_info) :
  StronglySorted (fun a b => sort_func a b <= 0) stacks ->
  option_map cons_entries (organize_loop 0 stacks (mk_cons_store [] 0))
  = match stacks with
    | [] => Some []
    | w0 :: rest =>
        match add_things_up (new_entry w0) w0 with
        | None => None
        | Some _ => spec_consolidate rest
        end
    end.
Proof.
  intros Hsorted. unfold spec_consolidate.
  destruct stacks as [|w0 rest]; [reflexivity|].
  inversion Hsorted as [|? ? Hrest _]; subst.
  cbn [organize_loop]. rewrite organize_body_first.
  destruct (add_things_up (new_entry w0) w0) as [e0|]; [|reflexivity].
  cbn [option_map].
  destruct rest as [|w1 rest]; [reflexivity|].
  cbn [organize_loop].
  rewrite organize_body_second by discriminate.
  cbn [spec_consolidate_from]. unfold spec_fold_into at 1. cbn [find_index app].
  destruct (add_things_up (new_entry w1) w1) as [e1|] eqn:He1; cbn [option_map];
    [|reflexivity].
  inversion Hrest as [|? ? Hrest' Hall]; subst.
  apply (organize_loop_fold rest 2%nat [e1]); try discriminate.
  - repeat constructor.
  - repeat constructor. simpl. tauto.
  - exact Hrest'.
  - intros e w [<-|[]] Hw.
    rewrite (add_things_up_called_from _ _ _ He1). simpl.
    rewrite Forall_forall in Hall. now apply Hall.
Qed.

(** When the loop is not stopped by a division, what it leaves is the fold
    of every stack but the first. *)
Lemma organize_sorted_tail_done (stacks : list lock_info) (cs : cons_store) :
  StronglySorted (fun a b => sort_func a b <= 0) stacks ->
  organize_loop 0 stacks (mk_cons_store [] 0) = Some cs ->
  spec_consolidate (tl stacks) = Some (cons_entries cs).
Proof.
  intros Hsorted H. pose proof (organize_sorted_tail stacks Hsorted) as T.
  rewrite H in T. cbn [option_map] in T.
  destruct stacks as [|w0 rest]; [symmetry; exact T|].
  destruct (add_things_up (new_entry w0) w0); [symmetry; exact T | discriminate T].
Qed.

(** X9. When [organize_data] is not stopped by a division, it has
    consolidated, as the design describes it, every stack but the one the
    sort on the key puts first: what it leaves in [cons_data] is the fold,
    stack after stack in the order of their keys, of the other stacks into
    the entries of their keys. *)
Theorem organize_data_consolidates_tail (lock_data : list lock_info)
  (cs : cons_store) :
  organize_data lock_data = Some cs ->
  spec_consolidate (tl (qsort sort_func lock_data)) = Some (cons_entries cs).
Proof.
  unfold organize_data. apply organize_sorted_tail_done.
  apply qsort_sorted.
  - apply sort_func_total.
  - apply sort_func_trans.
Qed.

Lemma organize_data_consolidates_tail_witness :
  spec_consolidate (tl (qsort sort_func sample_store))
  = Some (cons_entries two_callers).
Proof.
  apply (organize_data_consolidates_tail sample_store two_callers).
  vm_compute. reflexivity.
Defined.

(** ** Invariants of the reader, in general *)

Section ReaderInv.

Context {S1 S2 : Type}.
Variable record1 : string -> string -> nat -> Z -> S1 -> S1.
Variable record2 : string -> string -> nat -> Z -> S2 -> S2.
Variable R : S1 -> S2 -> Prop.
Variable Inv : rd_state -> Prop.
Variable Q : string -> string -> Z -> Prop.
Variable P : nat -> Prop.

Hypothesis body_keeps :
  forall sdepth st,
    Inv st ->
    match read_data_body sdepth st with
    | Done (Break st') => Inv st'
    | Done (Continue st') => Inv st'
    | Done (Record_entry st' v) => Inv st' /\ Q (stack_in st') (func_called st') v
    | _ => True
    end.
Hypothesis record_rel :
  forall stk cf i v s1 s2,
    Q stk cf v -> P i -> R s1 s2 ->
    R (record1 stk cf i v s1) (record2 stk cf i v s2).
Hypothesis start : forall file, Inv (mk_rd_state file "" "" "" 0 false).
Hypothesis sections : Forall P section_indices.

Lemma read_data_loop_rel_inv (fuel index : nat) (sdepth : Z) :
  P index ->
  forall st s1 s2,
    Inv st -> R s1 s2 ->
    result_rel (fun p q => fst p = fst q /\ R (snd p) (snd q))
      (read_data_loop record1 fuel index sdepth st s1)
      (read_data_loop record2 fuel index sdepth st s2).
Proof.
  intros Hp. induction fuel as [|fuel IH]; intros st s1 s2 Hi HR; simpl;
    [exact I|].
  pose proof (body_keeps sdepth st Hi) as Hb.
  destruct (read_data_body sdepth st) as [[st'|st'|st' v]|status diag| |]; simpl;
    auto.
  destruct Hb as [Hi' Hq]. apply IH; auto.
Qed.

Lemma read_data_rel_inv (fuel : nat) (file : string) (index : nat) (sdepth : Z)
  (s1 : S1) (s2 : S2) :
  P index -> R s1 s2 ->
  result_rel (fun p q => fst p = fst q /\ R (snd p) (snd q))
    (read_data record1 fuel file index sdepth s1)
    (read_data record2 fuel file index sdepth s2).
Proof.
  intros Hp HR. unfold read_data.
  eapply result_rel_bind;
    [apply read_data_loop_rel_inv; [exact Hp | apply start | exact HR]|].
  intros [st1 a] [st2 b] [E Hab]; simpl in *. subst. auto.
Qed.

Lemma lookup_rel_inv (fuel : nat) (file : string) (sdepth : Z) (s1 : S1) (s2 : S2) :
  R s1 s2 ->
  result_rel R (lookup record1 fuel file sdepth s1)
               (lookup record2 fuel file sdepth s2).
Proof.
  intros HR. unfold lookup.
  pose proof sections as Hs. unfold section_indices in Hs.
  repeat match goal with
         | H : Forall P (_ :: _) |- _ => inversion H; subst; clear H
         end.
  eapply result_rel_bind; [apply read_data_rel_inv; eassumption|].
  intros [f1 a1] [f1' b1] [E1 H1']; simpl in *; subst.
  eapply result_rel_bind; [apply read_data_rel_inv; eassumption|].
  intros [f2 a2] [f2' b2] [E2 H2']; simpl in *; subst.
  eapply result_rel_bind; [apply read_data_rel_inv; eassumption|].
  intros [f3 a3] [f3' b3] [E3 H3']; simpl in *; subst.
  eapply result_rel_bind; [apply read_data_rel_inv; eassumption|].
  intros [f4 a4] [f4' b4] [E4 H4']; simpl in *; subst.
  eapply result_rel_bind; [apply read_data_rel_inv; eassumption|].
  intros [f5 a5] [f5' b5] [E5 H5']; simpl in *; subst.
  eapply result_rel_bind; [apply read_data_rel_inv; eassumption|].
  intros [f6 a6] [f6' b6] [E6 H6']; simpl in *; subst.
  assumption.
Qed.

End ReaderInv.

(** ** The values and keys the reader hands to the store *)

Lemma clamp_in_long (z : Z) : in_long (clamp LONG_MIN LONG_MAX z).
Proof. unfold in_long, clamp, LONG_MIN, LONG_MAX. lia. Qed.

Lemma atoll_in_long (s : string) : in_long (atoll s).
Proof.
  unfold atoll, strtoll. destruct (skip_space s) as [|c s']; [apply clamp_in_long|].
  destruct c as [[] [] [] [] [] [] [] []]; apply clamp_in_long.
Qed.

Lemma wrap64_in_long (z : Z) : in_long z -> wrap64 z = z.
Proof.
  unfold in_long, LONG_MIN, LONG_MAX, wrap64. intros H.
  rewrite Z.mod_small; lia.
Qed.

Lemma colon_at_last_space_shape (b b' : string) :
  colon_at_last_space b = Done b' -> exists func, b' = (func ++ ":")%string.
Proof.
  unfold colon_at_last_space. destruct (strrchr b " ") as [i|]; [|discriminate].
  intros H. inversion H. eauto.
Qed.

Lemma string_app_assoc (a b c : string) :
  ((a ++ b) ++ c = a ++ (b ++ c))%string.
Proof. induction a as [|x a IH]; simpl; [reflexivity | now rewrite IH]. Qed.

Lemma string_app_nil_r (a : string) : (a ++ "")%string = a.
Proof. induction a as [|x a IH]; simpl; [reflexivity | now rewrite IH]. Qed.

Lemma key_shape_more (stk cf line b : string) :
  b <> EmptyString -> ends_with_colon b = true ->
  key_shape stk cf -> key_shape (stk ++ line) (cf ++ b).
Proof.
  intros Hne Hb [top [func [rest [more [Hs [Hc He]]]]]].
  exists top, func, (rest ++ line)%string, (more ++ b)%string.
  split; [|split].
  - rewrite Hs. now rewrite !string_app_assoc.
  - rewrite Hc. now rewrite !string_app_assoc.
  - now apply ends_with_colon_app.
Qed.

Lemma key_shape_line (stk cf line : string) :
  key_shape stk cf -> key_shape (stk ++ line) cf.
Proof.
  intros [top [func [rest [more [Hs [Hc He]]]]]].
  exists top, func, (rest ++ line)%string, more.
  split; [|split]; [|assumption|assumption].
  rewrite Hs. now rewrite !string_app_assoc.
Qed.

(** One iteration keeps the shape of the open stack and its key, and
    completes a stack only with a key of that shape and a value in the range
    of [long]. *)
Lemma read_data_body_shape (sdepth : Z) (st : rd_state) :
  shape_inv st ->
  match read_data_body sdepth st with
  | Done (Break st') => shape_inv st'
  | Done (Continue st') => shape_inv st'
  | Done (Record_entry st' v) =>
      shape_inv st' /\
      (fun stk cf v => key_shape stk cf /\ in_long v)
        (stack_in st') (func_called st') v
  | _ => True
  end.
Proof.
  unfold shape_inv, read_data_body. intros J.
  destruct (fgets (buffer st) 1024 (fd st)) as [b f]. simpl.
  destruct (Ascii.eqb (first_char b) "="); [exact J|].
  destruct (strstr b "[]"); [exact J|].
  destruct (Ascii.eqb (first_char b) "@"); [simpl; discriminate|].
  destruct (remove_new_line b) as [b1| | |] eqn:R; simpl; try exact I.
  destruct (remove_new_line_done _ _ R) as [s1 ->].
  destruct (have_function st) eqn:Hh; simpl.
  - destruct (Ascii.eqb (first_char (s1 ++ " ")) "]").
    + destruct (strchr (s1 ++ " ") ":"); simpl; auto.
      split; [exact J | split; [now apply J | apply atoll_in_long]].
    + destruct (depth st <? sdepth); simpl.
      * destruct (colon_at_last_space_done s1) as [b2 Hb2]. rewrite Hb2. simpl.
        intros _. destruct (colon_at_last_space_ends _ _ Hb2) as [Hne He].
        apply key_shape_more; auto.
      * intros _. apply key_shape_line; auto.
  - destruct (fgets (s1 ++ " ") 1024 f) as [b2 f2]. simpl.
    destruct (remove_new_line b2) as [b3| | |] eqn:R2; simpl; try exact I.
    destruct (remove_new_line_done _ _ R2) as [s3 ->].
    destruct (colon_at_last_space_done s3) as [b4 Hb4]. rewrite Hb4. simpl.
    intros _. destruct (colon_at_last_space_ends _ _ Hb4) as [Hne He].
    destruct (colon_at_last_space_shape _ _ Hb4) as [func ->].
    exists s1, func, ""%string, ""%string.
    split; [|split]; [|now rewrite string_app_nil_r | exact He].
    now rewrite string_app_nil_r.
Qed.

Lemma shape_inv_start (file : string) :
  shape_inv (mk_rd_state file "" "" "" 0 false).
Proof. unfold shape_inv. simpl. discriminate. Qed.

(** ** The fields of the store and the entries of the file *)

Lemma section_sum_app (k : string) (idx : nat) (l l' : list (string * nat * Z)) :
  section_sum k idx (l ++ l') = section_sum k idx l + section_sum k idx l'.
Proof.
  induction l as [|[[s i] v] l IH]; simpl; [reflexivity|]. rewrite IH. lia.
Qed.

Lemma section_sum_no_stack (k : string) (idx : nat) (l : list (string * nat * Z)) :
  ~ In k (map (fun e => fst (fst e)) l) -> section_sum k idx l = 0.
Proof.
  induction l as [|[[s i] v] l IH]; simpl; intros H; [reflexivity|].
  destruct (String.eqb_spec s k) as [E|E]; [exfalso; apply H; now left|].
  simpl. apply IH. intros Hin. apply H. now right.
Qed.

Lemma section_sum_no_index (k : string) (idx : nat) (l : list (string * nat * Z)) :
  ~ In idx (map (fun e => snd (fst e)) l) -> section_sum k idx l = 0.
Proof.
  induction l as [|[[s i] v] l IH]; simpl; intros H; [reflexivity|].
  destruct (Nat.eqb_spec i idx) as [E|E]; [exfalso; apply H; now left|].
  rewrite andb_false_r. simpl. apply IH. intros Hin. apply H. now right.
Qed.


Lemma sums_rel_nil : sums_rel [] [].
Proof.
  split; [apply store_inv_nil|]. split; [apply data_ok_nil|].
  split; [intros k; simpl; tauto|]. split; [constructor|].
  intros k idx _. reflexivity.
Qed.

Lemma section_index_lt (i : nat) : In i section_indices -> (i < 8)%nat.
Proof.
  unfold section_indices, ACQ_DATA_HOLD_AVG, ACQ_DATA_HOLD_MAX,
    ACQ_DATA_HOLD_COUNT, HD_DATA_HOLD_AVG, HD_DATA_HOLD_MAX, HD_DATA_HOLD_COUNT.
  simpl. lia.
Qed.

Lemma sums_rel_step (stk cf : string) (i : nat) (v : Z)
  (lock_data : list lock_info) (entries : list (string * nat * Z)) :
  in_long v -> In i section_indices ->
  sums_rel lock_data entries ->
  sums_rel (add_entry stk cf i v lock_data) (note_entry stk cf i v entries).
Proof.
  intros Hv Hi [Hinv [Hd [Hst [Hix Hm]]]]. unfold note_entry.
  pose proof (section_index_lt i Hi) as Hlt.
  split; [now apply add_entry_inv|]. split; [now apply add_entry_data_ok|].
  split; [|split].
  - intros k. rewrite add_entry_stacks by exact Hinv.
    rewrite map_app, in_app_iff. simpl. rewrite Hst. intuition.
  - apply Forall_app. split; [exact Hix|]. constructor; [exact Hi | constructor].
  - intros k idx Hidx. rewrite section_sum_app. simpl.
    destruct (String.eqb_spec stk k) as [Ek|Ek].
    + subst k. destruct (Nat.eqb_spec i idx) as [Ei|Ei]; simpl.
      * subst idx.
        rewrite (add_entry_metric stk cf i v lock_data Hinv Hd Hlt).
        destruct (in_dec string_dec stk (map stack lock_data)) as [Hin|Hnin].
        -- rewrite Hm by exact Hlt. unfold add64.
           rewrite wrap64_add_l. f_equal. lia.
        -- rewrite section_sum_no_stack by (now rewrite <- Hst).
           rewrite Z.add_0_r, Z.add_0_l. symmetry. now apply wrap64_in_long.
      * rewrite add_entry_metric_field_other by (auto; congruence).
        rewrite Hm by exact Hidx. f_equal. lia.
    + simpl. rewrite add_entry_metric_other by assumption.
      rewrite Hm by exact Hidx. f_equal. lia.
Qed.

Lemma lookup_sums (fuel : nat) (file : string) (sdepth : Z) :
  result_rel sums_rel (lookup_data fuel file sdepth) (entries_read fuel file sdepth).
Proof.
  unfold lookup_data, entries_read.
  apply (lookup_rel_inv add_entry note_entry sums_rel shape_inv
           (fun stk cf v => key_shape stk cf /\ in_long v)
           (fun i => In i section_indices)).
  - apply read_data_body_shape.
  - intros stk cf i v s1 s2 [_ Hv] Hi HR. now apply sums_rel_step.
  - apply shape_inv_start.
  - apply Forall_forall. auto.
  - apply sums_rel_nil.
Qed.



(** X3. Reading the file leaves the two total-time fields of every entry at
    zero: no section of the file is stored in them. *)
Theorem totals_are_zero_after_reading (fuel : nat) (file : string) (sdepth : Z)
  (lock_data : list lock_info) :
  lookup_data fuel file sdepth = Done lock_data ->
  Forall (fun r => dget r ACQ_DATA_TOTAL_TIME = 0 /\ dget r HD_DATA_TOTAL_TIME = 0)
         lock_data.
Proof.
  intros H. pose proof (lookup_sums fuel file sdepth) as L. rewrite H in L.
  destruct (entries_read fuel file sdepth) as [entries| | |]; simpl in L;
    try contradiction.
  destruct L as [[_ Hnd] [_ [_ [Hix Hm]]]].
  assert (Hz : forall k idx, (idx < 8)%nat -> ~ In idx section_indices ->
                             metric lock_data k idx = 0).
  { intros k idx Hlt Hn. rewrite Hm by exact Hlt.
    rewrite section_sum_no_index; [reflexivity|].
    intros Hin. apply Hn. apply in_map_iff in Hin. destruct Hin as [e [<- He]].
    rewrite Forall_forall in Hix. now apply Hix. }
  apply Forall_forall. intros r Hr.
  pose proof (find_stack_In lock_data r Hnd Hr) as F.
  split.
  - specialize (Hz (stack r) ACQ_DATA_TOTAL_TIME). unfold metric in Hz.
    rewrite F in Hz. apply Hz; [unfold ACQ_DATA_TOTAL_TIME; lia|].
    unfold section_indices. simpl.
    intros [E|[E|[E|[E|[E|[E|[]]]]]]]; discriminate E.
  - specialize (Hz (stack r) HD_DATA_TOTAL_TIME). unfold metric in Hz.
    rewrite F in Hz. apply Hz; [unfold HD_DATA_TOTAL_TIME; lia|].
    unfold section_indices. simpl.
    intros [E|[E|[E|[E|[E|[E|[]]]]]]]; discriminate E.
Qed.

Lemma totals_are_zero_after_reading_witness :
  Forall (fun r => dget r ACQ_DATA_TOTAL_TIME = 0 /\ dget r HD_DATA_TOTAL_TIME = 0)
         sample_store.
Proof.
  apply (totals_are_zero_after_reading 100 sample_file 1 sample_store).
  vm_compute. reflexivity.
Defined.

Lemma add_entry_fields (P : string -> string -> Prop)
  (stack_in func_called : string) (index : nat) (value : Z)
  (lock_data : list lock_info) :
  store_inv lock_data -> P stack_in func_called ->
  Forall (fun r => P (stack r) (called_from r)) lock_data ->
  Forall (fun r => P (stack r) (called_from r))
         (add_entry stack_in func_called index value lock_data).
Proof.
  intros Hinv Hp Hk.
  destruct (in_dec string_dec stack_in (map stack lock_data)) as [Hin|Hnin].
  - destruct (add_entry_present stack_in func_called index value lock_data Hinv Hin)
      as [i [r [Hn [Hs ->]]]].
    apply Forall_upd; [exact Hk|]. simpl.
    rewrite Forall_forall in Hk. apply Hk. eapply nth_error_In; eauto.
  - rewrite (add_entry_absent stack_in func_called index value lock_data Hinv Hnin).
    eapply Permutation_Forall; [apply qsort_perm|].
    apply Forall_app. split; [exact Hk|]. constructor; [exact Hp | constructor].
Qed.

(** X4. The key of every entry of the store is cut out of the stack of the
    entry: the stack is its first line, then the line of the calling function
    closed by [':'], then the other lines; the key starts with that line of
    the calling function and ends with [':']. *)
Theorem keys_come_from_the_stack (fuel : nat) (file : string) (sdepth : Z)
  (lock_data : list lock_info) :
  lookup_data fuel file sdepth = Done lock_data ->
  Forall (fun r => key_shape (stack r) (called_from r)) lock_data.
Proof.
  intros H.
  pose proof (lookup_rel_inv add_entry add_entry
                (fun ld _ => store_inv ld /\
                   Forall (fun r => key_shape (stack r) (called_from r)) ld)
                shape_inv
                (fun stk cf v => key_shape stk cf /\ in_long v)
                (fun _ => True)) as L.
  specialize (L read_data_body_shape).
  specialize (L ltac:(intros stk cf i v s1 s2 [Hs _] _ [Hi Hf]; split;
                        [now apply add_entry_inv | now apply add_entry_fields])).
  specialize (L shape_inv_start).
  specialize (L ltac:(apply Forall_forall; intros; exact I)).
  specialize (L fuel file sdepth [] [] (conj store_inv_nil (Forall_nil _))).
  unfold lookup_data in H. rewrite H in L. simpl in L. exact (proj2 L).
Qed.

Lemma keys_come_from_the_stack_witness :
  Forall (fun r => key_shape (stack r) (called_from r)) sample_store.
Proof.
  apply (keys_come_from_the_stack 100 sample_file 1 sample_store).
  vm_compute. reflexivity.
Defined.

(** X6. Reading never goes through a null pointer: each line the reader
    puts a [':'] in has had its newline turned into a space before, so the
    search for the last space finds one. *)
Theorem reader_never_faults (fuel : nat) (file : string) (sdepth : Z) :
  lookup_data fuel file sdepth <> Fault.
Proof.
  pose proof (lookup_data_keys fuel file sdepth) as H. intros E.
  rewrite E in H. exact H.
Qed.

(** X5. The store the reader returns can be searched as the reader searches
    it: [bsearch] with [locate_stack] finds the entry of every stack of the
    store, and finds nothing for a stack that has no entry. *)
Theorem store_is_searchable (fuel : nat) (file : string) (sdepth : Z)
  (lock_data : list lock_info) :
  lookup_data fuel file sdepth = Done lock_data ->
  (forall r, In r lock_data ->
     exists i, bsearch locate_stack (stack r) lock_data (List.length lock_data)
               = Some i /\ nth_error lock_data i = Some r) /\
  (forall stk, ~ In stk (map stack lock_data) ->
     bsearch locate_stack stk lock_data (List.length lock_data) = None).
Proof.
  intros H. destruct (lookup_data_inv fuel file sdepth lock_data H) as [[Hs Hnd] _].
  split.
  - intros r Hr.
    destruct (bsearch locate_stack (stack r) lock_data (List.length lock_data))
      as [i|] eqn:Hb.
    + exists i. split; [reflexivity|].
      destruct (bsearch_sound stack (stack r) lock_data i Hb) as [p [Hp Hk]].
      rewrite Hp. f_equal.
      pose proof (find_stack_In lock_data p Hnd (nth_error_In _ _ Hp)) as F1.
      pose proof (find_stack_In lock_data r Hnd Hr) as F2.
      rewrite Hk in F1. congruence.
    + exfalso.
      apply (bsearch_complete stack (stack r) lock_data Hs Hb).
      now apply in_map.
  - intros stk Hn.
    destruct (bsearch locate_stack stk lock_data (List.length lock_data))
      as [i|] eqn:Hb; [|reflexivity].
    exfalso. apply Hn.
    destruct (bsearch_sound stack stk lock_data i Hb) as [p [Hp Hk]].
    rewrite <- Hk. apply in_map. eapply nth_error_In; eauto.
Qed.

Lemma store_is_searchable_witness :
  (forall r, In r sample_store ->
     exists i, bsearch locate_stack (stack r) sample_store (List.length sample_store)
               = Some i /\ nth_error sample_store i = Some r) /\
  (forall stk, ~ In stk (map stack sample_store) ->
     bsearch locate_stack stk sample_store (List.length sample_store) = None).
Proof.
  apply (store_is_searchable 100 sample_file 1 sample_store).
  vm_compute. reflexivity.
Defined.

(** ** The end of the file *)

Lemma read_line_shorter (n : nat) :
  forall s, (String.length (snd (read_line n s)) <= String.length s)%nat.
Proof.
  induction n as [|n IH]; intros [|c s]; simpl; try lia.
  destruct (Ascii.eqb c nl); simpl; [lia|].
  specialize (IH s). destruct (read_line n s) as [line rest]. simpl in *. lia.
Qed.

Lemma read_line_progress (n : nat) (c : ascii) (s : string) :
  (String.length (snd (read_line (S n) (String c s))) < String.length (String c s))%nat.
Proof.
  simpl. destruct (Ascii.eqb c nl); simpl; [lia|].
  pose proof (read_line_shorter n s) as H.
  destruct (read_line n s) as [line rest]. simpl in *. lia.
Qed.

Lemma fgets_shorter (b file : string) :
  (String.length (snd (fgets b 1024 file)) <= String.length file)%nat.
Proof.
  unfold fgets. destruct file as [|c s]; [simpl; lia|].
  pose proof (read_line_shorter (1024 - 1) (String c s)) as H.
  destruct (read_line (1024 - 1) (String c s)) as [line rest]. exact H.
Qed.

Lemma fgets_progress (b file : string) :
  file <> EmptyString ->
  (String.length (snd (fgets b 1024 file)) < String.length file)%nat.
Proof.
  unfold fgets. destruct file as [|c s]; [contradiction|]. intros _.
  pose proof (read_line_progress 1022 c s) as H.
  change (1024 - 1)%nat with 1023%nat.
  destruct (read_line 1023 (String c s)) as [line rest]. exact H.
Qed.

(** An iteration does not give back what it has read, and reads at least
    one character when the file has one. *)
Lemma read_data_body_reads (sdepth : Z) (st : rd_state) :
  match read_data_body sdepth st with
  | Done s =>
      (String.length (fd (step_state s)) <= String.length (fd st))%nat /\
      (fd st <> EmptyString ->
       (String.length (fd (step_state s)) < String.length (fd st))%nat)
  | OutOfFuel => False
  | _ => True
  end.
Proof.
  unfold read_data_body.
  pose proof (fgets_shorter (buffer st) (fd st)) as H1.
  assert (H2 : fd st <> EmptyString ->
               (String.length (snd (fgets (buffer st) 1024 (fd st)))
                < String.length (fd st))%nat) by apply fgets_progress.
  destruct (fgets (buffer st) 1024 (fd st)) as [b f]. simpl in *.
  destruct (Ascii.eqb (first_char b) "="); [simpl; auto|].
  destruct (strstr b "[]"); [simpl; auto|].
  destruct (Ascii.eqb (first_char b) "@"); [simpl; auto|].
  unfold remove_new_line at 1.
  destruct (strchr b nl) as [i|]; simpl; [|exact I].
  destruct (have_function st); simpl.
  - destruct (Ascii.eqb (first_char (take i b ++ " ")) "]").
    + destruct (strchr (take i b ++ " ") ":"); simpl; auto.
    + destruct (depth st <? sdepth); simpl; auto.
      unfold colon_at_last_space.
      destruct (strrchr (take i b ++ " ") " "); simpl; auto.
  - pose proof (fgets_shorter (take i b ++ " ") f) as H3.
    destruct (fgets (take i b ++ " ") 1024 f) as [b2 f2]. simpl in *.
    destruct (remove_new_line b2) as [b3| | |] eqn:R; simpl; auto.
    + unfold colon_at_last_space. destruct (strrchr b3 " "); simpl; auto.
      split; [lia|]. intros Hne. specialize (H2 Hne). lia.
    + unfold remove_new_line in R. destruct (strchr b2 nl); discriminate.
Qed.



Lemma strchr_take_none (b : string) (c : ascii) (i : nat) :
  strchr b c = None -> strchr (take i b) c = None.
Proof.
  revert i. induction b as [|a b IH]; intros [|i]; simpl; try reflexivity.
  destruct (Ascii.eqb a c); [discriminate|].
  destruct (strchr b c) eqn:E; [discriminate|]. intros _. now rewrite IH.
Qed.

Lemma strchr_app_none (a s : string) (c : ascii) :
  strchr a c = None -> strchr s c = None -> strchr (a ++ s) c = None.
Proof.
  induction a as [|x a IH]; simpl; [auto|].
  destruct (Ascii.eqb x c); [discriminate|].
  destruct (strchr a c); [discriminate|]. intros _ H. now rewrite IH.
Qed.

Lemma remove_new_line_no_newline (b b1 : string) :
  remove_new_line b = Done b1 -> strchr b1 nl = None.
Proof.
  unfold remove_new_line. destruct (strchr b nl) as [i|] eqn:E; [|discriminate].
  intros H. inversion H. apply strchr_app_none; [|reflexivity].
  now apply strchr_take_first.
Qed.

Lemma colon_at_last_space_no_newline (b b1 : string) :
  strchr b nl = None -> colon_at_last_space b = Done b1 -> strchr b1 nl = None.
Proof.
  unfold colon_at_last_space. intros Hn.
  destruct (strrchr b " ") as [i|]; [|discriminate].
  intros H. inversion H. apply strchr_app_none; [|reflexivity].
  now apply strchr_take_none.
Qed.

Lemma fgets_eof (b : string) (n : nat) : fgets b n "" = (b, ""%string).
Proof. reflexivity. Qed.

Section ReaderEnd.

Context {Store : Type}.
Variable record : string -> string -> nat -> Z -> Store -> Store.

(** A state that rereads its line goes round for ever. *)
Lemma rereads_for_ever (fuel index : nat) (sdepth : Z) :
  forall st store,
    rereads st -> read_data_loop record fuel index sdepth st store = OutOfFuel.
Proof.
  induction fuel as [|fuel IH]; intros st store [Hf [He Hr]]; [reflexivity|].
  cbn [read_data_loop]. unfold read_data_body. rewrite Hf, fgets_eof.
  cbn [fd buffer]. rewrite He.
  destruct (strstr (buffer st) "[]") eqn:Hs; cbn [bind].
  - apply IH. unfold rereads. cbn [fd buffer]. auto.
  - destruct Hr as [Hr|Hr]; [discriminate|]. rewrite Hr. cbn [bind].
    apply IH. unfold rereads. cbn [fd buffer]. auto.
Qed.

(** At the end of the file, with a line that has lost its newline in the
    buffer, the first iteration ends the loop or the loop never ends. *)
Lemma read_data_loop_quiet (index : nat) (sdepth : Z) (st : rd_state) :
  fd st = EmptyString -> strchr (buffer st) nl = None ->
  rereads st \/
  forall store, read_data_loop record 1 index sdepth st store <> OutOfFuel.
Proof.
  intros Hf Hn.
  destruct (Ascii.eqb (first_char (buffer st)) "=") eqn:He.
  { right. intros store. cbn [read_data_loop]. unfold read_data_body.
    rewrite Hf, fgets_eof. cbn [fd buffer]. rewrite He. simpl. discriminate. }
  destruct (strstr (buffer st) "[]") eqn:Hs.
  { left. unfold rereads. auto. }
  destruct (Ascii.eqb (first_char (buffer st)) "@") eqn:Ha.
  { left. unfold rereads. auto. }
  right. intros store. cbn [read_data_loop]. unfold read_data_body.
  rewrite Hf, fgets_eof. cbn [fd buffer]. rewrite He, Hs, Ha.
  unfold remove_new_line. rewrite Hn. simpl. discriminate.
Qed.

(** An iteration at the end of the file leaves a line without newline in the
    buffer, unless the state rereads its line. *)
Lemma read_data_body_eof (sdepth : Z) (st : rd_state) :
  fd st = EmptyString ->
  rereads st \/
  match read_data_body sdepth st with
  | Done (Break _) => True
  | Done s => fd (step_state s) = EmptyString /\
              strchr (buffer (step_state s)) nl = None
  | Exited _ _ => True
  | Fault => True
  | OutOfFuel => False
  end.
Proof.
  intros Hf.
  destruct (Ascii.eqb (first_char (buffer st)) "=") eqn:He.
  { right. unfold read_data_body. rewrite Hf, fgets_eof. cbn [fd buffer].
    rewrite He. exact I. }
  destruct (strstr (buffer st) "[]") eqn:Hs.
  { left. unfold rereads. auto. }
  destruct (Ascii.eqb (first_char (buffer st)) "@") eqn:Ha.
  { left. unfold rereads. auto. }
  right. unfold read_data_body. rewrite Hf, fgets_eof. cbn [fd buffer].
  rewrite He, Hs, Ha.
  destruct (remove_new_line (buffer st)) as [b1| | |] eqn:R; simpl; auto.
  2:{ unfold remove_new_line in R. destruct (strchr (buffer st) nl); discriminate. }
  pose proof (remove_new_line_no_newline _ _ R) as Hn1.
  destruct (have_function st); simpl.
  - destruct (Ascii.eqb (first_char b1) "]").
    + destruct (strchr b1 ":"); simpl; auto.
    + destruct (depth st <? sdepth); simpl; auto.
      destruct (colon_at_last_space b1) as [b2| | |] eqn:C; simpl; auto.
      * split; [reflexivity|]. eapply colon_at_last_space_no_newline; eauto.
      * unfold colon_at_last_space in C. destruct (strrchr b1 " "); discriminate.
  - unfold remove_new_line. rewrite Hn1. simpl. exact I.
Qed.

Lemma settles_rereads (index : nat) (sdepth : Z) (m : nat) (st : rd_state) :
  rereads st -> settles record index sdepth m st.
Proof. intros H. left. intros fuel store. now apply rereads_for_ever. Qed.

Lemma settles_more (index : nat) (sdepth : Z) (m m' : nat) (st : rd_state) :
  (m <= m')%nat -> settles record index sdepth m st ->
  settles record index sdepth m' st.
Proof.
  intros Hle [H|H]; [now left | right].
  intros store.
  rewrite (read_data_loop_more_fuel record m index sdepth m' st store Hle (H store)).
  apply H.
Qed.

Lemma settles_step (index : nat) (sdepth : Z) (m : nat) (st : rd_state) :
  match read_data_body sdepth st with
  | Done (Break _) => True
  | Done s => settles record index sdepth m (step_state s)
  | Exited _ _ => True
  | Fault => True
  | OutOfFuel => False
  end ->
  settles record index sdepth (S m) st.
Proof.
  unfold settles. intros H.
  destruct (read_data_body sdepth st) as [[st'|st'|st' v]|status diag| |] eqn:E;
    cbn [step_state] in H.
  - right. intros store. cbn [read_data_loop]. rewrite E. discriminate.
  - destruct H as [H|H]; [left | right].
    + intros [|fuel] store; [reflexivity|]. cbn [read_data_loop]. rewrite E.
      apply H.
    + intros store. cbn [read_data_loop]. rewrite E. apply H.
  - destruct H as [H|H]; [left | right].
    + intros [|fuel] store; [reflexivity|]. cbn [read_data_loop]. rewrite E.
      apply H.
    + intros store. cbn [read_data_loop]. rewrite E. apply H.
  - right. intros store. cbn [read_data_loop]. rewrite E. discriminate.
  - right. intros store. cbn [read_data_loop]. rewrite E. discriminate.
  - contradiction.
Qed.

Lemma settles_eof (index : nat) (sdepth : Z) (st : rd_state) :
  fd st = EmptyString -> settles record index sdepth 2 st.
Proof.
  intros Hf. destruct (read_data_body_eof sdepth st Hf) as [H|H];
    [now apply settles_rereads|].
  apply settles_step.
  destruct (read_data_body sdepth st) as [[st'|st'|st' v]|status diag| |];
    cbn [step_state] in *; auto.
  - destruct H as [Hf' Hn'].
    destruct (read_data_loop_quiet index sdepth st' Hf' Hn') as [Hr|Hq];
      [now apply settles_rereads | now right].
  - destruct H as [Hf' Hn'].
    destruct (read_data_loop_quiet index sdepth st' Hf' Hn') as [Hr|Hq];
      [now apply settles_rereads | now right].
Qed.

(** The loop ends within as many iterations as the file has characters, and
    two more, or never. *)
Lemma read_data_loop_bound (index : nat) (sdepth : Z) (n : nat) :
  forall st,
    (String.length (fd st) <= n)%nat -> settles record index sdepth (n + 2) st.
Proof.
  induction n as [|n IH]; intros st Hl.
  - apply settles_eof. destruct (fd st); [reflexivity | simpl in Hl; lia].
  - destruct (fd st) as [|c s] eqn:Hf.
    + apply (settles_more index sdepth 2); [lia | now apply settles_eof].
    + change (S n + 2)%nat with (S (n + 2)). apply settles_step.
      pose proof (read_data_body_reads sdepth st) as Hr.
      destruct (read_data_body sdepth st) as [[st'|st'|st' v]|status diag| |];
        cbn [step_state] in *; auto.
      * apply IH. destruct Hr as [_ Hr]. rewrite Hf in Hr.
        specialize (Hr ltac:(discriminate)). simpl in *. lia.
      * apply IH. destruct Hr as [_ Hr]. rewrite Hf in Hr.
        specialize (Hr ltac:(discriminate)). simpl in *. lia.
Qed.

End ReaderEnd.

(** ** Small inputs and the arrays of [read_data] *)

Lemma read_line_lengths (n : nat) :
  forall s,
    (String.length (fst (read_line n s)) + String.length (snd (read_line n s))
     = String.length s)%nat.
Proof.
  induction n as [|n IH]; intros [|c s]; simpl; try reflexivity.
  destruct (Ascii.eqb c nl); simpl; [reflexivity|].
  specialize (IH s). destruct (read_line n s) as [line rest]. simpl in *. lia.
Qed.

Lemma take_length_le (i : nat) (s : string) :
  (String.length (take i s) <= String.length s)%nat.
Proof.
  revert i. induction s as [|a s IH]; intros [|i]; simpl; try lia.
  specialize (IH i). lia.
Qed.

Lemma take_length (i : nat) (s : string) :
  (i <= String.length s)%nat -> String.length (take i s) = i.
Proof.
  revert i. induction s as [|a s IH]; intros [|i]; simpl; try lia.
  intros H. rewrite IH; lia.
Qed.

Lemma strrchr_lt (s : string) (c : ascii) (i : nat) :
  strrchr s c = Some i -> (i < String.length s)%nat.
Proof.
  revert i. induction s as [|a s IH]; intros i; simpl; [discriminate|].
  destruct (strrchr s c) as [j|].
  - intros H. inversion H. specialize (IH j eq_refl). lia.
  - destruct (Ascii.eqb a c); [|discriminate]. intros H. inversion H. lia.
Qed.

Lemma newline_weight_le (b : string) :
  (newline_weight b <= String.length b)%nat.
Proof. unfold newline_weight. destruct (strchr b nl); lia. Qed.

(** [fgets] takes what it puts in the buffer from the file; at the end of
    the file it leaves both as they are. *)
Lemma fgets_room (b file b' f' : string) :
  fgets b 1024 file = (b', f') ->
  (String.length f' + newline_weight b' <= String.length file + newline_weight b)%nat.
Proof.
  unfold fgets. destruct file as [|c s].
  - intros H. inversion H. simpl. lia.
  - pose proof (read_line_lengths (1024 - 1) (String c s)) as L.
    destruct (read_line (1024 - 1) (String c s)) as [line rest].
    cbn [fst snd] in L. intros H. inversion H. subst.
    pose proof (newline_weight_le (c_str line)).
    assert (String.length (c_str line) <= String.length line)%nat.
    { unfold c_str. destruct (strchr line NUL); [apply take_length_le | lia]. }
    lia.
Qed.

(** What [remove_new_line] leaves is not longer than the line, and has no
    newline. *)
Lemma remove_new_line_room (b b1 : string) :
  remove_new_line b = Done b1 ->
  (String.length b1 <= newline_weight b)%nat /\ newline_weight b1 = O.
Proof.
  intros R. pose proof (remove_new_line_no_newline b b1 R) as Hn.
  unfold remove_new_line in R. unfold newline_weight at 1.
  destruct (strchr b nl) as [i|] eqn:E; [|discriminate].
  inversion R. subst b1. split.
  - rewrite string_length_app, take_length by (apply strchr_lt in E; lia).
    apply strchr_lt in E. simpl. lia.
  - unfold newline_weight. now rewrite Hn.
Qed.

Lemma colon_at_last_space_room (b b1 : string) :
  newline_weight b = O -> colon_at_last_space b = Done b1 ->
  (String.length b1 <= String.length b)%nat /\ newline_weight b1 = O.
Proof.
  unfold colon_at_last_space. intros Hw.
  destruct (strrchr b " ") as [j|] eqn:E; [|discriminate].
  intros H. inversion H. subst b1. apply strrchr_lt in E. split.
  - rewrite string_length_app, take_length by lia. simpl. lia.
  - unfold newline_weight in *.
    destruct (strchr b nl) eqn:Eb.
    + destruct b; [discriminate Eb | simpl in Hw; discriminate Hw].
    + rewrite strchr_app_none; [reflexivity | now apply strchr_take_none | reflexivity].
Qed.

(** An iteration appends to [stack_in] and to [func_called] only what it
    has read, or the line that was left in the buffer with its newline. *)
Lemma read_data_body_room (sdepth : Z) (st : rd_state) :
  match read_data_body sdepth st with
  | Done s =>
      (room stack_in (step_state s) <= room stack_in st)%nat /\
      (room func_called (step_state s) <= room func_called st)%nat
  | _ => True
  end.
Proof.
  unfold read_data_body.
  destruct (fgets (buffer st) 1024 (fd st)) as [b f] eqn:F.
  pose proof (fgets_room _ _ _ _ F) as F1. cbn [buffer fd].
  destruct (Ascii.eqb (first_char b) "=");
    [unfold room; cbn [step_state stack_in func_called fd buffer]; lia|].
  destruct (strstr b "[]");
    [unfold room; cbn [step_state stack_in func_called fd buffer]; lia|].
  destruct (Ascii.eqb (first_char b) "@");
    [unfold room; cbn [step_state stack_in func_called fd buffer]; lia|].
  destruct (remove_new_line b) as [b1| | |] eqn:R; cbn [bind]; try exact I.
  destruct (remove_new_line_room b b1 R) as [L1 W1].
  unfold set_buffer. cbn [buffer fd have_function func_called stack_in depth].
  destruct (have_function st); cbn [negb].
  - destruct (Ascii.eqb (first_char b1) "]").
    + destruct (strchr b1 ":"); [|exact I].
      unfold room. cbn [step_state stack_in func_called fd buffer].
      rewrite W1. lia.
    + destruct (depth st <? sdepth).
      * destruct (colon_at_last_space b1) as [b2| | |] eqn:C; cbn [bind];
          try exact I.
        destruct (colon_at_last_space_room b1 b2 W1 C) as [L2 W2].
        unfold room. cbn [step_state stack_in func_called fd buffer].
        rewrite !string_length_app, W2. lia.
      * unfold room. cbn [step_state stack_in func_called fd buffer].
        rewrite !string_length_app, W1. lia.
  - destruct (fgets b1 1024 f) as [b2 f2] eqn:F2.
    pose proof (fgets_room _ _ _ _ F2) as F3. cbn [buffer fd].
    destruct (remove_new_line b2) as [b3| | |] eqn:R2; cbn [bind]; try exact I.
    destruct (remove_new_line_room b2 b3 R2) as [L3 W3].
    destruct (colon_at_last_space b3) as [b4| | |] eqn:C; cbn [bind]; try exact I.
    destruct (colon_at_last_space_room b3 b4 W3 C) as [L4 W4].
    unfold room. cbn [step_state stack_in func_called fd buffer].
    rewrite !string_length_app, W4. lia.
Qed.

Lemma passes_room (sdepth : Z) (st st' : rd_state) :
  passes sdepth st st' ->
  (room stack_in st' <= room stack_in st)%nat /\
  (room func_called st' <= room func_called st)%nat.
Proof.
  induction 1 as [st|st s st' Hb Hp IH]; [lia|].
  pose proof (read_data_body_room sdepth st) as Hr. rewrite Hb in Hr. lia.
Qed.

(** An iteration does not go on from a null pointer, whatever the state:
    the line it puts a [':'] in ends with the space [remove_new_line] left. *)
Lemma read_data_body_no_fault (sdepth : Z) (st : rd_state) :
  read_data_body sdepth st <> Fault.
Proof.
  unfold read_data_body.
  destruct (fgets (buffer st) 1024 (fd st)) as [b f]. cbn [buffer fd].
  destruct (Ascii.eqb (first_char b) "="); [discriminate|].
  destruct (strstr b "[]"); [discriminate|].
  destruct (Ascii.eqb (first_char b) "@"); [discriminate|].
  destruct (remove_new_line b) as [b1| | |] eqn:R; cbn [bind]; try discriminate.
  2:{ unfold remove_new_line in R. destruct (strchr b nl); discriminate. }
  destruct (remove_new_line_done _ _ R) as [s1 ->].
  unfold set_buffer. cbn [buffer fd have_function func_called stack_in depth].
  destruct (have_function st); cbn [negb].
  - destruct (Ascii.eqb (first_char (s1 ++ " ")) "]").
    + destruct (strchr (s1 ++ " ") ":"); discriminate.
    + destruct (depth st <? sdepth); [|discriminate].
      destruct (colon_at_last_space_done s1) as [b2 ->]. discriminate.
  - destruct (fgets (s1 ++ " ") 1024 f) as [b2 f2]. cbn [buffer fd].
    destruct (remove_new_line b2) as [b3| | |] eqn:R2; cbn [bind]; try discriminate.
    2:{ unfold remove_new_line in R2. destruct (strchr b2 nl); discriminate. }
    destruct (remove_new_line_done _ _ R2) as [s3 ->].
    destruct (colon_at_last_space_done s3) as [b4 ->]. discriminate.
Qed.

Lemma read_data_loop_no_fault {Store : Type}
  (record : string -> string -> nat -> Z -> Store -> Store)
  (fuel index : nat) (sdepth : Z) :
  forall st store, read_data_loop record fuel index sdepth st store <> Fault.
Proof.
  induction fuel as [|fuel IH]; intros st store; [discriminate|].
  cbn [read_data_loop].
  pose proof (read_data_body_no_fault sdepth st) as Hb.
  destruct (read_data_body sdepth st) as [[st'|st'|st' v]|status diag| |];
    cbn [bind]; try discriminate; try apply IH. contradiction.
Qed.

(** X7. When the strings already built, the line in the buffer and what is
    left of the file are together shorter than the arrays ([stack_in] of 8192
    characters, [func_called] of 1024), the loop of [read_data] keeps both
    strings within their arrays in every state it goes through, whatever the
    buffer holds at the start; and the loop either never ends, or ends within
    as many iterations as the file has characters left, and two more: at the
    rule that closes the section, or by leaving the program with status 1 and
    the diagnostic on a malformed line. *)
Theorem small_input_stays_in_the_arrays {Store : Type}
  (record : string -> string -> nat -> Z -> Store -> Store)
  (index : nat) (sdepth : Z) (st : rd_state) :
  Z.of_nat (String.length (stack_in st) + String.length (fd st)
            + String.length (buffer st)) < 8192 ->
  Z.of_nat (String.length (func_called st) + String.length (fd st)
            + String.length (buffer st)) < 1024 ->
  (forall st', passes sdepth st st' ->
     Z.of_nat (String.length (stack_in st')) < 8192 /\
     Z.of_nat (String.length (func_called st')) < 1024) /\
  ((forall fuel store,
       read_data_loop record fuel index sdepth st store = OutOfFuel) \/
   (forall store,
       match read_data_loop record (String.length (fd st) + 2) index sdepth
               st store with
       | Done _ => True
       | Exited status diag =>
           status = 1 /\
           exists line,
             diag = ("malformed line: " ++ line ++ String "010" "")%string
       | _ => False
       end)).
Proof.
  intros Hs Hf. split.
  - intros st' Hp. destruct (passes_room sdepth st st' Hp) as [Rs Rf].
    pose proof (newline_weight_le (buffer st)).
    unfold room in Rs, Rf. lia.
  - destruct (read_data_loop_bound record index sdepth (String.length (fd st)) st
                (Nat.le_refl _)) as [H|H]; [now left | right].
    intros store. specialize (H store).
    pose proof (read_data_loop_no_fault record (String.length (fd st) + 2) index
                  sdepth st store) as Hn.
    destruct (read_data_loop record (String.length (fd st) + 2) index sdepth st
                store) as [r|status diag| |] eqn:E; try contradiction; [exact I|].
    destruct (read_data_loop_exit record _ index sdepth status diag st store E)
      as [st' Hb].
    exact (read_data_body_exit sdepth st' status diag Hb).
Qed.

Lemma small_input_stays_in_the_arrays_witness :
  (forall st',
     passes 2
       (mk_rd_state
          (text ["@aq_report_avg["; "    mutex_lock+1"; "    foo+10"; "    a+2";
                 "]: 100"; "===="])
          "" "" "" 0 false) st' ->
     Z.of_nat (String.length (stack_in st')) < 8192 /\
     Z.of_nat (String.length (func_called st')) < 1024) /\
  ((forall fuel store,
       read_data_loop add_entry fuel ACQ_DATA_HOLD_AVG 2
         (mk_rd_state
            (text ["@aq_report_avg["; "    mutex_lock+1"; "    foo+10"; "    a+2";
                   "]: 100"; "===="])
            "" "" "" 0 false) store = OutOfFuel) \/
   (forall store,
       match read_data_loop add_entry
               (String.length
                  (fd (mk_rd_state
                         (text ["@aq_report_avg["; "    mutex_lock+1";
                                "    foo+10"; "    a+2"; "]: 100"; "===="])
                         "" "" "" 0 false)) + 2)
               ACQ_DATA_HOLD_AVG 2
               (mk_rd_state
                  (text ["@aq_report_avg["; "    mutex_lock+1"; "    foo+10";
                         "    a+2"; "]: 100"; "===="])
                  "" "" "" 0 false) store with
       | Done _ => True
       | Exited status diag =>
           status = 1 /\
           exists line,
             diag = ("malformed line: " ++ line ++ String "010" "")%string
       | _ => False
       end)).
Proof.
  apply (small_input_stays_in_the_arrays add_entry ACQ_DATA_HOLD_AVG 2
           (mk_rd_state
              (text ["@aq_report_avg["; "    mutex_lock+1"; "    foo+10"; "    a+2";
                     "]: 100"; "===="])
              "" "" "" 0 false)).
  - vm_compute. reflexivity.
  - vm_compute. reflexivity.
Defined.

(** X8. When the file ends on a line the loop of [read_data] takes for an
    empty entry (it has ["[]"] in it) or for the start of a stack (it starts
    with ['@']), the loop reads that line again and again and never ends. *)
Theorem end_of_file_is_not_checked {Store : Type}
  (record : string -> string -> nat -> Z -> Store -> Store)
  (fuel index : nat) (sdepth : Z) (st : rd_state) (store : Store) :
  fd st = EmptyString ->
  Ascii.eqb (first_char (buffer st)) "=" = false ->
  strstr (buffer st) "[]" = true \/ Ascii.eqb (first_char (buffer st)) "@" = true ->
  read_data_loop record fuel index sdepth st store = OutOfFuel.
Proof.
  intros Hf He Hr. apply rereads_for_ever. unfold rereads. auto.
Qed.

Lemma end_of_file_is_not_checked_witness :
  read_data_loop add_entry 50 ACQ_DATA_HOLD_AVG 1
    (mk_rd_state "" ("@aq_report_avg[]: 0" ++ line_end) "" "" 0 false) []
  = OutOfFuel.
Proof.
  apply (end_of_file_is_not_checked add_entry 50 ACQ_DATA_HOLD_AVG 1
           (mk_rd_state "" ("@aq_report_avg[]: 0" ++ line_end) "" "" 0 false) []).
  - reflexivity.
  - reflexivity.
  - left. reflexivity.
Defined.

(** ** The counts and the maxima of the consolidated entries *)

Lemma key_total_app (field : nat) (k : string) (a : list lock_info) (w : lock_info) :
  key_total field k (a ++ [w])
  = key_total field k a + (if String.eqb (called_from w) k then dget w field else 0).
Proof.
  unfold key_total. induction a as [|x a IH]; simpl.
  - destruct (String.eqb (called_from w) k); lia.
  - rewrite IH. destruct (String.eqb (called_from x) k); lia.
Qed.

Lemma key_max_nonneg (field : nat) (k : string) (a : list lock_info) :
  0 <= key_max field k a.
Proof.
  unfold key_max. induction a as [|x a IH]; simpl; [lia|].
  destruct (String.eqb (called_from x) k); lia.
Qed.

Lemma key_max_app (field : nat) (k : string) (a : list lock_info) (w : lock_info) :
  key_max field k (a ++ [w])
  = if String.eqb (called_from w) k
    then Z.max (key_max field k a) (dget w field)
    else key_max field k a.
Proof.
  induction a as [|x a IH].
  - unfold key_max. simpl. destruct (String.eqb (called_from w) k); lia.
  - change (key_max field k ((x :: a) ++ [w]))
      with (if String.eqb (called_from x) k
            then Z.max (dget x field) (key_max field k (a ++ [w]))
            else key_max field k (a ++ [w])).
    change (key_max field k (x :: a))
      with (if String.eqb (called_from x) k
            then Z.max (dget x field) (key_max field k a)
            else key_max field k a).
    rewrite IH.
    destruct (String.eqb (called_from x) k), (String.eqb (called_from w) k); lia.
Qed.

Lemma key_total_absent (field : nat) (k : string) (a : list lock_info) :
  ~ In k (map called_from a) -> key_total field k a = 0.
Proof.
  unfold key_total. induction a as [|x a IH]; simpl; intros H; [reflexivity|].
  destruct (String.eqb_spec (called_from x) k) as [E|E];
    [exfalso; apply H; now left|].
  apply IH. intros Hin. apply H. now right.
Qed.

Lemma key_max_absent (field : nat) (k : string) (a : list lock_info) :
  ~ In k (map called_from a) -> key_max field k a = 0.
Proof.
  unfold key_max. induction a as [|x a IH]; simpl; intros H; [reflexivity|].
  destruct (String.eqb_spec (called_from x) k) as [E|E];
    [exfalso; apply H; now left|].
  apply IH. intros Hin. apply H. now right.
Qed.

Lemma find_index_some {A : Type} (f : A -> bool) (l : list A) (i : nat) (d : A) :
  find_index f l = Some i ->
  nth_error l i = Some (nth i l d) /\ f (nth i l d) = true.
Proof.
  revert i. induction l as [|x l IH]; intros i; simpl; [discriminate|].
  destruct (f x) eqn:E.
  - intros H. inversion H. simpl. auto.
  - destruct (find_index f l) as [j|]; simpl; [|discriminate].
    intros H. inversion H. simpl. now apply IH.
Qed.

Lemma find_index_none_all {A : Type} (f : A -> bool) (l : list A) :
  find_index f l = None -> forall x, In x l -> f x = false.
Proof.
  induction l as [|y l IH]; simpl; [contradiction|].
  destruct (f y) eqn:E; [discriminate|].
  destruct (find_index f l); simpl; [discriminate|].
  intros _ x [<- | Hx]; auto.
Qed.

Lemma map_key_upd (l : list lock_info) (i : nat) (r r' : lock_info) :
  nth_error l i = Some r -> called_from r' = called_from r ->
  map called_from (upd i r' l) = map called_from l.
Proof.
  revert i. induction l as [|x l IH]; intros [|i] Hn Hs; simpl in *; try discriminate.
  - inversion Hn; subst. now rewrite Hs.
  - f_equal. now apply IH.
Qed.

Lemma Forall_upd_key (Q : lock_info -> Prop) (l : list lock_info) (i : nat)
  (r r' : lock_info) :
  NoDup (map called_from l) -> nth_error l i = Some r ->
  (forall x, In x l -> called_from x <> called_from r -> Q x) -> Q r' ->
  Forall Q (upd i r' l).
Proof.
  revert i. induction l as [|x l IH]; intros [|i] Hnd Hn Hq Hr; simpl in *;
    try discriminate.
  - inversion Hn; subst x. inversion Hnd as [|? ? Hx Hnd']; subst.
    constructor; [exact Hr|]. apply Forall_forall. intros y Hy.
    apply Hq; [now right|]. intros E. apply Hx. rewrite <- E. now apply in_map.
  - inversion Hnd as [|? ? Hx Hnd']; subst. constructor.
    + apply Hq; [now left|]. intros E. apply Hx. rewrite E.
      apply in_map. eapply nth_error_In; eauto.
    + apply (IH i Hnd' Hn); [|exact Hr]. intros y Hy. apply Hq. now right.
Qed.

Lemma add_things_up_length (entry_add wptr e : lock_info) :
  List.length (data entry_add) = 8%nat ->
  add_things_up entry_add wptr = Some e -> List.length (data e) = 8%nat.
Proof.
  intros Hlen He. rewrite add_things_up_eq in He.
  destruct (merge_average ACQ_DATA_HOLD_AVG ACQ_DATA_HOLD_COUNT entry_add wptr)
    as [e1|] eqn:H1; [|discriminate].
  destruct (merge_average HD_DATA_HOLD_AVG HD_DATA_HOLD_COUNT e1 wptr)
    as [e2|] eqn:H2; [|discriminate].
  inversion He; subst e; clear He.
  destruct (merge_average_fields ACQ_DATA_HOLD_AVG ACQ_DATA_HOLD_COUNT
              entry_add wptr e1 ltac:(field_neq)
              ltac:(rewrite Hlen; unfold ACQ_DATA_HOLD_AVG; lia)
              ltac:(rewrite Hlen; unfold ACQ_DATA_HOLD_COUNT; lia) H1)
    as [L1 _].
  destruct (merge_average_fields HD_DATA_HOLD_AVG HD_DATA_HOLD_COUNT
              e1 wptr e2 ltac:(field_neq)
              ltac:(rewrite L1, Hlen; unfold HD_DATA_HOLD_AVG; lia)
              ltac:(rewrite L1, Hlen; unfold HD_DATA_HOLD_COUNT; lia) H2)
    as [L2 _].
  destruct (raise_max_fields ACQ_DATA_HOLD_MAX e2 wptr
              ltac:(rewrite L2, L1, Hlen; unfold ACQ_DATA_HOLD_MAX; lia))
    as [L3 _].
  destruct (raise_max_fields HD_DATA_HOLD_MAX (raise_max ACQ_DATA_HOLD_MAX e2 wptr)
              wptr ltac:(rewrite L3, L2, L1, Hlen; unfold HD_DATA_HOLD_MAX; lia))
    as [L4 _].
  congruence.
Qed.

(** An entry of another key is not touched by the stack folded. *)
Lemma folded_ok_other (folded : list lock_info) (w x : lock_info) :
  called_from x <> called_from w ->
  folded_ok folded x -> folded_ok (folded ++ [w]) x.
Proof.
  intros Hk [Hl [H1 [H2 [H3 H4]]]]. unfold folded_ok.
  rewrite !key_total_app, !key_max_app.
  destruct (String.eqb_spec (called_from w) (called_from x)) as [E|E];
    [congruence|].
  rewrite !Z.add_0_r. auto.
Qed.

(** The entry of the key of the stack holds the stack as well. *)
Lemma folded_ok_merged (folded : list lock_info) (w p e : lock_info) :
  called_from p = called_from w ->
  folded_ok folded p -> add_things_up p w = Some e ->
  folded_ok (folded ++ [w]) e.
Proof.
  intros Hk [Hl [H1 [H2 [H3 H4]]]] He.
  pose proof (add_things_up_length p w e Hl He) as Hl'.
  pose proof (add_things_up_called_from p w e He) as Hc.
  destruct (add_things_up_fields p w e Hl He) as [C1 [_ [M1 [C2 [_ M2]]]]].
  unfold folded_ok. rewrite !key_total_app, !key_max_app.
  rewrite Hc, Hk, String.eqb_refl. rewrite <- Hk.
  split; [exact Hl'|].
  split; [rewrite C1, H1; unfold add64; apply wrap64_add_l|].
  split; [rewrite C2, H2; unfold add64; apply wrap64_add_l|].
  split; [rewrite M1, H3; reflexivity | rewrite M2, H4; reflexivity].
Qed.

Lemma folded_ok_new_entry (folded : list lock_info) (w : lock_info) :
  ~ In (called_from w) (map called_from folded) ->
  folded_ok folded (new_entry w).
Proof.
  intros Hn. unfold folded_ok.
  change (called_from (new_entry w)) with (called_from w).
  rewrite !key_total_absent, !key_max_absent by exact Hn.
  repeat split; reflexivity.
Qed.

Lemma spec_fold_into_inv (folded acc acc' : list lock_info) (w : lock_info) :
  fold_inv folded acc -> spec_fold_into acc w = Some acc' ->
  fold_inv (folded ++ [w]) acc'.
Proof.
  intros [Hnd [Hk Hall]]. unfold spec_fold_into.
  destruct (find_index _ acc) as [i|] eqn:Hf.
  - destruct (find_index_some _ acc i zero_info Hf) as [Hn Hm].
    set (p := nth i acc zero_info) in *. apply String.eqb_eq in Hm.
    destruct (add_things_up p w) as [e|] eqn:He; [|discriminate].
    simpl. intros H. inversion H; subst acc'. clear H.
    pose proof (add_things_up_called_from p w e He) as Hc.
    assert (Hmap : map called_from (upd i e acc) = map called_from acc)
      by (eapply map_key_upd; eauto).
    assert (Hp : In p acc) by (eapply nth_error_In; eauto).
    split; [now rewrite Hmap|]. split.
    + intros k. rewrite Hmap, map_app, in_app_iff, <- Hk. simpl. split; [tauto|].
      intros [H|[H|[]]]; [exact H|]. subst k. rewrite <- Hm. now apply in_map.
    + apply (Forall_upd_key _ acc i p e Hnd Hn).
      * intros x Hx Hne. apply folded_ok_other; [congruence|].
        rewrite Forall_forall in Hall. now apply Hall.
      * eapply folded_ok_merged; eauto.
        rewrite Forall_forall in Hall. now apply Hall.
  - pose proof (find_index_none_all _ acc Hf) as Hno.
    assert (Hnin : ~ In (called_from w) (map called_from acc)).
    { intros Hin. apply in_map_iff in Hin. destruct Hin as [x [Ex Hx]].
      specialize (Hno x Hx). simpl in Hno. apply String.eqb_neq in Hno.
      contradiction. }
    destruct (add_things_up (new_entry w) w) as [e|] eqn:He; [|discriminate].
    simpl. intros H. inversion H; subst acc'. clear H.
    pose proof (add_things_up_called_from _ w e He) as Hc. simpl in Hc.
    split; [|split].
    + rewrite map_app. simpl. rewrite Hc.
      eapply Permutation_NoDup; [apply Permutation_app_comm|]. simpl.
      now constructor.
    + intros k. rewrite !map_app, !in_app_iff, Hk. simpl. rewrite Hc. tauto.
    + apply Forall_app. split.
      * apply Forall_forall. intros x Hx. apply folded_ok_other.
        -- intros E. apply Hnin. rewrite <- E. now apply in_map.
        -- rewrite Forall_forall in Hall. now apply Hall.
      * constructor; [|constructor].
        apply (folded_ok_merged folded w (new_entry w) e); [reflexivity| |exact He].
        apply folded_ok_new_entry. now rewrite <- Hk.
Qed.

Lemma spec_consolidate_from_inv (stacks : list lock_info) :
  forall folded acc out,
    fold_inv folded acc -> spec_consolidate_from acc stacks = Some out ->
    fold_inv (folded ++ stacks) out.
Proof.
  induction stacks as [|w stacks IH]; intros folded acc out Hi; simpl.
  - intros H. inversion H; subst. now rewrite app_nil_r.
  - destruct (spec_fold_into acc w) as [acc'|] eqn:Hf; [|discriminate].
    intros H. pose proof (spec_fold_into_inv folded acc acc' w Hi Hf) as Hi'.
    specialize (IH (folded ++ [w]) acc' out Hi' H).
    now rewrite <- app_assoc in IH.
Qed.

(** X10. After the consolidation no two entries have the same key, the keys
    are those of the stacks folded (all but the one the sort puts first), and
    each entry holds, for the acquisitions and for the holds, the sum of the
    counts of the stacks of its key, reduced to the range of [long], and the
    largest of their maxima that is above zero. *)
Theorem consolidated_counts_and_maxima (lock_data : list lock_info)
  (cs : cons_store) :
  organize_data lock_data = Some cs ->
  let folded := tl (qsort sort_func lock_data) in
  NoDup (map called_from (cons_entries cs)) /\
  (forall k, In k (map called_from (cons_entries cs))
             <-> In k (map called_from folded)) /\
  Forall (folded_ok folded) (cons_entries cs).
Proof.
  intros H folded.
  pose proof (organize_sorted_tail_done (qsort sort_func lock_data) cs
                (qsort_sorted sort_func sort_func_total sort_func_trans lock_data)
                H) as T.
  unfold spec_consolidate in T.
  apply (spec_consolidate_from_inv folded [] [] (cons_entries cs)); [|exact T].
  split; [constructor|]. split; [intros k; simpl; tauto | constructor].
Qed.

Lemma consolidated_counts_and_maxima_witness :
  exists cs,
    organize_data sample_store = Some cs /\
    let folded := tl (qsort sort_func sample_store) in
    NoDup (map called_from (cons_entries cs)) /\
    (forall k, In k (map called_from (cons_entries cs))
               <-> In k (map called_from folded)) /\
    Forall (folded_ok folded) (cons_entries cs).
Proof.
  exists two_callers.
  assert (E : organize_data sample_store = Some two_callers)
    by (vm_compute; reflexivity).
  split; [exact E|].
  apply (consolidated_counts_and_maxima sample_store two_callers E).
Defined.

(** ** The lines of an entry and the caller filter *)













(** X14. A key of several frames is printed one frame per line: the first
    frame on the line of the entry with its six numbers, each other frame
    alone on a line of its own, right-justified like the first. *)
Theorem frames_are_printed_one_per_line (e : lock_info) (f1 : string)
  (frames : list string) :
  Forall (fun f => strchr f ":" = None) (f1 :: frames) ->
  called_from e = join_frames (f1 :: frames) ->
  entry_lines e
  = Done (entry_line f1 e
          :: map (fun f => (pad_left 48 f ++ line_end)%string) frames).
Proof.
  intros Hall Hk. inversion Hall as [|? ? Hf Hall']; subst.
  unfold entry_lines, first_frame. rewrite Hk.
  cbn [join_frames fold_right]. fold (join_frames frames).
  change (":" ++ join_frames frames)%string with (String ":" (join_frames frames)).
  rewrite (strchr_app_found f1 (join_frames frames) ":" Hf).
  rewrite drop_app_length, take_app_length.
  rewrite more_frames_join; [reflexivity | | exact Hall'].
  pose proof (join_frames_length frames). lia.
Qed.

Lemma frames_are_printed_one_per_line_witness :
  entry_lines (mk_lock_info "" "    foo+10:    a+2:    b+3:"
                 [250; 3000; 40; 0; 0; 0; 0; 0])
  = Done (entry_line "    foo+10"
            (mk_lock_info "" "    foo+10:    a+2:    b+3:"
               [250; 3000; 40; 0; 0; 0; 0; 0])
          :: map (fun f => (pad_left 48 f ++ line_end)%string)
               ["    a+2"; "    b+3"]%string).
Proof.
  apply (frames_are_printed_one_per_line
           (mk_lock_info "" "    foo+10:    a+2:    b+3:"
              [250; 3000; 40; 0; 0; 0; 0; 0])
           "    foo+10" ["    a+2"; "    b+3"]%string).
  - repeat constructor.
  - reflexivity.
Defined.

Lemma all_space_no_char (w : string) (c : ascii) :
  isspace c = false -> all_space w = true -> strchr w c = None.
Proof.
  intros Hc. induction w as [|a w IH]; simpl; [reflexivity|].
  intros H. apply andb_true_iff in H. destruct H as [Ha Hw].
  destruct (Ascii.eqb_spec a c) as [E|E]; [congruence|].
  now rewrite IH.
Qed.

Lemma no_space_no_char (s : string) (c : ascii) :
  isspace c = true -> no_space s = true -> strchr s c = None.
Proof.
  intros Hc. induction s as [|a s IH]; simpl; [reflexivity|].
  intros H. apply andb_true_iff in H. destruct H as [Ha Hs].
  destruct (Ascii.eqb_spec a c) as [E|E].
  - subst a. rewrite Hc in Ha. discriminate.
  - now rewrite IH.
Qed.

Lemma skip_space_app (w s : string) :
  all_space w = true -> isspace (first_char s) = false ->
  skip_space (w ++ s) = s.
Proof.
  intros Hw Hs. induction w as [|a w IH]; simpl in *.
  - destruct s as [|c s]; [reflexivity|]. simpl in *. now rewrite Hs.
  - apply andb_true_iff in Hw. destruct Hw as [Ha Hw]. rewrite Ha. now apply IH.
Qed.

Lemma strchr_app_shift (a s : string) (c : ascii) :
  strchr a c = None ->
  strchr (a ++ s) c = option_map (Nat.add (String.length a)) (strchr s c).
Proof.
  induction a as [|x a IH]; simpl.
  - intros _. destruct (strchr s c); reflexivity.
  - destruct (Ascii.eqb x c); [discriminate|].
    destruct (strchr a c) eqn:E; [discriminate|]. intros _.
    rewrite IH by reflexivity. destruct (strchr s c); reflexivity.
Qed.

Lemma take_app_more (a s : string) (i : nat) :
  take (String.length a + i) (a ++ s) = (a ++ take i s)%string.
Proof. induction a as [|x a IH]; simpl; [reflexivity | now rewrite IH]. Qed.

(** What the filter compares for a key that starts with white space, then
    a name, then a space, a [':'] or nothing. *)
Lemma filter_name_first_word (w name tail : string) :
  all_space w = true -> name <> EmptyString ->
  isspace (first_char name) = false ->
  strchr name " " = None -> strchr name ":" = None ->
  tail = EmptyString \/ first_char tail = " "%char \/ first_char tail = ":"%char ->
  filter_name (first_frame (w ++ name ++ tail)) = name.
Proof.
  intros Hw Hne Hf Hsp Hc Ht.
  assert (Hwc : strchr (w ++ name) ":" = None).
  { apply strchr_app_none; [|exact Hc].
    apply all_space_no_char; [reflexivity | exact Hw]. }
  assert (Hff : exists t,
             first_frame (w ++ name ++ tail) = (w ++ name ++ t)%string /\
             (t = EmptyString \/ first_char t = " "%char)).
  { unfold first_frame.
    replace (w ++ name ++ tail)%string with ((w ++ name) ++ tail)%string
      by (now rewrite string_app_assoc).
    rewrite (strchr_app_shift _ tail ":" Hwc).
    destruct (strchr tail ":") as [i|] eqn:Ei; cbn [option_map].
    - rewrite take_app_more. exists (take i tail).
      split; [now rewrite string_app_assoc|].
      destruct tail as [|x tail]; [discriminate Ei|].
      destruct Ht as [Ht|[Ht|Ht]]; [discriminate Ht | |]; simpl in Ht; subst x.
      + right. simpl in Ei. destruct (strchr tail ":"); [|discriminate Ei].
        inversion Ei. reflexivity.
      + left. simpl in Ei. inversion Ei. reflexivity.
    - exists tail. split; [now rewrite string_app_assoc|].
      destruct Ht as [Ht|[Ht|Ht]]; [now left | now right |].
      destruct tail as [|x tail]; [now left|]. simpl in Ht. subst x.
      simpl in Ei. discriminate Ei. }
  destruct Hff as [t [-> Ht']].
  unfold filter_name.
  rewrite skip_space_app; [| exact Hw |].
  2:{ destruct name as [|x name]; [contradiction | exact Hf]. }
  rewrite (strchr_app_shift name t " " Hsp).
  destruct Ht' as [-> | Ht'].
  - simpl. apply string_app_nil_r.
  - destruct t as [|x t]; [discriminate Ht'|]. simpl in Ht'. subst x.
    simpl. rewrite Nat.add_0_r. apply take_app_length.
Qed.

(** X13. The caller filter compares the name given with the first word of
    the key: the white space before it is skipped, and the key is cut at its
    first [':'] and then at its first space.  An entry is kept when the two
    are the same string, and only then; a frame with a space in it is matched
    by what precedes the space. *)
Theorem caller_filter_compares_first_word (c : string) (e : lock_info)
  (w name tail : string) :
  all_space w = true -> name <> EmptyString ->
  isspace (first_char name) = false ->
  strchr name " " = None -> strchr name ":" = None ->
  tail = EmptyString \/ first_char tail = " "%char \/ first_char tail = ":"%char ->
  called_from e = (w ++ name ++ tail)%string ->
  keeps (Some c) e = String.eqb name c.
Proof.
  intros Hw Hne Hf Hsp Hc Ht Hk.
  unfold keeps, caller_skips. rewrite Hk.
  rewrite (filter_name_first_word w name tail Hw Hne Hf Hsp Hc Ht).
  rewrite negb_involutive.
  destruct (String.eqb_spec name c) as [E|E].
  - subst c. now rewrite strcmp_refl.
  - destruct (Z.eqb_spec (strcmp name c) 0) as [H|H]; [|reflexivity].
    apply strcmp_eq in H. contradiction.
Qed.

Lemma caller_filter_compares_first_word_witness :
  keeps (Some "foo"%string)
    (mk_lock_info "" "    foo bar:    a+2:" [250; 3000; 40; 0; 0; 0; 0; 0])
  = String.eqb "foo" "foo".
Proof.
  apply (caller_filter_compares_first_word "foo"
           (mk_lock_info "" "    foo bar:    a+2:" [250; 3000; 40; 0; 0; 0; 0; 0])
           "    " "foo" " bar:    a+2:").
  - reflexivity.
  - discriminate.
  - reflexivity.
  - reflexivity.
  - reflexivity.
  - right. left. reflexivity.
  - reflexivity.
Defined.

(** X12. A negative number of rows does not limit the report: compared with
    the count of entries as a [size_t] it is the larger one, and every ranked
    entry goes through the filter. *)
Theorem negative_limit_shows_all (caller : option string)
  (sort_option numb_to_show : Z) (cs : cons_store) :
  - 2 ^ 31 <= numb_to_show < 0 ->
  Z.of_nat (number_cons_entries cs) <= 2 ^ 64 - 2 ^ 31 ->
  dump_data caller sort_option numb_to_show cs
  = (lines <- dump_loop caller (ranked sort_option cs) ;;
     Done (header_line :: lines)).
Proof.
  intros Hn Hc. unfold dump_data, row_limit.
  assert (Hs : to_size_t numb_to_show = numb_to_show + 2 ^ 64).
  { unfold to_size_t.
    rewrite <- (Z.mod_add numb_to_show 1 (2 ^ 64)) by lia.
    rewrite Z.mul_1_l. apply Z.mod_small. lia. }
  rewrite Hs.
  destruct (Z.ltb_spec (numb_to_show + 2 ^ 64) (Z.of_nat (number_cons_entries cs)))
    as [H|H]; [lia|].
  rewrite firstn_all2; [reflexivity | apply ranked_length].
Qed.

Lemma negative_limit_shows_all_witness :
  dump_data None 7 (-1) two_callers
  = (lines <- dump_loop None (ranked 7 two_callers) ;;
     Done (header_line :: lines)).
Proof.
  apply (negative_limit_shows_all None 7 (-1) two_callers).
  - lia.
  - vm_compute. discriminate.
Defined.

(** ** The options *)

Lemma handle_options_app (execname : string) (a b : list (ascii * string)) :
  forall o err,
    handle_options execname (a ++ b) o err
    = match handle_options execname a o err with
      | Done (o1, e1) => handle_options execname b o1 e1
      | Exited status diag => Exited status diag
      | Fault => Fault
      | OutOfFuel => OutOfFuel
      end.
Proof.
  induction a as [|[value optarg] a IH]; intros o err; simpl; [reflexivity|].
  destruct (handle_option execname value optarg o) as [[o1 e1]|status diag| |];
    auto.
Qed.

Lemma handle_option_other (execname : string) (value : ascii) (optarg : string)
  (o : options) :
  ~ In value handled_letters ->
  handle_option execname value optarg o = Exited EXIT_SUCCESS (usage_text execname).
Proof.
  intros H. unfold handle_option.
  repeat match goal with
         | |- context [Ascii.eqb value ?c] =>
             destruct (Ascii.eqb_spec value c) as [E|_];
             [exfalso; apply H; subst value; unfold handled_letters; simpl; tauto|]
         end.
  reflexivity.
Qed.

(** X17. Any option letter the [switch] has no case of its own for ([h],
    and what [getopt] returns for an option it does not know) makes the
    program leave through [usage]: the status is that of success, the data
    file is not read, no report line is written, and the usage text is the
    last thing on stderr.  For [h] it follows the diagnostics of the options
    before it with nothing in between. *)
Theorem other_option_leaves_through_usage (fuel : nat) (execname : string)
  (before after : list (ascii * string)) (value : ascii) (optarg : string)
  (file : string) (o : options) (err : string) :
  handle_options execname before initial_options "" = Done (o, err) ->
  ~ In value handled_letters ->
  let run := main fuel execname (before ++ (value, optarg) :: after) file in
  how run = Returned 0 /\
  report run = [] /\
  (exists pre, diagnostics run = (pre ++ usage_text execname)%string) /\
  (value = "h"%char -> diagnostics run = (err ++ usage_text execname)%string).
Proof.
  intros Hb Hv run.
  assert (E : run = mk_outcome (Returned EXIT_SUCCESS) []
                      (err ++ usage_text execname)).
  { unfold run, main. rewrite handle_options_app, Hb.
    cbn [handle_options].
    rewrite (handle_option_other execname value optarg o Hv). reflexivity. }
  rewrite E. cbn [how report diagnostics].
  split; [reflexivity|]. split; [reflexivity|]. split; [eauto | reflexivity].
Qed.

Lemma other_option_leaves_through_usage_witness :
  let run :=
    main 100 "pli" ([("S"%char, "9"%string)] ++ ("h"%char, ""%string) :: [])
      sample_file in
  how run = Returned 0 /\
  report run = [] /\
  (exists pre, diagnostics run = (pre ++ usage_text "pli")%string) /\
  ("h"%char = "h"%char ->
   diagnostics run = (invalid_sort_option ++ usage_text "pli")%string).
Proof.
  apply (other_option_leaves_through_usage 100 "pli" [("S"%char, "9"%string)] []
           "h"%char "" sample_file
           (mk_options 1 None ACQS_SPENT 999999) invalid_sort_option).
  - reflexivity.
  - unfold handled_letters. simpl.
    intros [E|[E|[E|[E|[E|[E|[E|[E|[]]]]]]]]]; discriminate E.
Defined.

(** X16. A number of rows that is no number is taken for zero: when the
    file is read to its end and the consolidation is not stopped by a
    division, the report is the header line alone. *)
Theorem limit_that_is_no_number (fuel : nat) (execname optarg file : string)
  (lock_data : list lock_info) (cs : cons_store) :
  no_number optarg = true ->
  lookup_data fuel file 1 = Done lock_data ->
  organize_data lock_data = Some cs ->
  main fuel execname [("n"%char, optarg)] file
  = mk_outcome (Returned 0) [header_line] "".
Proof.
  intros Hn Hl Hc. unfold main.
  assert (Ha : atoi optarg = 0).
  { unfold atoi. change (strtoll optarg) with (atoll optarg).
    now rewrite atoll_no_number. }
  cbn [handle_options]. unfold handle_option. cbn [Ascii.eqb Bool.eqb].
  rewrite Ha. cbn [initial_options stack_depth caller sort_on number_to_show].
  rewrite Hl, Hc.
  unfold dump_data, row_limit. change (to_size_t 0) with 0.
  assert (Hf : firstn (if 0 <? Z.of_nat (number_cons_entries cs)
                       then Z.to_nat 0 else number_cons_entries cs)
                 (ranked ACQS_SPENT cs) = []).
  { destruct (Z.ltb_spec 0 (Z.of_nat (number_cons_entries cs))) as [H|H];
      [reflexivity|].
    replace (number_cons_entries cs) with O by lia. reflexivity. }
  rewrite Hf. reflexivity.
Qed.

Lemma limit_that_is_no_number_witness :
  main 100 "pli" [("n"%char, "ten"%string)] sample_file
  = mk_outcome (Returned 0) [header_line] "".
Proof.
  apply (limit_that_is_no_number 100 "pli" "ten" sample_file sample_store
           two_callers).
  - reflexivity.
  - vm_compute. reflexivity.
  - vm_compute. reflexivity.
Defined.

(** ** Reading a well-formed entry *)








Lemma first_char_app (l s : string) (c : ascii) :
  first_char (l ++ String c s) = first_char (l ++ String c "").
Proof. destruct l; reflexivity. Qed.

Section ReadEntry.

Context {Store : Type}.
Variable record : string -> string -> nat -> Z -> Store -> Store.
Variable index : nat.
Variable sdepth : Z.






End ReadEntry.




(** ** The process id in the line of [ps] *)

Lemma skip_space_all (w s : string) :
  all_space w = true -> skip_space (w ++ s) = skip_space s.
Proof.
  intros Hw. induction w as [|a w IH]; simpl in *; [reflexivity|].
  apply andb_true_iff in Hw. destruct Hw as [Ha Hw]. rewrite Ha. now apply IH.
Qed.

Lemma skip_word_app (f r : string) :
  no_space f = true -> isspace (first_char r) = true ->
  skip_word (f ++ r) = Some r.
Proof.
  intros Hf Hr. induction f as [|a f IH]; simpl in *.
  - destruct r as [|c r]; [discriminate Hr|]. simpl in *. now rewrite Hr.
  - apply andb_true_iff in Hf. destruct Hf as [Ha Hf].
    apply negb_true_iff in Ha. rewrite Ha. now apply IH.
Qed.

Lemma field_ok_parts (f s : string) :
  field_ok (f, s) = true ->
  no_space f = true /\ (forall r, isspace (first_char (f ++ r)) = false) /\
  all_space s = true /\ (forall r, isspace (first_char (s ++ r)) = true).
Proof.
  unfold field_ok. simpl. intros H.
  apply andb_true_iff in H. destruct H as [H H4].
  apply andb_true_iff in H. destruct H as [H H3].
  apply andb_true_iff in H. destruct H as [H1 H2].
  split; [exact H1|]. split; [|split; [exact H3|]].
  - intros r. destruct f as [|a f]; [discriminate H2|]. simpl in *.
    apply andb_true_iff in H1. destruct H1 as [Ha _].
    now apply negb_true_iff in Ha.
  - intros r. destruct s as [|a s]; [discriminate H4|]. simpl in *.
    apply andb_true_iff in H3. tauto.
Qed.

(** One round of the loop goes over the white space before a field and over
    the field. *)
Lemma skip_one_field (w f s r : string) :
  all_space w = true -> field_ok (f, s) = true ->
  skip_word (skip_space (w ++ f ++ s ++ r)) = Some (s ++ r)%string.
Proof.
  intros Hw Hf. destruct (field_ok_parts f s Hf) as [H1 [H2 [H3 H4]]].
  rewrite skip_space_app; [| exact Hw |].
  - apply skip_word_app; [exact H1 | apply H4].
  - apply H2.
Qed.

(** X19. On a line of [ps] with three fields, each followed by white space,
    the interrupt goes to the process whose number [atoi] reads after them:
    the fourth field of the line. *)
Theorem pid_is_the_fourth_field (w f1 s1 f2 s2 f3 s3 rest : string) :
  all_space w = true ->
  forallb field_ok [(f1, s1); (f2, s2); (f3, s3)] = true ->
  bpftrace_pid (w ++ f1 ++ s1 ++ f2 ++ s2 ++ f3 ++ s3 ++ rest)
  = Some (atoi rest).
Proof.
  intros Hw H. cbn [forallb] in H.
  apply andb_true_iff in H. destruct H as [F1 H].
  apply andb_true_iff in H. destruct H as [F2 H].
  apply andb_true_iff in H. destruct H as [F3 _].
  destruct (field_ok_parts f1 s1 F1) as [_ [_ [A1 _]]].
  destruct (field_ok_parts f2 s2 F2) as [_ [_ [A2 _]]].
  destruct (field_ok_parts f3 s3 F3) as [_ [_ [A3 _]]].
  unfold bpftrace_pid. cbn [skip_fields].
  rewrite (skip_one_field w f1 s1 _ Hw F1).
  rewrite (skip_one_field s1 f2 s2 _ A1 F2).
  rewrite (skip_one_field s2 f3 s3 _ A2 F3).
  cbn [option_map]. unfold atoi, strtoll.
  now rewrite (skip_space_all s3 rest A3).
Qed.

Lemma pid_is_the_fourth_field_witness :
  bpftrace_pid ("" ++ "4" ++ " " ++ "S" ++ " " ++ "root" ++ "      "
                ++ "1234     1  0 /usr/local/bin/bpftrace")
  = Some (atoi "1234     1  0 /usr/local/bin/bpftrace").
Proof.
  apply (pid_is_the_fourth_field "" "4" " " "S" " " "root" "      "
           "1234     1  0 /usr/local/bin/bpftrace").
  - reflexivity.
  - reflexivity.
Defined.

Lemma skip_word_none (s : string) : no_space s = true -> skip_word s = None.
Proof.
  induction s as [|a s IH]; simpl; [reflexivity|].
  intros H. apply andb_true_iff in H. destruct H as [Ha Hs].
  apply negb_true_iff in Ha. rewrite Ha. now apply IH.
Qed.

Lemma skip_space_no_space (w s : string) :
  all_space w = true -> no_space s = true -> skip_space (w ++ s) = s.
Proof.
  intros Hw Hs. rewrite (skip_space_all w s Hw).
  destruct s as [|a s]; [reflexivity|]. simpl in *.
  apply andb_true_iff in Hs. destruct Hs as [Ha _].
  apply negb_true_iff in Ha. now rewrite Ha.
Qed.

(** X20. On a line with fewer than three fields followed by white space, the
    search for the end of a field goes past the end of the line. *)
Theorem short_line_is_overrun (w : string) (fields : list (string * string))
  (last : string) :
  all_space w = true -> forallb field_ok fields = true ->
  (List.length fields < 3)%nat -> no_space last = true ->
  bpftrace_pid
    (w ++ fold_right (fun fs acc => (fst fs ++ snd fs ++ acc)%string) last fields)
  = None.
Proof.
  intros Hw Hf Hl Hn. unfold bpftrace_pid.
  assert (Hgen : forall n fs w0,
             all_space w0 = true -> forallb field_ok fs = true ->
             (List.length fs < n)%nat ->
             skip_fields n
               (w0 ++ fold_right (fun fs acc => (fst fs ++ snd fs ++ acc)%string)
                        last fs) = None).
  { induction n as [|n IH]; intros fs w0 Hw0 Hfs Hlen; [lia|].
    destruct fs as [|[f s] fs]; cbn [fold_right skip_fields fst snd].
    - rewrite (skip_space_no_space w0 last Hw0 Hn), (skip_word_none last Hn).
      reflexivity.
    - cbn [forallb] in Hfs. apply andb_true_iff in Hfs. destruct Hfs as [F Hfs].
      rewrite (skip_one_field w0 f s _ Hw0 F).
      destruct (field_ok_parts f s F) as [_ [_ [A _]]].
      apply IH; [exact A | exact Hfs | simpl in Hlen; lia]. }
  rewrite (Hgen 3%nat fields w Hw Hf Hl). reflexivity.
Qed.

Lemma short_line_is_overrun_witness :
  bpftrace_pid
    ("" ++ fold_right (fun fs acc => (fst fs ++ snd fs ++ acc)%string) ""
             [("4", " "); ("S", String nl "")]%string)
  = None.
Proof.
  apply (short_line_is_overrun "" [("4", " "); ("S", String nl "")]%string "").
  - reflexivity.
  - reflexivity.
  - simpl. lia.
  - reflexivity.
Defined.

(** ** The sort option in general, and the ranking on a total *)

(** X15. Whatever its argument, the sort option leaves a code of at most 6:
    a code above 6 is replaced by 6 with the diagnostic, any other is kept
    without one.  The routine that ranks on the total of the acquisitions is
    selected when the code is negative, and only then. *)
Theorem sort_option_in_general (execname optarg : string) (o : options) :
  exists o' err,
    handle_option execname "S" optarg o = Done (o', err) /\
    sort_on o' <= 6 /\
    (6 < atoi optarg -> sort_on o' = 6 /\ err = invalid_sort_option) /\
    (atoi optarg <= 6 -> sort_on o' = atoi optarg /\ err = ""%string) /\
    (dump_select (sort_on o') = sort_aq_spin <-> atoi optarg < 0).
Proof.
  rewrite sort_option_effect.
  destruct (Z.ltb_spec 6 (atoi optarg)) as [H|H]; eexists; eexists;
    (split; [reflexivity|]); cbn [sort_on].
  - split; [lia|]. split; [auto|]. split; [lia|].
    split; [discriminate | lia].
  - split; [exact H|]. split; [lia|]. split; [auto|].
    split.
    + intros Hs. destruct (Z.lt_ge_cases (atoi optarg) 0) as [Hn|Hn]; [exact Hn|].
      exfalso.
      assert (Hc : atoi optarg = 0 \/ atoi optarg = 1 \/ atoi optarg = 2 \/
                   atoi optarg = 3 \/ atoi optarg = 4 \/ atoi optarg = 5 \/
                   atoi optarg = 6) by lia.
      destruct Hc as [E|[E|[E|[E|[E|[E|E]]]]]]; rewrite E in Hs; discriminate Hs.
    + intros Hn. apply dump_select_default. now left.
Qed.

Lemma set_totals_products (e : lock_info) :
  List.length (data e) = 8%nat -> totals_set (set_totals e).
Proof.
  intros Hl. unfold totals_set, set_totals.
  assert (Hl' : List.length
                  (data (dset e ACQ_DATA_TOTAL_TIME
                           (mul64 (dget e ACQ_DATA_HOLD_AVG)
                                  (dget e ACQ_DATA_HOLD_COUNT)))) = 8%nat).
  { unfold dset. cbn [data]. rewrite length_upd. exact Hl. }
  split.
  - rewrite dget_dset_other by field_neq.
    rewrite dget_dset_same by (rewrite Hl; unfold ACQ_DATA_TOTAL_TIME; lia).
    rewrite !dget_dset_other by field_neq. reflexivity.
  - rewrite dget_dset_same by (rewrite Hl'; unfold HD_DATA_TOTAL_TIME; lia).
    rewrite !dget_dset_other by field_neq. reflexivity.
Qed.

Lemma StronglySorted_under {A : Type} (R R' : A -> A -> Prop) (P : A -> Prop)
  (l : list A) :
  (forall a b, P a -> P b -> R a b -> R' a b) ->
  Forall P l -> StronglySorted R l -> StronglySorted R' l.
Proof.
  intros Himp Hp Hs. induction Hs as [|x l Hs IH Hall]; constructor.
  - apply IH. now inversion Hp.
  - inversion Hp as [|? ? Px Pl]; subst.
    rewrite Forall_forall in *. intros b Hb. apply Himp; auto.
Qed.

(** X11. The totals the ranking looks at are products: in the ranked
    entries each total is the average times the count, reduced to the range
    of [long]; so a ranking on the total of the acquisitions, or on the total
    of the holds, is in non-increasing order of that product. *)
Theorem ranking_on_a_total_is_on_the_product (sort_option : Z) (cs : cons_store) :
  Forall (fun e => List.length (data e) = 8%nat) (cons_entries cs) ->
  Forall totals_set (ranked sort_option cs) /\
  (dump_select sort_option = sort_aq_spin ->
   StronglySorted
     (fun a b => mul64 (dget b ACQ_DATA_HOLD_AVG) (dget b ACQ_DATA_HOLD_COUNT)
                 <= mul64 (dget a ACQ_DATA_HOLD_AVG) (dget a ACQ_DATA_HOLD_COUNT))
     (ranked sort_option cs)) /\
  (dump_select sort_option = sort_hold_total ->
   StronglySorted
     (fun a b => mul64 (dget b HD_DATA_HOLD_AVG) (dget b HD_DATA_HOLD_COUNT)
                 <= mul64 (dget a HD_DATA_HOLD_AVG) (dget a HD_DATA_HOLD_COUNT))
     (ranked sort_option cs)).
Proof.
  intros Hl.
  assert (Hp : Forall totals_set (ranked sort_option cs)).
  { eapply Permutation_Forall; [apply ranked_perm|].
    rewrite Forall_map. eapply Forall_impl; [|exact Hl].
    intros e. apply set_totals_products. }
  split; [exact Hp|].
  pose proof (ranked_sorted sort_option cs) as Hs.
  split; intros Hc; rewrite Hc in Hs; cbn [comparator_field] in Hs.
  - eapply StronglySorted_under; [|exact Hp|exact Hs].
    intros a b [Ha _] [Hb _] H. cbv beta in H. now rewrite <- Ha, <- Hb.
  - eapply StronglySorted_under; [|exact Hp|exact Hs].
    intros a b [_ Ha] [_ Hb] H. cbv beta in H. now rewrite <- Ha, <- Hb.
Qed.

Lemma ranking_on_a_total_is_on_the_product_witness :
  Forall totals_set (ranked (-1) two_callers) /\
  (dump_select (-1) = sort_aq_spin ->
   StronglySorted
     (fun a b => mul64 (dget b ACQ_DATA_HOLD_AVG) (dget b ACQ_DATA_HOLD_COUNT)
                 <= mul64 (dget a ACQ_DATA_HOLD_AVG) (dget a ACQ_DATA_HOLD_COUNT))
     (ranked (-1) two_callers)) /\
  (dump_select (-1) = sort_hold_total ->
   StronglySorted
     (fun a b => mul64 (dget b HD_DATA_HOLD_AVG) (dget b HD_DATA_HOLD_COUNT)
                 <= mul64 (dget a HD_DATA_HOLD_AVG) (dget a HD_DATA_HOLD_COUNT))
     (ranked (-1) two_callers)).
Proof.
  apply (ranking_on_a_total_is_on_the_product (-1) two_callers).
  repeat constructor.
Defined.
